(** * KoaX: middleware dispatch, context pool, request helpers and router

    A shallow embedding of the parts of the KoaX runtime that its
    specification makes claims about, followed by the theorems that settle
    those claims.

    - [Js]          values, errors and array primitives of the host language;
    - [Dispatcher]  the middleware composer (its source file is not part of
                    the tree under study, it is modelled from the spec);
    - [Request]     [KoaXRequest] of [src/request.ts];
    - [Ctx]         [Context] and [ContextPool] of [src/context.ts];
    - [Router]      [Router.routes] of [src/router.ts] and of its extended
                    variant with nested routers;
    - [JsString]    string primitives and exceptions of the host language;
    - [RequestApi]  the remaining accessors of [KoaXRequest];
    - [PoolInv]     the invariant of the context pool;
    - [ContextApi]  the content-negotiation helpers of [Context];
    - [RouterApi]   the methods that build a router;
    - [AllowedMethods]  [Router.allowedMethods] of the extended variant. *)

From stdpp Require Import gmap strings list pretty.
From Stdlib Require Import ZArith Lia.

Open Scope Z_scope.

(* ===================================================================== *)
(** * Host-language values                                                *)
(* ===================================================================== *)

Module Js.

(** Object references are addresses into a store that only grows. *)
Definition addr := nat.

(** The values a [Record<string, any>] may hold. *)
Inductive JsVal :=
| VUndefined
| VBool (b : bool)
| VNum (n : Z)
| VStr (s : string)
| VRef (a : addr).

(** A plain object literal [{}] used as a string-keyed map. *)
Abbreviation PlainObj := (gmap string JsVal).

(** What a [throw] carries.  [new Error(message)] has neither [status] nor
    [expose]; [Context.throw] sets both. *)
Inductive JsError :=
| MultipleNextInvocationError
| ErrorObj (message : string) (status : option Z) (expose : bool).

(** The result of running a statement or an awaited call. *)
Inductive Outcome :=
| Completed
| Failed (e : JsError).

(** [Array.prototype.push]: appends at the end. *)
Definition array_push {A} (xs : list A) (x : A) : list A := xs ++ [x].

(** [Array.prototype.pop]: removes and returns the last element,
    [undefined] on an empty array. *)
Definition array_pop {A} (xs : list A) : option A * list A :=
  match last xs with
  | None => (None, xs)
  | Some x => (Some x, removelast xs)
  end.

(** [s || d] on strings: the empty string is falsy. *)
Definition str_or (s : option string) (d : string) : string :=
  match s with
  | None => d
  | Some s' => if decide (s' = "") then d else s'
  end.

(** [n || d] on numbers: zero is falsy. *)
Definition num_or (n : option Z) (d : Z) : Z :=
  match n with
  | None => d
  | Some n' => if decide (n' = 0) then d else n'
  end.

End Js.

Import Js.

(* ===================================================================== *)
(** * The dispatcher                                                      *)
(* ===================================================================== *)

Module Dispatcher.

Section WithContext.

(** The per-request context threaded through the chain. *)
Context {C : Type}.

(** Instrumentation: which middleware body was entered and which middleware
    invoked its [next]. *)
Inductive Event :=
| EStart (i : Z)
| ENext (i : Z).

#[global] Instance Event_eq_dec : EqDecision Event.
Proof. solve_decision. Defined.

(** Modelled from the spec: the request-local state of one dispatch
    (section 4.2: "per-request state (the position pointer) must be
    request-local"), which [application.ts], missing from the tree, keeps:
    the context, the position pointer ([-1] before the first middleware has
    started) and, as instrumentation, the event log. *)
Record DState := mkDState {
  ctx : C;
  cursor : Z;
  events : list Event
}.

Definition set_ctx (c : C) (s : DState) : DState :=
  mkDState c (cursor s) (events s).

Definition set_cursor (i : Z) (s : DState) : DState :=
  mkDState (ctx s) i (events s).

Definition log_event (e : Event) (s : DState) : DState :=
  mkDState (ctx s) (cursor s) (array_push (events s) e).

(** An awaitable run against the dispatch state. *)
Definition Awaitable := DState -> Outcome * DState.

(** Modelled from the spec: the body of a middleware [(context, next) ->
    awaitable]; [types.ts] gives only its type and [application.ts], which
    runs it, is missing from the tree.  A body reads and updates the
    context, invokes [next()], returns or throws.  Section 4.2 has control
    resume after the [next] call once everything downstream has completed;
    the body goes on from the outcome of that call and does with a failure
    what it likes: it lets it propagate ([await next()], [return next()]),
    handles it ([try { await next() } catch (err) { ... }], as the error
    middleware of the examples do) or disregards it
    ([await next().catch(() => {})], or a refused [next()] whose result
    is never looked at).  A first [next()] that is left pending, with the
    body going on while the rest of the chain is still running, is not
    described by the spec and is not modelled. *)
Inductive Body :=
| Return
| Raise (e : JsError)
| Read (k : C -> Body)
| Write (c : C) (k : Body)
| CallNext (k : Outcome -> Body).

Definition Update (f : C -> C) (k : Body) : Body :=
  Read (fun c => Write (f c) k).

(** [await next()] outside any [try]: a failure of [next()] leaves the
    body at once. *)
Definition AwaitNext (k : Body) : Body :=
  CallNext (fun o => match o with
                     | Completed => k
                     | Failed e => Raise e
                     end).

(** Modelled from the spec: running a body with the [next] it was handed
    (section 4.2: run its body; if it invokes [next], control passes
    downstream, and once that has completed control resumes after the
    [next] call). *)
Fixpoint run (b : Body) (next : Awaitable) (s : DState) : Outcome * DState :=
  match b with
  | Return => (Completed, s)
  | Raise e => (Failed e, s)
  | Read k => run (k (ctx s)) next s
  | Write c k => run k next (set_ctx c s)
  | CallNext k =>
      match next s with
      | (o, s') => run (k o) next s'
      end
  end.

(** Modelled from the spec: the composed execution of [application.ts],
    which is missing from the tree.  Section 4.2: executing middleware [i]
    runs its body, its [next] passes control to middleware [i+1] and
    resumes after it has completed; on an exhausted list [next] resolves
    immediately; a [next] that does not advance the request-local position
    pointer is a second invocation and throws
    [MultipleNextInvocationError]. *)
Fixpoint dispatch (mws : list Body) (i : Z) (s : DState) : Outcome * DState :=
  if decide (i <= cursor s) then (Failed MultipleNextInvocationError, s)
  else
    let s1 := set_cursor i s in
    match mws with
    | [] => (Completed, s1)
    | mw :: rest =>
        run mw (fun s' => dispatch rest (i + 1) (log_event (ENext i) s'))
            (log_event (EStart i) s1)
    end.

(** Modelled from the spec: the [next] handed to the middleware at position
    [i]; it is the argument [dispatch] passes to [run], named. *)
Definition next_of (rest : list Body) (i : Z) : Awaitable :=
  fun s => dispatch rest (i + 1) (log_event (ENext i) s).

(** Modelled from the spec: the state [NotStarted] of a dispatch. *)
Definition init (c : C) : DState := mkDState c (-1) [].

(** Modelled from the spec: the composed callable [(context) -> awaitable],
    reusable across requests because the position pointer lives in the
    per-call state. *)
Definition compose (mws : list Body) (c : C) : Outcome * DState :=
  dispatch mws 0 (init c).

(** The textbook middleware: work, delegate downstream, work again. *)
Definition wrap (pre post : C -> C) : Body :=
  Update pre (AwaitNext (Update post Return)).

(** Nesting [post (inner (pre c))] of a list of (pre, post) pairs. *)
Fixpoint onion (l : list ((C -> C) * (C -> C))) (c : C) : C :=
  match l with
  | [] => c
  | (pre, post) :: rest => post (onion rest (pre c))
  end.

(** The events of a chain of [n] middleware starting at position [i] in
    which every middleware delegates downstream once. *)
Fixpoint chain_events (i : Z) (n : nat) : list Event :=
  match n with
  | O => []
  | S n' => EStart i :: ENext i :: chain_events (i + 1) n'
  end.

(** The chain position an event belongs to. *)
Definition idx (e : Event) : Z :=
  match e with
  | EStart i => i
  | ENext i => i
  end.

(** How often an event occurs in a log. *)
Definition occurrences (e : Event) (l : list Event) : nat :=
  count_occ Event_eq_dec l e.

(** A body that hands on every failure of [next()] as it is: it neither
    handles nor disregards it. *)
Fixpoint propagates (b : Body) : Prop :=
  match b with
  | Return | Raise _ => True
  | Read k => forall c, propagates (k c)
  | Write _ k => propagates k
  | CallNext k => (forall e, k (Failed e) = Raise e) /\ propagates (k Completed)
  end.

(** What the events added by a dispatch of [mws] from position [i] look
    like: they belong to positions from [i] on, no body starts twice, and
    a middleware at a position [j] up to which every body propagates
    failures invoked [next] twice only if the outcome is the misuse
    error. *)
Definition orderly (i : Z) (mws : list Body) (o : Outcome) (new : list Event) : Prop :=
  Forall (fun e => i <= idx e) new
  /\ (forall j, occurrences (EStart j) new <= 1)%nat
  /\ (forall j, Forall propagates (take (Z.to_nat (j + 1 - i)) mws) ->
                o <> Failed MultipleNextInvocationError ->
                (occurrences (ENext j) new <= 1)%nat).

(** What a body [b] at position [i], followed by [rest], adds to the log
    when [next] has not been invoked yet. *)
Definition body_orderly (i : Z) (b : Body) (rest : list Body) (o : Outcome)
    (new : list Event) : Prop :=
  Forall (fun e => i <= idx e) new
  /\ (forall j, occurrences (EStart j) new <= 1)%nat
  /\ occurrences (EStart i) new = 0%nat
  /\ (forall j, (i <= j -> propagates b
                          /\ Forall propagates (take (Z.to_nat (j - i)) rest)) ->
                o <> Failed MultipleNextInvocationError ->
                (occurrences (ENext j) new <= 1)%nat).

(** The state in which the middleware after a prefix [l] of [wrap]
    middleware is dispatched: every middleware of the prefix has started,
    done its first part and invoked [next]. *)
Fixpoint entered (l : list ((C -> C) * (C -> C))) (i : Z) (s : DState) : DState :=
  match l with
  | [] => s
  | (pre, _) :: l' =>
      let s1 := log_event (EStart i) (set_cursor i s) in
      entered l' (i + 1) (log_event (ENext i) (set_ctx (pre (ctx s1)) s1))
  end.

(** A body that never reaches an [await next()]. *)
Fixpoint terminal (b : Body) : Prop :=
  match b with
  | Return | Raise _ => True
  | Read k => forall c, terminal (k c)
  | Write _ k => terminal k
  | CallNext _ => False
  end.

End WithContext.

Arguments DState : clear implicits.
Arguments Body : clear implicits.

(** The recording middleware of the onion-order test: the context is the
    list of recorded lines. *)
Definition enter_line (i : nat) : string := "enter" +:+ pretty i.
Definition exit_line (i : nat) : string := "exit" +:+ pretty i.

Definition recorder_parts (i : nat)
  : (list string -> list string) * (list string -> list string) :=
  (fun t => array_push t (enter_line i), fun t => array_push t (exit_line i)).

Definition recorder (i : nat) : Body (list string) :=
  wrap (recorder_parts i).1 (recorder_parts i).2.

(** A middleware that awaits [next()] twice. *)
Definition twice {C} (pre mid post : C -> C) : Body C :=
  Update pre (AwaitNext (Update mid (AwaitNext (Update post Return)))).

(** The error middleware of the examples:
    [try { await next() } catch (err) { ... }]. *)
Definition rescue {C} (handle : JsError -> C -> C) : Body C :=
  CallNext (fun o => match o with
                     | Completed => Return
                     | Failed e => Update (handle e) Return
                     end).

End Dispatcher.

(* ===================================================================== *)
(** * The platform underneath                                             *)
(* ===================================================================== *)

(** Node's [http] objects, as far as the code reads them. *)
Module Http.

(** A header value: [string | string[]]. *)
Inductive HeaderVal :=
| HStr (s : string)
| HArr (l : list string).

(** The outbound message a socket is serving ([socket._httpMessage]). *)
Record OutgoingMessage := mkOutgoingMessage {
  statusCode : option Z
}.

Record Socket := mkSocket {
  encrypted : bool;
  remoteAddress : option string;
  _httpMessage : option OutgoingMessage
}.

Record IncomingMessage := mkIncomingMessage {
  method : option string;
  url : option string;
  headers : gmap string HeaderVal;
  socket : option Socket
}.

End Http.

(** The collaborators whose source is not part of the tree ([response.ts],
    [logger.ts]) and the built-ins of the host (clock, URL parser, regular
    expressions): the code is verified against any implementation of
    them. *)
Class Platform := {
  (** [http.ServerResponse] *)
  ServerResponse : Type;
  (** [KoaXResponse], its constructor and its [reset(res)] *)
  KoaXResponse : Type;
  response_new : ServerResponse -> KoaXResponse;
  response_reset : KoaXResponse -> ServerResponse -> KoaXResponse;
  (** [Logger], its [enabled] flag and [child({reqId, method, url})] *)
  Logger : Type;
  logger_enabled : Logger -> bool;
  logger_child : Logger -> string -> option string -> option string -> Logger;
  (** the clock and the source of request identifiers *)
  Env : Type;
  generateRequestId : Env -> string * Env;
  Date_now : Env -> Z * Env;
  (** [url.parse(u).pathname] *)
  url_pathname : string -> option string;
  (** [RegExp] and [String.prototype.match] with a non-global expression:
      [null], or the array of the whole match followed by the groups, a
      group that did not take part being [undefined] *)
  RegExp : Type;
  regex_match : string -> RegExp -> option (list (option string))
}.

(* ===================================================================== *)
(** * [KoaXRequest] (src/request.ts)                                      *)
(* ===================================================================== *)

Module Request.

Import Http.

Record KoaXRequest := mkKoaXRequest {
  req : IncomingMessage;
  _url : option string;
  _path : option string;
  _query : option (gmap string string)
}.

Definition new (r : IncomingMessage) : KoaXRequest :=
  mkKoaXRequest r None None None.

(** [get url()] *)
Definition get_url (q : KoaXRequest) : string :=
  str_or (url (req q)) "/".

(** [get method()] *)
Definition get_method (q : KoaXRequest) : string :=
  str_or (method (req q)) "GET".

(** [get path()]: the cached value, else the parsed path name, which it
    caches. *)
Definition get_path `{Platform} (q : KoaXRequest) : string * KoaXRequest :=
  match _path q with
  | Some p => (p, q)
  | None =>
      let p := str_or (url_pathname (get_url q)) "/" in
      (p, mkKoaXRequest (req q) (_url q) (Some p) (_query q))
  end.

(** [(this.req.socket as any)?._httpMessage?.statusCode] *)
Definition peek_status (q : KoaXRequest) : option Z :=
  s ← socket (req q); m ← _httpMessage s; statusCode m.

(** [get fresh()] *)
Definition fresh (q : KoaXRequest) : bool :=
  let method := get_method q in
  if bool_decide (method <> "GET" /\ method <> "HEAD") then false
  else
    let s := num_or (peek_status q) 200 in
    if ((200 <=? s) && (s <? 300)) || (s =? 304) then true
    else false.

(** [get stale()] *)
Definition stale (q : KoaXRequest) : bool := negb (fresh q).

(** [reset(req)] *)
Definition reset (q : KoaXRequest) (r : IncomingMessage) : KoaXRequest :=
  mkKoaXRequest r None None None.

End Request.

(* ===================================================================== *)
(** * [Context] and [ContextPool] (src/context.ts)                        *)
(* ===================================================================== *)

Module Ctx.

Import Http.

Section WithPlatform.

Context `{Platform}.

(** The application object, as far as [Context] reads it:
    [(app as any).logger]. *)
Record KoaXApplication := mkApp {
  logger : option Logger
}.

(** A [Context] instance.  [state] and [params] refer to plain objects in
    the store; [params], [_matchedRoute], [router] and [matched] are the
    properties the routers put on the context, [request_params] is the
    [params] property the extended router puts on [ctx.request]. *)
Record Context := mkContext {
  app : KoaXApplication;
  req : IncomingMessage;
  res : ServerResponse;
  request : Request.KoaXRequest;
  response : KoaXResponse;
  state : addr;
  _inUse : option bool;
  log : option Logger;
  requestId : string;
  startTime : Z;
  params : option addr;
  _matchedRoute : option string;
  request_params : option addr;
  router : option addr;
  matched : option (list JsVal)
}.

(** The mutable world: plain objects and [Context] instances by address,
    and the state of the clock and identifier source. *)
Record Store := mkStore {
  objs : list PlainObj;
  ctxs : list Context;
  env : Env
}.

(** Evaluating the object literal [{}]. *)
Definition alloc_obj (σ : Store) : addr * Store :=
  (length (objs σ), mkStore (array_push (objs σ) ∅) (ctxs σ) (env σ)).

Definition set_inUse (b : bool) (c : Context) : Context :=
  mkContext (app c) (req c) (res c) (request c) (response c) (state c)
            (Some b) (log c) (requestId c) (startTime c) (params c)
            (_matchedRoute c) (request_params c) (router c) (matched c).

Definition set_state (o : addr) (c : Context) : Context :=
  mkContext (app c) (req c) (res c) (request c) (response c) o
            (_inUse c) (log c) (requestId c) (startTime c) (params c)
            (_matchedRoute c) (request_params c) (router c) (matched c).

(** [(app as any).logger?.enabled] *)
Definition logging (a : KoaXApplication) : bool :=
  match logger a with
  | Some l => logger_enabled l
  | None => false
  end.

(** [Context.reset(app, req, res)] on the instance [this]. *)
Definition reset (this : Context) (a : KoaXApplication) (rq : IncomingMessage)
    (rs : ServerResponse) (σ : Store) : Context * Store :=
  let request' := Request.reset (request this) rq in
  let response' := response_reset (response this) rs in
  let '(st, σ1) := alloc_obj σ in
  match logger a with
  | Some l =>
      if logger_enabled l then
        let '(rid, e1) := generateRequestId (env σ1) in
        let '(now, e2) := Date_now e1 in
        (mkContext a rq rs request' response' st (_inUse this)
                   (Some (logger_child l rid (method rq) (url rq))) rid now
                   (params this) (_matchedRoute this) (request_params this)
                   (router this) (matched this),
         mkStore (objs σ1) (ctxs σ1) e2)
      else
        (mkContext a rq rs request' response' st (_inUse this)
                   (logger a) "" 0
                   (params this) (_matchedRoute this) (request_params this)
                   (router this) (matched this),
         σ1)
  | None =>
      (mkContext a rq rs request' response' st (_inUse this)
                 (logger a) "" 0
                 (params this) (_matchedRoute this) (request_params this)
                 (router this) (matched this),
       σ1)
  end.

(** [new Context(app, req, res)]: the field initialiser [state = {}], the
    two facades, then [reset]. *)
Definition new_Context (a : KoaXApplication) (rq : IncomingMessage)
    (rs : ServerResponse) (σ : Store) : Context * Store :=
  let '(st0, σ0) := alloc_obj σ in
  let this :=
    mkContext a rq rs (Request.new rq) (response_new rs) st0 None
              None "" 0 None None None None None in
  reset this a rq rs σ0.

(** A [ContextPool] instance. *)
Record ContextPool := mkPool {
  pool : list addr;
  maxSize : Z;
  created : nat
}.

(** [new ContextPool(maxSize)] *)
Definition new_pool (max : Z) : ContextPool := mkPool [] max 0.

(** [!ctx._inUse] *)
Definition not_inUse (c : Context) : bool :=
  match _inUse c with
  | Some true => false
  | _ => true
  end.

(** [ContextPool.acquire(app, req, res)].  A popped address always names an
    instance, the store only grows; the last branch cannot be taken. *)
Definition acquire (a : KoaXApplication) (rq : IncomingMessage) (rs : ServerResponse)
    (p : ContextPool) (σ : Store) : addr * ContextPool * Store :=
  match array_pop (pool p) with
  | (None, _) =>
      let '(c, σ1) := new_Context a rq rs σ in
      (length (ctxs σ1),
       mkPool (pool p) (maxSize p) (S (created p)),
       mkStore (objs σ1) (array_push (ctxs σ1) (set_inUse true c)) (env σ1))
  | (Some x, rest) =>
      match ctxs σ !! x with
      | Some c =>
          let '(c', σ1) := reset c a rq rs σ in
          (x, mkPool rest (maxSize p) (created p),
           mkStore (objs σ1) (<[x := set_inUse true c']> (ctxs σ1)) (env σ1))
      | None => (x, mkPool rest (maxSize p) (created p), σ)
      end
  end.

(** [ContextPool.release(ctx)], [ctx] given by its address. *)
Definition release (x : addr) (p : ContextPool) (σ : Store) : ContextPool * Store :=
  match ctxs σ !! x with
  | None => (p, σ)
  | Some c =>
      if not_inUse c then (p, σ)
      else
        let c1 := set_inUse false c in
        if Z.of_nat (length (pool p)) <? maxSize p then
          let '(st, σ1) := alloc_obj σ in
          (mkPool (array_push (pool p) x) (maxSize p) (created p),
           mkStore (objs σ1) (<[x := set_state st c1]> (ctxs σ1)) (env σ1))
        else
          (p, mkStore (objs σ) (<[x := c1]> (ctxs σ)) (env σ))
  end.

(** [ContextPool.getStats()] *)
Definition getStats (p : ContextPool) : nat * nat * Z :=
  (length (pool p), created p, maxSize p).

(** [ctx.state[k] = v] *)
Definition state_write (x : addr) (k : string) (v : JsVal) (σ : Store) : Store :=
  match ctxs σ !! x with
  | Some c => mkStore (alter (insert k v) (state c) (objs σ)) (ctxs σ) (env σ)
  | None => σ
  end.

(** [o[k] = v] through a retained reference [o] to a plain object. *)
Definition obj_write (o : addr) (k : string) (v : JsVal) (σ : Store) : Store :=
  mkStore (alter (insert k v) o (objs σ)) (ctxs σ) (env σ).

(** [Context.throw(status, message?)], for an integer [status] (which the
    template literal prints in decimal). *)
Definition throw (status : Z) (message : option string) : Outcome :=
  Failed (ErrorObj (str_or message ("HTTP Error " +:+ pretty status))
                   (Some status) true).

(** [Context.assert(condition, status, message?)] *)
Definition assert (condition : bool) (status : Z) (message : option string) : Outcome :=
  if negb condition then throw status message else Completed.

(** The object [ctx.state] refers to. *)
Definition state_of (σ : Store) (x : addr) : option PlainObj :=
  c ← ctxs σ !! x; objs σ !! state c.

(** [ctx.state[k]] *)
Definition state_read (σ : Store) (x : addr) (k : string) : option JsVal :=
  o ← state_of σ x; o !! k.

(** [ctx._inUse === true] *)
Definition in_use (σ : Store) (x : addr) : Prop :=
  exists c, ctxs σ !! x = Some c /\ _inUse c = Some true.

(** What a request handler may do to the pool and to the contexts. *)
Inductive Op :=
| OpAcquire (a : KoaXApplication) (rq : IncomingMessage) (rs : ServerResponse)
| OpRelease (x : addr)
| OpStateWrite (x : addr) (k : string) (v : JsVal)
| OpObjWrite (o : addr) (k : string) (v : JsVal).

Definition step (op : Op) (w : ContextPool * Store) : ContextPool * Store :=
  match op with
  | OpAcquire a rq rs => let '(_, p', σ') := acquire a rq rs w.1 w.2 in (p', σ')
  | OpRelease x => release x w.1 w.2
  | OpStateWrite x k v => (w.1, state_write x k v w.2)
  | OpObjWrite o k v => (w.1, obj_write o k v w.2)
  end.

Definition steps (ops : list Op) (w : ContextPool * Store) : ContextPool * Store :=
  fold_left (fun w op => step op w) ops w.

(** Releasing a list of contexts one after the other. *)
Definition release_all (xs : list addr) (w : ContextPool * Store) : ContextPool * Store :=
  fold_left (fun w x => release x w.1 w.2) xs w.

(** One [acquire] per argument triple, collecting what was handed out. *)
Fixpoint acquire_all (args : list (KoaXApplication * IncomingMessage * ServerResponse))
    (w : ContextPool * Store) : list addr * (ContextPool * Store) :=
  match args with
  | [] => ([], w)
  | (a, rq, rs) :: args' =>
      let '(x, p', σ') := acquire a rq rs w.1 w.2 in
      let '(xs, w') := acquire_all args' (p', σ') in
      (x :: xs, w')
  end.

(** Every pooled address names an instance. *)
Definition pool_wf (p : ContextPool) (σ : Store) : Prop :=
  Forall (fun x => (x < length (ctxs σ))%nat) (pool p).

End WithPlatform.

End Ctx.

(* ===================================================================== *)
(** * A platform to run examples on                                       *)
(* ===================================================================== *)

Module Demo.

Import Http.

(** Responses are numbered, a logger is its [enabled] flag, the clock ticks
    at every reading, request identifiers are built from it, a URL is its
    own path name, and a regular expression is a prefix that matches the
    strings starting with it and captures what follows. *)
Definition platform : Platform := {|
  ServerResponse := nat;
  KoaXResponse := nat;
  response_new := fun r => r;
  response_reset := fun _ r => r;
  Logger := bool;
  logger_enabled := fun l => l;
  logger_child := fun l _ _ _ => l;
  Env := Z;
  generateRequestId := fun e => ("req-" +:+ pretty e, e + 1);
  Date_now := fun e => (e, e + 1);
  url_pathname := fun u => Some u;
  RegExp := string;
  regex_match := fun path re =>
    if String.prefix re path
    then Some [Some path;
               Some (String.substring (String.length re)
                       (String.length path - String.length re) path)]
    else None
|}.

Definition quiet_app : @Ctx.KoaXApplication platform := @Ctx.mkApp platform None.

Definition logging_app : @Ctx.KoaXApplication platform :=
  @Ctx.mkApp platform (Some true).

Definition get_users : IncomingMessage :=
  mkIncomingMessage (Some "GET") (Some "/users") ∅ None.

Definition post_login : IncomingMessage :=
  mkIncomingMessage (Some "POST") (Some "/login") ∅ None.

Definition empty_store : @Ctx.Store platform :=
  @Ctx.mkStore platform [] [] 1705318245123.

(** Three requests in flight on a pool of two, the first of them released
    since: the free-list holds context [0], contexts [1] and [2] are in
    use. *)
Definition crowded_world : Ctx.ContextPool * @Ctx.Store platform :=
  Ctx.steps [@Ctx.OpAcquire platform quiet_app get_users 0%nat;
             @Ctx.OpAcquire platform quiet_app post_login 1%nat;
             @Ctx.OpAcquire platform quiet_app get_users 2%nat;
             Ctx.OpRelease 0%nat]
            (Ctx.new_pool 2, empty_store).

(** Two requests in flight on a pool of one, the first has written
    [state.user], the second has been released. *)
Definition busy_world : Ctx.ContextPool * @Ctx.Store platform :=
  Ctx.steps [@Ctx.OpAcquire platform quiet_app get_users 0%nat;
             @Ctx.OpAcquire platform quiet_app post_login 1%nat;
             Ctx.OpStateWrite 0%nat "user" (VStr "alice");
             Ctx.OpRelease 1%nat]
            (Ctx.new_pool 1, empty_store).

(** One request in flight on a pool of four. *)
Definition one_in_flight : addr * Ctx.ContextPool * @Ctx.Store platform :=
  Ctx.acquire quiet_app get_users 0%nat (Ctx.new_pool 4) empty_store.

(** A second request in flight beside the first. *)
Definition two_in_flight : addr * Ctx.ContextPool * @Ctx.Store platform :=
  Ctx.acquire quiet_app post_login 1%nat one_in_flight.1.2 one_in_flight.2.

End Demo.

(* ===================================================================== *)
(** * [Router.routes] (src/router.ts and its nested-router variant)       *)
(* ===================================================================== *)

Module Router.

Import Ctx.

Section WithPlatform.

Context `{Platform}.

(** A middleware runs against the context it is given and the store. *)
Definition RState : Type := Context * Store.
Definition Awaitable : Type := RState -> Outcome * RState.

(** [(ctx, next) => Promise<void>], [ctx] being the context of the state. *)
Definition Middleware : Type := Awaitable -> Awaitable.

Record Route := mkRoute {
  method : string;
  pattern : string;
  regex : RegExp;
  paramNames : list string;
  handler : Middleware
}.

Definition set_params (o : option addr) (c : Context) : Context :=
  mkContext (app c) (req c) (res c) (request c) (response c) (state c)
            (_inUse c) (log c) (requestId c) (startTime c) o
            (_matchedRoute c) (request_params c) (router c) (matched c).

Definition set_request (q : Request.KoaXRequest) (c : Context) : Context :=
  mkContext (app c) (req c) (res c) q (response c) (state c)
            (_inUse c) (log c) (requestId c) (startTime c) (params c)
            (_matchedRoute c) (request_params c) (router c) (matched c).

Definition set_matchedRoute (r : option string) (c : Context) : Context :=
  mkContext (app c) (req c) (res c) (request c) (response c) (state c)
            (_inUse c) (log c) (requestId c) (startTime c) (params c)
            r (request_params c) (router c) (matched c).

Definition set_request_params (o : option addr) (c : Context) : Context :=
  mkContext (app c) (req c) (res c) (request c) (response c) (state c)
            (_inUse c) (log c) (requestId c) (startTime c) (params c)
            (_matchedRoute c) o (router c) (matched c).

Definition set_router (r : option addr) (c : Context) : Context :=
  mkContext (app c) (req c) (res c) (request c) (response c) (state c)
            (_inUse c) (log c) (requestId c) (startTime c) (params c)
            (_matchedRoute c) (request_params c) r (matched c).

Definition set_matched (m : option (list JsVal)) (c : Context) : Context :=
  mkContext (app c) (req c) (res c) (request c) (response c) (state c)
            (_inUse c) (log c) (requestId c) (startTime c) (params c)
            (_matchedRoute c) (request_params c) (router c) m.

(** [ctx.method], delegated to the request facade. *)
Definition ctx_method (s : RState) : string := Request.get_method (request s.1).

(** [ctx.path], delegated to the request facade, which caches it. *)
Definition ctx_path (s : RState) : string * RState :=
  let '(p, q) := Request.get_path (request s.1) in
  (p, (set_request q s.1, s.2)).

(** [match[i]]: [undefined] beyond the array and for a group that did not
    take part. *)
Definition group (m : list (option string)) (i : nat) : JsVal :=
  match m !! i with
  | Some (Some g) => VStr g
  | _ => VUndefined
  end.

(** [ctx.params[name] = v] for a [v] that is a string or [undefined],
    [ctx.params] being the object literal at [o].  [__proto__] is the
    accessor every object literal inherits from [Object.prototype]; its
    setter ignores a value that is neither an object nor [null], so that
    assignment creates no property.  Every other name becomes an own
    property of the object. *)
Definition param_write (o : addr) (name : string) (v : JsVal) (σ : Store) : Store :=
  if decide (name = "__proto__") then σ else obj_write o name v σ.

(** [paramNames.forEach((name, index) => { ctx.params[name] = match[index + 1] })],
    from [index] on, [ctx.params] being the object at [o]. *)
Fixpoint assign_params (o : addr) (m : list (option string)) (index : nat)
    (names : list string) (σ : Store) : Store :=
  match names with
  | [] => σ
  | name :: rest =>
      assign_params o m (S index) rest (param_write o name (group m (index + 1)) σ)
  end.

(** [ctx.params = {}] followed by the [forEach]. *)
Definition extract_params (names : list string) (m : list (option string))
    (s : RState) : RState :=
  let '(o, σ1) := alloc_obj s.2 in
  (set_params (Some o) s.1, assign_params o m 0 names σ1).

(** The [for (const route of this.routeList)] loop of [routes()], with
    [return next()] after it. *)
Fixpoint routes_loop (routeList : list Route) (next : Awaitable) (s : RState)
    : Outcome * RState :=
  match routeList with
  | [] => next s
  | route :: more =>
      if decide (method route <> ctx_method s) then routes_loop more next s
      else
        let '(path, s1) := ctx_path s in
        match regex_match path (regex route) with
        | None => routes_loop more next s1
        | Some m =>
            let s2 :=
              if decide (0 < length (paramNames route))%nat
              then extract_params (paramNames route) m s1
              else s1 in
            handler route next s2
        end
  end.

(** [Router.routes()] of src/router.ts. *)
Definition routes (routeList : list Route) : Middleware :=
  fun next s => routes_loop routeList next (set_params None s.1, s.2).

(** The loop of the variant with nested routers: it also records the
    matched pattern and copies [ctx.params] to [ctx.request.params]. *)
Fixpoint nested_loop (routeList : list Route) (next : Awaitable) (s : RState)
    : Outcome * RState :=
  match routeList with
  | [] => next s
  | route :: more =>
      if decide (method route <> ctx_method s) then nested_loop more next s
      else
        let '(path, s1) := ctx_path s in
        match regex_match path (regex route) with
        | None => nested_loop more next s1
        | Some m =>
            let s2 := (set_matchedRoute (Some (pattern route)) s1.1, s1.2) in
            let s3 :=
              if decide (0 < length (paramNames route))%nat
              then extract_params (paramNames route) m s2
              else s2 in
            let s4 := (set_request_params (params s3.1) s3.1, s3.2) in
            handler route next s4
        end
  end.

(** [Router.routes()] of the variant with nested routers, [self] being the
    router object. *)
Definition nested_routes (self : addr) (routeList : list Route) : Middleware :=
  fun next s =>
    let c1 := set_router (Some self) (set_params None s.1) in
    let c2 := match matched c1 with
              | None => set_matched (Some []) c1
              | Some _ => c1
              end in
    nested_loop routeList next (c2, s.2).

(** Whether a route takes a request with this method and path, and with
    which match array. *)
Definition matching (meth path : string) (r : Route) : option (list (option string)) :=
  if decide (method r = meth) then regex_match path (regex r) else None.

(** The object the [forEach] builds from [obj]. *)
Fixpoint params_obj (m : list (option string)) (index : nat) (names : list string)
    (obj : PlainObj) : PlainObj :=
  match names with
  | [] => obj
  | name :: rest =>
      params_obj m (S index) rest
        (if decide (name = "__proto__") then obj
         else <[name := group m (index + 1)]> obj)
  end.

(** The state the handler of a matched route starts from. *)
Definition prepared (r : Route) (m : list (option string)) (s : RState) : RState :=
  if decide (0 < length (paramNames r))%nat
  then extract_params (paramNames r) m s
  else s.

(** The state the handler of a matched route starts from in the variant
    with nested routers. *)
Definition nested_prepared (r : Route) (m : list (option string)) (s : RState)
    : RState :=
  let s3 := prepared r m (set_matchedRoute (Some (pattern r)) s.1, s.2) in
  (set_request_params (params s3.1) s3.1, s3.2).

(** What the context's [params] must look like when control reaches the
    handler of route [r], matched with the array [m], from a store that
    held the objects [before]: undefined when the route has no parameter
    names, else a reference to one new object, beyond [before], whose keys
    are exactly the parameter names other than [__proto__]; the name at
    (its last) position [k] is bound to [m[k + 1]], a string when that
    group took part in the match and [undefined] when it did not or the
    array is too short. *)
Definition params_bound (r : Route) (m : list (option string))
    (before : list PlainObj) (s' : RState) : Prop :=
  (paramNames r = [] -> params s'.1 = None /\ objs s'.2 = before)
  /\ (paramNames r <> [] ->
      exists obj : PlainObj,
        params s'.1 = Some (length before)
        /\ objs s'.2 = before ++ [obj]
        /\ dom obj = list_to_set (paramNames r) ∖ {["__proto__"]}
        /\ forall k name,
             paramNames r !! k = Some name ->
             name <> "__proto__" ->
             name ∉ drop (S k) (paramNames r) ->
             obj !! name = Some (match m !! S k with
                                 | Some (Some segment) => VStr segment
                                 | Some None | None => VUndefined
                                 end)).

End WithPlatform.

End Router.

(** Two routes and a request to run the router on. *)
Module DemoRouter.

Definition done_handler : @Router.Middleware Demo.platform :=
  fun _ s => (Completed, s).

Definition login_route : @Router.Route Demo.platform :=
  @Router.mkRoute Demo.platform "POST" "/login" "/login" [] done_handler.

Definition user_route : @Router.Route Demo.platform :=
  @Router.mkRoute Demo.platform "GET" "/users/:id" "/users/" ["id"] done_handler.

Definition get_user_42 : Http.IncomingMessage :=
  Http.mkIncomingMessage (Some "GET") (Some "/users/42") ∅ None.

(** A context bound to [GET /users/42] whose [params] still refer to the
    object of an earlier request. *)
Definition stale_state : @Router.RState Demo.platform :=
  let '(c, σ) := @Ctx.new_Context Demo.platform Demo.quiet_app get_user_42 0%nat
                   Demo.empty_store in
  (Router.set_params (Some 0%nat) c, σ).

(** A route whose parameter is called [__proto__], and a request it
    takes. *)
Definition proto_route : @Router.Route Demo.platform :=
  @Router.mkRoute Demo.platform "GET" "/a/:__proto__" "/a/" ["__proto__"] done_handler.

Definition get_a_x : @Router.RState Demo.platform :=
  @Ctx.new_Context Demo.platform Demo.quiet_app
    (Http.mkIncomingMessage (Some "GET") (Some "/a/x") ∅ None) 0%nat
    Demo.empty_store.

(** [GET /users/42] served on a pooled context: the context is acquired,
    the router runs on it (the instance in the store is the object the
    router worked on) and it is released. *)
Definition first_served : Ctx.ContextPool * @Ctx.Store Demo.platform :=
  let '(x, p, σ) := Ctx.acquire Demo.quiet_app get_user_42 0%nat
                      (Ctx.new_pool 4) Demo.empty_store in
  match Ctx.ctxs σ !! x with
  | Some c =>
      let '(_, (c', σ')) :=
        Router.routes [login_route; user_route] (fun s => (Completed, s)) (c, σ) in
      Ctx.release x p
        (Ctx.mkStore (Ctx.objs σ') (<[x := c']> (Ctx.ctxs σ')) (Ctx.env σ'))
  | None => (p, σ)
  end.

(** [POST /login] arrives next and is given a context by the pool. *)
Definition second_acquired : addr * Ctx.ContextPool * @Ctx.Store Demo.platform :=
  Ctx.acquire Demo.quiet_app Demo.post_login 1%nat first_served.1 first_served.2.

End DemoRouter.

(* ===================================================================== *)
(** * More of the host language: strings and exceptions                  *)
(* ===================================================================== *)

Module JsString.

(** Exceptions of the host itself. *)
Inductive Exn :=
| TypeError
| SyntaxError
| PlainError (message : string).

(** A call that returns a value or throws. *)
Inductive Completion (A : Type) :=
| Returns (a : A)
| Throws (e : Exn).

Arguments Returns {A} a.
Arguments Throws {A} e.

(** [s.includes(sub)] *)
Fixpoint includes (s sub : string) : bool :=
  if String.prefix sub s then true
  else match s with
       | EmptyString => false
       | String _ s' => includes s' sub
       end.

(** [sub] occurs in [s]. *)
Definition substring_of (sub s : string) : Prop :=
  exists pre post, s = pre +:+ sub +:+ post.

(** [s.split(sep)] for a separator of one character; the result is never
    empty. *)
Fixpoint split (sep : Ascii.ascii) (s : string) : list string :=
  match s with
  | EmptyString => [EmptyString]
  | String c s' =>
      if decide (c = sep) then EmptyString :: split sep s'
      else match split sep s' with
           | piece :: pieces => String c piece :: pieces
           | [] => [String c EmptyString]
           end
  end.

(** [pieces.join(sep)] *)
Definition join (sep : string) (pieces : list string) : string :=
  String.concat sep pieces.

(** Whether a character occurs in a string. *)
Fixpoint has_char (c : Ascii.ascii) (s : string) : bool :=
  match s with
  | EmptyString => false
  | String d s' => if decide (d = c) then true else has_char c s'
  end.

(** How often a character occurs in a string. *)
Fixpoint count_char (c : Ascii.ascii) (s : string) : nat :=
  match s with
  | EmptyString => O
  | String d s' => if decide (d = c) then S (count_char c s') else count_char c s'
  end.

Definition in_range (lo hi : nat) (c : Ascii.ascii) : bool :=
  (lo <=? Ascii.nat_of_ascii c)%nat && (Ascii.nat_of_ascii c <=? hi)%nat.

(** [[A-Z]], [[a-z]] and [[0-9]] *)
Definition is_upper (c : Ascii.ascii) : bool := in_range 65 90 c.
Definition is_lower (c : Ascii.ascii) : bool := in_range 97 122 c.
Definition is_digit (c : Ascii.ascii) : bool := in_range 48 57 c.

Definition lower_char (c : Ascii.ascii) : Ascii.ascii :=
  if is_upper c then Ascii.ascii_of_nat (Ascii.nat_of_ascii c + 32) else c.

Definition upper_char (c : Ascii.ascii) : Ascii.ascii :=
  if is_lower c then Ascii.ascii_of_nat (Ascii.nat_of_ascii c - 32) else c.

Fixpoint map_chars (f : Ascii.ascii -> Ascii.ascii) (s : string) : string :=
  match s with
  | EmptyString => EmptyString
  | String c s' => String (f c) (map_chars f s')
  end.

(** [s.toLowerCase()] and [s.toUpperCase()] on ASCII text, which is what
    header names and HTTP methods are. *)
Definition toLowerCase (s : string) : string := map_chars lower_char s.
Definition toUpperCase (s : string) : string := map_chars upper_char s.

End JsString.

(* ===================================================================== *)
(** * The rest of [KoaXRequest] (src/request.ts)                          *)
(* ===================================================================== *)

Module RequestApi.

Import Http Request JsString.
Import Stdlib.Strings.Ascii.

(** A value of a parsed query string: [string | string[] | undefined]. *)
Inductive QueryVal :=
| QStr (s : string)
| QArr (l : list string)
| QUndef.

(** More built-ins of the host that [KoaXRequest] calls. *)
Class WebLib := {
  (** [s.trim()] *)
  String_trim : string -> string;
  (** [encodeURIComponent(s)] *)
  encodeURIComponent : string -> string;
  (** [Object.entries(url.parse(u, true).query)] *)
  url_query : string -> list (string * QueryVal);
  (** [p.path] after [const p = url.parse(u); p.pathname = val] *)
  url_path_with_pathname : string -> string -> option string
}.

Section WithPlatform.

Context `{Platform} `{WebLib}.

Definition with_url (u : option string) (r : IncomingMessage) : IncomingMessage :=
  mkIncomingMessage (method r) u (headers r) (socket r).

Definition with_method (m : option string) (r : IncomingMessage) : IncomingMessage :=
  mkIncomingMessage m (url r) (headers r) (socket r).

(** [set url(val)]: writes through to the message and drops the caches. *)
Definition set_url (val : string) (q : KoaXRequest) : KoaXRequest :=
  mkKoaXRequest (with_url (Some val) (req q)) None None None.

(** [set method(val)] *)
Definition set_method (val : string) (q : KoaXRequest) : KoaXRequest :=
  mkKoaXRequest (with_method (Some val) (req q)) (_url q) (_path q) (_query q).

(** [set path(val)] *)
Definition set_path (val : string) (q : KoaXRequest) : KoaXRequest :=
  set_url (str_or (url_path_with_pathname (get_url q) val) "/") q.

(** What the loop of [get query()] makes of the parsed entries. *)
Definition collect_query (entries : list (string * QueryVal)) : gmap string string :=
  fold_left
    (fun acc kv =>
       match kv.2 with
       | QStr s => <[kv.1 := s]> acc
       | QArr l => <[kv.1 := str_or (head l) ""]> acc
       | QUndef => acc
       end)
    entries ∅.

(** [get query()]: the cached object, else the one collected from the
    parsed URL, which it caches. *)
Definition get_query (q : KoaXRequest) : gmap string string * KoaXRequest :=
  match _query q with
  | Some m => (m, q)
  | None =>
      let m := collect_query (url_query (get_url q)) in
      (m, mkKoaXRequest (req q) (_url q) (_path q) (Some m))
  end.

(** [`${encodeURIComponent(key)}=${encodeURIComponent(obj[key])}`] for each
    key, joined by ["&"]; [obj] is given by its entries in key order. *)
Definition query_string (obj : list (string * string)) : string :=
  join "&" (map (fun kv => encodeURIComponent kv.1 +:+ "=" +:+ encodeURIComponent kv.2) obj).

(** [set query(obj)]: the assignment to [_query] is undone by the [url]
    setter; a missing path name is concatenated as ["null"]. *)
Definition set_query (obj : list (string * string)) (q : KoaXRequest) : KoaXRequest :=
  let q1 := mkKoaXRequest (req q) (_url q) (_path q) (Some (list_to_map obj)) in
  let queryString := query_string obj in
  set_url (default "null" (url_pathname (get_url q1))
           +:+ (if decide (queryString = "") then "" else "?" +:+ queryString))
          q1.

(** [get headers()] *)
Definition get_headers (q : KoaXRequest) : gmap string HeaderVal := headers (req q).

(** [get(field)] *)
Definition get (field : string) (q : KoaXRequest) : option HeaderVal :=
  headers (req q) !! toLowerCase field.

(** [get originalUrl()] *)
Definition originalUrl (q : KoaXRequest) : string := str_or (url (req q)) "/".

(** [get protocol()] *)
Definition protocol (q : KoaXRequest) : string :=
  match socket (req q) with
  | Some s => if encrypted s then "https" else "http"
  | None => "http"
  end.

(** [get host()] *)
Definition host (q : KoaXRequest) : string :=
  match get "host" q with
  | Some (HArr l) => str_or (head l) ""
  | Some (HStr s) => str_or (Some s) ""
  | None => ""
  end.

(** [get hostname()]: [host.split(':')[0]] *)
Definition hostname (q : KoaXRequest) : string :=
  default "" (head (split ":"%char (host q))).

(** [get origin()] and [get href()] *)
Definition origin (q : KoaXRequest) : string := protocol q +:+ "://" +:+ host q.
Definition href (q : KoaXRequest) : string := origin q +:+ get_url q.

(** [get secure()] *)
Definition secure (q : KoaXRequest) : bool := bool_decide (protocol q = "https").

(** [get ip()]: reading [remoteAddress] of a missing socket throws. *)
Definition ip (q : KoaXRequest) : Completion string :=
  match socket (req q) with
  | Some s => Returns (str_or (remoteAddress s) "")
  | None => Throws TypeError
  end.

(** [get ips()]: an array header is truthy even when empty, and then
    [undefined.split] throws. *)
Definition ips (q : KoaXRequest) : Completion (list string) :=
  match get "x-forwarded-for" q with
  | None => Returns []
  | Some (HStr s) =>
      if decide (s = "") then Returns []
      else Returns (map String_trim (split ","%char s))
  | Some (HArr l) =>
      match head l with
      | Some s => Returns (map String_trim (split ","%char s))
      | None => Throws TypeError
      end
  end.

(** The operations on a request facade. *)
Inductive Op :=
| OSetUrl (val : string)
| OSetMethod (val : string)
| OSetPath (val : string)
| OSetQuery (obj : list (string * string))
| OGetPath
| OGetQuery
| OReset (r : IncomingMessage).

Definition step (op : Op) (q : KoaXRequest) : KoaXRequest :=
  match op with
  | OSetUrl v => set_url v q
  | OSetMethod v => set_method v q
  | OSetPath v => set_path v q
  | OSetQuery obj => set_query obj q
  | OGetPath => (get_path q).2
  | OGetQuery => (get_query q).2
  | OReset r => reset q r
  end.

Definition steps (ops : list Op) (q : KoaXRequest) : KoaXRequest :=
  fold_left (fun q op => step op q) ops q.

(** The caches hold what a fresh computation would give. *)
Definition coherent (q : KoaXRequest) : Prop :=
  (forall p, _path q = Some p -> p = str_or (url_pathname (get_url q)) "/")
  /\ (forall m, _query q = Some m -> m = collect_query (url_query (get_url q))).

End WithPlatform.

End RequestApi.

(** Stand-ins for the built-ins, to run examples on: trimming removes the
    ASCII white space at both ends, the encoder is the identity, a URL has
    no query entries and a path name written into a parsed URL becomes its
    path. *)
Module DemoWeb.

Fixpoint trim_start (s : string) : string :=
  match s with
  | String c rest => if Ascii.is_space c then trim_start rest else s
  | EmptyString => EmptyString
  end.

Definition trim (s : string) : string :=
  String.rev (trim_start (String.rev (trim_start s))).

Definition weblib : RequestApi.WebLib := {|
  RequestApi.String_trim := trim;
  RequestApi.encodeURIComponent := fun s => s;
  RequestApi.url_query := fun _ => [];
  RequestApi.url_path_with_pathname := fun _ val => Some val
|}.

(** A request through a proxy to a host with a port. *)
Definition proxied : Http.IncomingMessage :=
  Http.mkIncomingMessage (Some "GET") (Some "/users?page=2")
    {[ "host" := Http.HStr "example.com:8080";
       "x-forwarded-for" := Http.HStr "10.0.0.1, 10.0.0.2" ]}
    (Some (Http.mkSocket true (Some "10.0.0.2") None)).

End DemoWeb.

(* ===================================================================== *)
(** * Invariants of the context pool                                      *)
(* ===================================================================== *)

Module PoolInv.

Import Ctx.

Section WithPlatform.

Context `{Platform}.

(** The free-list names existing contexts, each once, none of them in
    use. *)
Definition pool_safe (p : ContextPool) (σ : Store) : Prop :=
  pool_wf p σ
  /\ NoDup (pool p)
  /\ Forall (fun x => ~ in_use σ x) (pool p).

(** A store in which nothing has been constructed yet. *)
Definition empty_store (e : Env) : Store := mkStore [] [] e.

End WithPlatform.

End PoolInv.

(* ===================================================================== *)
(** * Content negotiation helpers of [Context] (src/context.ts)           *)
(* ===================================================================== *)

Module ContextApi.

Import Ctx JsString.

(** What [ctx.get(field)] returns when the header is set:
    [string | number | string[]]. *)
Inductive FieldVal :=
| FStr (s : string)
| FNum (n : Z)
| FArr (l : list string).

(** [KoaXResponse.get(field)], whose source is not part of the tree. *)
Class ResponseLib `{Platform} := {
  response_get : KoaXResponse -> string -> option FieldVal
}.

(** [string | false | null], the result type of [is]. *)
Inductive IsResult :=
| IsType (t : string)
| IsFalse
| IsNull.

(** [string | false], the result type of the [accepts] family. *)
Inductive AcceptResult :=
| Accepted (t : string)
| NotAccepted.

(** [!v] *)
Definition falsy (v : option FieldVal) : bool :=
  match v with
  | None => true
  | Some (FStr s) => bool_decide (s = "")
  | Some (FNum n) => bool_decide (n = 0)
  | Some (FArr _) => false
  end.

(** [Array.isArray(v) ? v[0] : String(v)]; [undefined] for an empty
    array. *)
Definition first_or_string (v : FieldVal) : option string :=
  match v with
  | FStr s => Some s
  | FNum n => Some (pretty n)
  | FArr l => head l
  end.

(** [for (const t of types) { if (s.includes(t)) return t; }] *)
Fixpoint first_included (s : string) (types : list string) : option string :=
  match types with
  | [] => None
  | t :: rest => if includes s t then Some t else first_included s rest
  end.

(** [for (const t of types) { if (s.includes(t) || s.includes('*/*')) return t; }] *)
Fixpoint first_accepted (s : string) (types : list string) : option string :=
  match types with
  | [] => None
  | t :: rest =>
      if includes s t || includes s "*/*" then Some t else first_accepted s rest
  end.

(** [types[0] || false] *)
Definition first_or_false (types : list string) : AcceptResult :=
  match head types with
  | Some t => if decide (t = "") then NotAccepted else Accepted t
  | None => NotAccepted
  end.

Definition accept_result (o : option string) : AcceptResult :=
  match o with
  | Some t => Accepted t
  | None => NotAccepted
  end.

Section WithPlatform.

Context `{ResponseLib}.

(** [Context.get(field)]: the header of the response. *)
Definition get (field : string) (c : Context) : option FieldVal :=
  response_get (response c) field.

(** [Context.is(...types)] ([is] is a keyword here).  On an empty array
    header the value tested is [undefined], and the first round of the loop
    throws. *)
Definition is_ (types : list string) (c : Context) : Completion IsResult :=
  let contentType := get "content-type" c in
  if falsy contentType then Returns IsNull
  else
    match contentType ≫= first_or_string with
    | Some ct =>
        Returns (match first_included ct types with
                 | Some t => IsType t
                 | None => IsFalse
                 end)
    | None =>
        match types with
        | [] => Returns IsFalse
        | _ :: _ => Throws TypeError
        end
    end.

(** [Context.accepts(...types)] *)
Definition accepts (types : list string) (c : Context) : Completion AcceptResult :=
  let accept := get "accept" c in
  if falsy accept then Returns (first_or_false types)
  else
    match accept ≫= first_or_string with
    | Some acceptStr => Returns (accept_result (first_accepted acceptStr types))
    | None =>
        match types with
        | [] => Returns NotAccepted
        | _ :: _ => Throws TypeError
        end
    end.

(** The body that [acceptsEncodings], [acceptsCharsets] and
    [acceptsLanguages] share, up to the header they read. *)
Definition accepts_by (field : string) (candidates : list string) (c : Context)
    : Completion AcceptResult :=
  let accept := get field c in
  if falsy accept then Returns (first_or_false candidates)
  else
    match accept ≫= first_or_string with
    | Some acceptStr => Returns (accept_result (first_included acceptStr candidates))
    | None =>
        match candidates with
        | [] => Returns NotAccepted
        | _ :: _ => Throws TypeError
        end
    end.

(** [Context.acceptsEncodings(...encodings)] *)
Definition acceptsEncodings (encodings : list string) (c : Context)
    : Completion AcceptResult :=
  accepts_by "accept-encoding" encodings c.

(** [Context.acceptsCharsets(...charsets)] *)
Definition acceptsCharsets (charsets : list string) (c : Context)
    : Completion AcceptResult :=
  accepts_by "accept-charset" charsets c.

(** [Context.acceptsLanguages(...languages)] *)
Definition acceptsLanguages (languages : list string) (c : Context)
    : Completion AcceptResult :=
  accepts_by "accept-language" languages c.

(** [t] is the first of [types] that occurs in [s]. *)
Definition first_occurring (t : string) (types : list string) (s : string) : Prop :=
  exists before after,
    types = before ++ t :: after
    /\ substring_of t s
    /\ Forall (fun u => ~ substring_of u s) before.

(** What a member of the [accepts] family that reads [field] returns for
    [candidates]. *)
Definition negotiated (field : string) (candidates : list string) (c : Context)
    (result : Completion AcceptResult) : Prop :=
  (falsy (get field c) = true -> result = Returns (first_or_false candidates))
  /\ (forall s, falsy (get field c) = false ->
        get field c ≫= first_or_string = Some s ->
        (forall t, result = Returns (Accepted t) <-> first_occurring t candidates s)
        /\ (result = Returns NotAccepted <->
            Forall (fun u => ~ substring_of u s) candidates))
  /\ (get field c = Some (FArr []) -> candidates <> [] -> result = Throws TypeError).

End WithPlatform.

End ContextApi.

(** A response facade that is the list of its headers, to run examples
    on. *)
Module DemoResponse.

Definition platform : Platform := {|
  ServerResponse := list (string * ContextApi.FieldVal);
  KoaXResponse := list (string * ContextApi.FieldVal);
  response_new := fun r => r;
  response_reset := fun _ r => r;
  Logger := bool;
  logger_enabled := fun l => l;
  logger_child := fun l _ _ _ => l;
  Env := Z;
  generateRequestId := fun e => ("req-" +:+ pretty e, e + 1);
  Date_now := fun e => (e, e + 1);
  url_pathname := fun u => Some u;
  RegExp := string;
  regex_match := fun path re => if String.eqb path re then Some [Some path] else None
|}.

Definition lib : @ContextApi.ResponseLib platform := {|
  ContextApi.response_get := fun (r : @KoaXResponse platform) field =>
    (list_to_map r : gmap string ContextApi.FieldVal) !! field
|}.

(** A context whose response carries the given headers. *)
Definition with_headers (hs : list (string * ContextApi.FieldVal))
    : @Ctx.Context platform :=
  (@Ctx.new_Context platform (@Ctx.mkApp platform None)
     (Http.mkIncomingMessage (Some "GET") (Some "/") ∅ None) hs
     (@Ctx.mkStore platform [] [] 0)).1.

End DemoResponse.

(* ===================================================================== *)
(** * Building a router (src/router.ts and its nested-router variant)     *)
(* ===================================================================== *)

Module RouterApi.

Import Ctx Router JsString.
Import Stdlib.Strings.Ascii.

(** [new RegExp(source)]; [None] when the source does not compile and the
    constructor throws a [SyntaxError]. *)
Class RegExpLib `{Platform} := {
  RegExp_new : string -> option RegExp
}.

(** [[a-zA-Z_]] and [[a-zA-Z0-9_]] *)
Definition is_name_start (c : Ascii.ascii) : bool :=
  is_lower c || is_upper c || bool_decide (c = "_"%char).

Definition is_name_char (c : Ascii.ascii) : bool :=
  is_name_start c || is_digit c.

Definition starts_name (s : string) : bool :=
  match s with
  | String c _ => is_name_start c
  | EmptyString => false
  end.

(** The text a parameter is replaced by. *)
Definition group_source : string := "([^/]+)".

(** The global [path.replace] of [pathToRegex]: every colon followed by a
    name (a letter or underscore, then letters, digits and underscores, as
    many as there are) is replaced by [group_source] and the name is
    pushed onto [paramNames]; everything else is copied.  The path is read
    from left to right: [name] is the parameter name being read, if one
    is; the result is the replaced text and the names pushed. *)
Fixpoint replace_params (path : string) (name : option string) : string * list string :=
  match path with
  | EmptyString =>
      match name with
      | Some n => (group_source, [n])
      | None => (EmptyString, [])
      end
  | String c rest =>
      let outside :=
        if bool_decide (c = ":"%char) && starts_name rest
        then replace_params rest (Some EmptyString)
        else let '(out, names) := replace_params rest None in (String c out, names) in
      match name with
      | Some n =>
          if is_name_char c then replace_params rest (Some (n +:+ String c EmptyString))
          else let '(out, names) := outside in (group_source +:+ out, n :: names)
      | None => outside
      end
  end.

(** The source [pathToRegex] hands to [new RegExp]: the replaced text
    between the two anchors. *)
Definition regex_source (path : string) : string :=
  "^" +:+ (replace_params path None).1 +:+ "$".

(** Whether every character of a string passes a test. *)
Fixpoint all_chars (f : Ascii.ascii -> bool) (s : string) : bool :=
  match s with
  | EmptyString => true
  | String c rest => f c && all_chars f rest
  end.

(** A parameter name: a letter or underscore, then letters, digits and
    underscores. *)
Definition identifier (n : string) : Prop :=
  starts_name n = true /\ all_chars is_name_char n = true.

(** A router is its [routeList]; a call that changes it leaves a list and
    may have thrown. *)
Definition Changed `{Platform} : Type := list Route * option Exn.

(** The seven methods of [all] and of [this.methods]. *)
Definition all_methods : list string :=
  ["GET"; "POST"; "PUT"; "DELETE"; "PATCH"; "HEAD"; "OPTIONS"].

(** [prefix.replace(/\/$/, '')] *)
Fixpoint strip_trailing_slash (s : string) : string :=
  match s with
  | EmptyString => EmptyString
  | String c rest =>
      match rest with
      | EmptyString => if decide (c = "/"%char) then EmptyString else s
      | String _ _ => String c (strip_trailing_slash rest)
      end
  end.

Section WithPlatform.

Context `{RegExpLib}.

(** [pathToRegex(path)] *)
Definition pathToRegex (path : string) : Completion (RegExp * list string) :=
  let '(regexPattern, paramNames) := replace_params path None in
  match RegExp_new ("^" +:+ regexPattern +:+ "$") with
  | Some regex => Returns (regex, paramNames)
  | None => Throws SyntaxError
  end.

(** [register(method, path, handler)] *)
Definition register (method path : string) (handler : Middleware)
    (routeList : list Route) : Changed :=
  match pathToRegex path with
  | Returns (regex, paramNames) =>
      (array_push routeList
         (mkRoute (toUpperCase method) path regex paramNames handler), None)
  | Throws e => (routeList, Some e)
  end.

(** [get], [post], [put], [delete] and [patch] *)
Definition get (path : string) (handler : Middleware) (routeList : list Route) : Changed :=
  register "GET" path handler routeList.
Definition post (path : string) (handler : Middleware) (routeList : list Route) : Changed :=
  register "POST" path handler routeList.
Definition put (path : string) (handler : Middleware) (routeList : list Route) : Changed :=
  register "PUT" path handler routeList.
Definition delete (path : string) (handler : Middleware) (routeList : list Route) : Changed :=
  register "DELETE" path handler routeList.
Definition patch (path : string) (handler : Middleware) (routeList : list Route) : Changed :=
  register "PATCH" path handler routeList.

(** [methods.forEach(method => this.register(method, path, handler))]: a
    throw ends the loop. *)
Fixpoint register_each (methods : list string) (path : string) (handler : Middleware)
    (routeList : list Route) : Changed :=
  match methods with
  | [] => (routeList, None)
  | m :: rest =>
      match register m path handler routeList with
      | (routeList', None) => register_each rest path handler routeList'
      | (routeList', Some e) => (routeList', Some e)
      end
  end.

(** [all(path, handler)] *)
Definition all (path : string) (handler : Middleware) (routeList : list Route) : Changed :=
  register_each all_methods path handler routeList.

(** [getRoutes()] *)
Definition getRoutes (routeList : list Route) : list (string * string) :=
  map (fun r => (method r, pattern r)) routeList.

(** [for (const route of routes) target.register(route.method,
    prefix + route.pattern, route.handler)] *)
Fixpoint register_prefixed (prefix : string) (routes : list Route)
    (target : list Route) : Changed :=
  match routes with
  | [] => (target, None)
  | route :: rest =>
      match register (method route) (prefix +:+ pattern route) (handler route) target with
      | (target', None) => register_prefixed prefix rest target'
      | (target', Some e) => (target', Some e)
      end
  end.

(** [prefix(prefix)]: the route list of the new router; a throw loses it. *)
Definition prefix (prefix : string) (routeList : list Route) : Completion (list Route) :=
  match register_prefixed (strip_trailing_slash prefix) routeList [] with
  | (newList, None) => Returns newList
  | (_, Some e) => Throws e
  end.

(** What [use] may be given as middleware: a function without a [router]
    property, the [routes()] of a router of this kind (its [router] has a
    [routeList]), the middleware of a foreign router (its [router] has a
    [stack] and no [routeList]), or a function whose [router] has
    neither. *)
Inductive Mounted :=
| Plain (handler : Middleware)
| Nested (handler : Middleware) (childRouteList : list Route)
| Foreign (handler : Middleware)
| Unknown (handler : Middleware).

Definition handler_of (m : Mounted) : Middleware :=
  match m with
  | Plain h | Nested h _ | Foreign h | Unknown h => h
  end.

(** The arguments of [use]: [use(middleware)] or [use(path, middleware?)]. *)
Inductive UseArgs :=
| UseMiddleware (m : Mounted)
| UsePath (path : string) (m : option Mounted).

(** [prefix ? prefix + s : s] *)
Definition prefixed (prefix s : string) : string :=
  if decide (prefix = "") then s else prefix +:+ s.

(** [for (const route of childRouter.routeList) this.register(route.method,
    prefix ? prefix + route.pattern : route.pattern, route.handler)] *)
Fixpoint register_nested (prefix : string) (routes : list Route)
    (target : list Route) : Changed :=
  match routes with
  | [] => (target, None)
  | route :: rest =>
      match register (method route) (prefixed prefix (pattern route)) (handler route)
                     target with
      | (target', None) => register_nested prefix rest target'
      | (target', Some e) => (target', Some e)
      end
  end.

(** [use(path, middleware)] of the variant with nested routers. *)
Definition use (args : UseArgs) (routeList : list Route) : Changed :=
  let given :=
    match args with
    | UseMiddleware m => Returns (EmptyString, m)
    | UsePath path (Some m) => Returns (path, m)
    | UsePath path None =>
        Throws (PlainError "Middleware is required when path is provided")
    end in
  match given with
  | Throws e => (routeList, Some e)
  | Returns (prefix, m) =>
      match m with
      | Nested _ childRouteList => register_nested prefix childRouteList routeList
      | Foreign handler | Plain handler =>
          register_each all_methods (prefixed prefix "(.*)") handler routeList
      | Unknown _ => (routeList, None)
      end
  end.

(** A route as [register] makes it: the method in upper case, the names
    and the expression those of the pattern. *)
Definition well_formed (r : Route) : Prop :=
  method r = toUpperCase (method r)
  /\ paramNames r = (replace_params (pattern r) None).2
  /\ RegExp_new ("^" +:+ (replace_params (pattern r) None).1 +:+ "$") = Some (regex r).

(** What building a router calls. *)
Inductive Build :=
| BRegister (method path : string) (handler : Middleware)
| BGet (path : string) (handler : Middleware)
| BPost (path : string) (handler : Middleware)
| BPut (path : string) (handler : Middleware)
| BDelete (path : string) (handler : Middleware)
| BPatch (path : string) (handler : Middleware)
| BAll (path : string) (handler : Middleware)
| BUse (args : UseArgs)
| BPrefix (prefix : string).

(** One call on a router; a throwing [prefix] returns no router and the
    one it was called on stays. *)
Definition build (b : Build) (routeList : list Route) : list Route :=
  match b with
  | BRegister m p h => (register m p h routeList).1
  | BGet p h => (get p h routeList).1
  | BPost p h => (post p h routeList).1
  | BPut p h => (put p h routeList).1
  | BDelete p h => (delete p h routeList).1
  | BPatch p h => (patch p h routeList).1
  | BAll p h => (all p h routeList).1
  | BUse args => (use args routeList).1
  | BPrefix p =>
      match prefix p routeList with
      | Returns newList => newList
      | Throws _ => routeList
      end
  end.

Definition builds (bs : list Build) (routeList : list Route) : list Route :=
  fold_left (fun rl b => build b rl) bs routeList.

End WithPlatform.

End RouterApi.

(** A regular-expression engine to run examples on: a source is its own
    expression unless it holds ["(?"], which does not compile. *)
Module DemoRegExp.

Definition lib : @RouterApi.RegExpLib Demo.platform := {|
  RouterApi.RegExp_new := fun source =>
    if JsString.includes source "(?" then None
    else Some (source : @RegExp Demo.platform)
|}.

End DemoRegExp.

(* ===================================================================== *)
(** * [Router.allowedMethods] (the variant with nested routers)           *)
(* ===================================================================== *)

Module AllowedMethods.

Import Ctx Router JsString RouterApi.

(** The part of [KoaXResponse] that [ctx.status], [ctx.set] and [ctx.body]
    delegate to; its source is not part of the tree. *)
Class ResponseWriter `{Platform} := {
  (** [get status()] *)
  response_status : KoaXResponse -> Z;
  (** [set status(code)] *)
  response_set_status : Z -> KoaXResponse -> KoaXResponse;
  (** [set(field, val)] *)
  response_set : string -> string -> KoaXResponse -> KoaXResponse;
  (** [set body(val)], for a string *)
  response_set_body : string -> KoaXResponse -> KoaXResponse
}.

Section WithPlatform.

Context `{ResponseWriter}.

Definition set_response (resp : KoaXResponse) (c : Context) : Context :=
  mkContext (app c) (req c) (res c) (request c) resp (state c)
            (_inUse c) (log c) (requestId c) (startTime c) (params c)
            (_matchedRoute c) (request_params c) (router c) (matched c).

(** [ctx.status] *)
Definition ctx_status (s : RState) : Z := response_status (response s.1).

(** [ctx.status = code], [ctx.set(field, val)] and [ctx.body = val] *)
Definition ctx_set_status (code : Z) (s : RState) : RState :=
  (set_response (response_set_status code (response s.1)) s.1, s.2).

Definition ctx_set (field val : string) (s : RState) : RState :=
  (set_response (response_set field val (response s.1)) s.1, s.2).

Definition ctx_set_body (val : string) (s : RState) : RState :=
  (set_response (response_set_body val (response s.1)) s.1, s.2).

(** [Set.prototype.add] on a set kept in insertion order. *)
Definition set_add (m : string) (set : list string) : list string :=
  if bool_decide (m ∈ set) then set else array_push set m.

(** [for (const route of router.routeList) if (ctx.path.match(route.regex))
    allowedMethods.add(route.method)] *)
Fixpoint collect_allowed (routeList : list Route) (set : list string) (s : RState)
    : list string * RState :=
  match routeList with
  | [] => (set, s)
  | route :: more =>
      let '(path, s1) := ctx_path s in
      match regex_match path (regex route) with
      | Some _ => collect_allowed more (set_add (method route) set) s1
      | None => collect_allowed more set s1
      end
  end.

(** [allowedMethods(options)], [throw] being [options.throw]. *)
Definition allowedMethods (throw : bool) (routeList : list Route) : Middleware :=
  fun next s =>
    match next s with
    | (Failed e, s1) => (Failed e, s1)
    | (Completed, s1) =>
        if bool_decide (ctx_status s1 <> 0 /\ ctx_status s1 <> 404) then (Completed, s1)
        else
          let '(allowed, s2) := collect_allowed routeList [] s1 in
          if bool_decide (length allowed = 0%nat) then (Completed, s2)
          else if bool_decide (ctx_method s2 = "OPTIONS") then
            (Completed,
             ctx_set_body "" (ctx_set "Allow" (join ", " allowed) (ctx_set_status 200 s2)))
          else if negb (bool_decide (ctx_method s2 ∈ all_methods)) then
            if throw then
              (Ctx.throw 501 (Some ("Method " +:+ ctx_method s2 +:+ " not implemented")), s2)
            else
              (Completed, ctx_set "Allow" (join ", " allowed) (ctx_set_status 501 s2))
          else if negb (bool_decide (ctx_method s2 ∈ allowed)) then
            if throw then
              (Ctx.throw 405 (Some ("Method " +:+ ctx_method s2 +:+ " not allowed")), s2)
            else
              (Completed, ctx_set "Allow" (join ", " allowed) (ctx_set_status 405 s2))
          else (Completed, s2)
    end.

(** A route whose expression matches the path, whatever its method. *)
Definition path_matches (path : string) (r : Route) : Prop :=
  is_Some (regex_match path (regex r)).

End WithPlatform.

End AllowedMethods.

(** A response that is its status code, to run examples on. *)
Module DemoStatus.

Definition writer : @AllowedMethods.ResponseWriter Demo.platform := {|
  AllowedMethods.response_status := fun (r : @KoaXResponse Demo.platform) => Z.of_nat r;
  AllowedMethods.response_set_status := fun code _ => Z.to_nat code;
  AllowedMethods.response_set := fun _ _ r => r;
  AllowedMethods.response_set_body := fun _ r => r
|}.

(** [DELETE /users/42], answered with 404 so far. *)
Definition delete_user : @Router.RState Demo.platform :=
  (@Ctx.new_Context Demo.platform Demo.quiet_app
     (Http.mkIncomingMessage (Some "DELETE") (Some "/users/42") ∅ None) 404%nat
     Demo.empty_store).

(** [PURGE /users/42], answered with 404 so far. *)
Definition purge_user : @Router.RState Demo.platform :=
  (@Ctx.new_Context Demo.platform Demo.quiet_app
     (Http.mkIncomingMessage (Some "PURGE") (Some "/users/42") ∅ None) 404%nat
     Demo.empty_store).

(** [OPTIONS /users/42], answered with 404 so far. *)
Definition options_user : @Router.RState Demo.platform :=
  (@Ctx.new_Context Demo.platform Demo.quiet_app
     (Http.mkIncomingMessage (Some "OPTIONS") (Some "/users/42") ∅ None) 404%nat
     Demo.empty_store).

(** [GET /users/42], answered with 200. *)
Definition served_user : @Router.RState Demo.platform :=
  (@Ctx.new_Context Demo.platform Demo.quiet_app
     (Http.mkIncomingMessage (Some "GET") (Some "/users/42") ∅ None) 200%nat
     Demo.empty_store).

End DemoStatus.

(* ===================================================================== *)
(** * Theorems: the dispatcher                                            *)
(* ===================================================================== *)

Section DispatcherFacts.

Import Dispatcher.

Context {C : Type}.
Implicit Types (s t : DState C) (b : Body C) (mws rest : list (Body C)).

Lemma run_wrap (pre post : C -> C) (next : Awaitable) s :
  run (wrap pre post) next s =
  match next (set_ctx (pre (ctx s)) s) with
  | (Completed, s') => (Completed, set_ctx (post (ctx s')) s')
  | (Failed e, s') => (Failed e, s')
  end.
Proof.
  unfold wrap, Update, AwaitNext. simpl.
  by destruct (next (set_ctx (pre (ctx s)) s)) as [[|e] s'].
Qed.

Lemma dispatch_exhausted i s :
  cursor s < i -> dispatch (C:=C) [] i s = (Completed, set_cursor i s).
Proof. intros Hlt. simpl. destruct (decide (i <= cursor s)); [lia | reflexivity]. Qed.

Lemma dispatch_guard mws i s :
  i <= cursor s -> dispatch mws i s = (Failed MultipleNextInvocationError, s).
Proof.
  intros Hle.
  destruct mws; simpl; destruct (decide (i <= cursor s)); (reflexivity || lia).
Qed.

Lemma dispatch_cons b rest i s :
  cursor s < i ->
  dispatch (b :: rest) i s =
  run b (next_of rest i) (log_event (EStart i) (set_cursor i s)).
Proof. intros Hlt. simpl. destruct (decide (i <= cursor s)); [lia | reflexivity]. Qed.

(** A chain of [wrap] middleware computes the nesting of its pre and post
    parts and logs one start and one [next] per position. *)
Lemma dispatch_onion (l : list ((C -> C) * (C -> C))) : forall i s,
  cursor s < i ->
  dispatch (map (fun p => wrap p.1 p.2) l) i s =
  (Completed,
   mkDState (onion l (ctx s)) (i + Z.of_nat (length l))
            (events s ++ chain_events i (length l))).
Proof.
  induction l as [|[pre post] l IH]; intros i s Hlt.
  - rewrite dispatch_exhausted by done. destruct s as [c k ev]; simpl.
    unfold set_cursor; simpl. rewrite app_nil_r, Z.add_0_r. reflexivity.
  - cbn [map]. rewrite dispatch_cons by done. rewrite run_wrap.
    unfold next_of. rewrite IH by (simpl; lia). simpl.
    unfold array_push. rewrite <- !app_assoc. simpl.
    replace (i + 1 + Z.of_nat (length l)) with (i + Z.pos (Pos.of_succ_nat (length l))) by lia.
    reflexivity.
Qed.

Lemma run_terminal b : terminal b -> forall (n1 n2 : Awaitable) s,
  run b n1 s = run b n2 s.
Proof.
  induction b as [| |k IH|c k IH|k IH]; simpl; intros Ht n1 n2 s; try done.
  - apply IH, Ht.
  - by apply IH.
Qed.

End DispatcherFacts.

Section OnionOrder.

Import Dispatcher.

Lemma onion_recorder n : forall a t,
  onion (map recorder_parts (seq a n)) t =
  t ++ map enter_line (seq a n) ++ map exit_line (reverse (seq a n)).
Proof.
  induction n as [|n IH]; intros a t; simpl.
  - by rewrite app_nil_r.
  - rewrite IH. unfold array_push. rewrite reverse_cons, map_app. simpl.
    rewrite <- !app_assoc. reflexivity.
Qed.

Lemma recorder_chain n :
  map recorder (seq 0 n) = map (fun p => wrap p.1 p.2) (map recorder_parts (seq 0 n)).
Proof. rewrite map_map. reflexivity. Qed.



End OnionOrder.

Section DoubleNext.

Import Dispatcher.

Context {C : Type}.
Implicit Types (s t : DState C) (b : Body C) (mws rest : list (Body C)).

Lemma occurrences_app e (l1 l2 : list Event) :
  occurrences e (l1 ++ l2) = (occurrences e l1 + occurrences e l2)%nat.
Proof. apply count_occ_app. Qed.

Lemma occurrences_later i (l : list Event) e :
  Forall (fun e' => i + 1 <= idx e') l -> idx e <= i -> occurrences e l = 0%nat.
Proof.
  intros Hall He. apply count_occ_not_In. intros Hin.
  rewrite List.Forall_forall in Hall. specialize (Hall _ Hin). lia.
Qed.

Lemma occurrences_single e e' :
  occurrences e [e'] = if decide (e' = e) then 1%nat else 0%nat.
Proof.
  unfold occurrences. simpl. destruct (Event_eq_dec e' e), (decide (e' = e)); done.
Qed.

Lemma occurrences_replicate e e' n :
  occurrences e (replicate n e') = if decide (e' = e) then n else 0%nat.
Proof.
  induction n as [|n IH]; [by destruct (decide _)|].
  change (replicate (S n) e') with ([e'] ++ replicate n e').
  rewrite occurrences_app, occurrences_single, IH. by destruct (decide _).
Qed.

(** Once [next] has been invoked, the body adds nothing to the log but
    further invocations, and every one of them is refused. *)
Lemma run_after rest i : forall b t o t',
  run b (next_of rest i) t = (o, t') ->
  i + 1 <= cursor t ->
  cursor t' = cursor t
  /\ exists n, events t' = events t ++ replicate n (ENext i).
Proof.
  induction b as [|e|k IH|c k IH|k IH]; simpl; intros t o t' Hrun Hge.
  - injection Hrun as <- <-. split; [done|]. exists 0%nat. by rewrite app_nil_r.
  - injection Hrun as <- <-. split; [done|]. exists 0%nat. by rewrite app_nil_r.
  - by apply IH in Hrun.
  - by apply IH in Hrun.
  - unfold next_of at 1 in Hrun. rewrite dispatch_guard in Hrun by (simpl; lia).
    apply IH in Hrun; [|simpl; lia]. destruct Hrun as (Hc & n & Hev). simpl in *.
    split; [done|]. exists (S n). rewrite Hev. unfold array_push.
    by rewrite <- app_assoc.
Qed.

(** A body that propagates failures does not survive a refused
    invocation. *)
Lemma run_after_propagates rest i : forall b t o t',
  propagates b ->
  run b (next_of rest i) t = (o, t') ->
  i + 1 <= cursor t ->
  events t' = events t
  \/ (events t' = events t ++ [ENext i] /\ o = Failed MultipleNextInvocationError).
Proof.
  induction b as [|e|k IH|c k IH|k IH]; simpl; intros t o t' Hp Hrun Hge.
  - injection Hrun as <- <-. by left.
  - injection Hrun as <- <-. by left.
  - by eapply IH in Hrun.
  - by eapply IH in Hrun.
  - unfold next_of at 1 in Hrun. rewrite dispatch_guard in Hrun by (simpl; lia).
    destruct Hp as [Hfail _]. rewrite Hfail in Hrun. simpl in Hrun.
    injection Hrun as <- <-. by right.
Qed.

(** Up to its first invocation of [next] a body logs nothing; the first
    invocation runs the rest of the chain. *)
Lemma run_before rest i
  (Hnext : forall t o t', cursor t < i + 1 -> dispatch rest (i + 1) t = (o, t') ->
     i + 1 <= cursor t' /\
     exists new, events t' = events t ++ new /\ orderly (i + 1) rest o new) :
  forall b t o t', run b (next_of rest i) t = (o, t') ->
    cursor t < i + 1 ->
    cursor t <= cursor t' /\
    exists new, events t' = events t ++ new /\ body_orderly i b rest o new.
Proof.
  induction b as [|e|k IH|c k IH|k IH]; simpl; intros t o t' Hrun Hlt.
  - injection Hrun as <- <-. split; [lia|]. exists []. rewrite app_nil_r.
    repeat split; auto; intros; simpl; lia.
  - injection Hrun as <- <-. split; [lia|]. exists []. rewrite app_nil_r.
    repeat split; auto; intros; simpl; lia.
  - destruct (IH _ _ _ _ Hrun Hlt) as (Hc & new & Hev & Hall & Hstart & Hzero & Hnx).
    split; [done|]. exists new. split; [done|]. split; [done|]. split; [done|].
    split; [done|]. intros j Hj. apply Hnx. intros Hij.
    destruct (Hj Hij) as [Hp ?]. split; [apply Hp | done].
  - destruct (IH _ _ _ Hrun Hlt) as (Hc & new & Hev & Hall & Hstart & Hzero & Hnx).
    split; [done|]. by exists new.
  - unfold next_of at 1 in Hrun.
    destruct (dispatch rest (i + 1) (log_event (ENext i) t)) as [o1 t1] eqn:Hd.
    pose proof Hd as Hd1. apply Hnext in Hd1; [|simpl; lia].
    destruct Hd1 as (Hcur & new1 & Hev1 & Hall & Hstart & Hnx). simpl in Hev1.
    unfold array_push in Hev1.
    destruct (run_after rest i _ _ _ _ Hrun Hcur) as (Hc' & n & Hev).
    assert (Hz : forall e, idx e <= i -> occurrences e new1 = 0%nat)
      by (intros; by eapply occurrences_later).
    split; [lia|]. exists (ENext i :: new1 ++ replicate n (ENext i)).
    rewrite Hev, Hev1, <- !app_assoc. split; [reflexivity|].
    split; [|split; [|split]].
    + constructor; [simpl; lia|]. apply Forall_app. split.
      * eapply Forall_impl; [exact Hall|]. simpl; intros; lia.
      * apply Forall_replicate. simpl. lia.
    + intros j. change (ENext i :: new1 ++ replicate n (ENext i))
        with ([ENext i] ++ new1 ++ replicate n (ENext i)).
      rewrite !occurrences_app, occurrences_single, occurrences_replicate.
      destruct (decide _); [done|]. specialize (Hstart j). lia.
    + change (ENext i :: new1 ++ replicate n (ENext i))
        with ([ENext i] ++ new1 ++ replicate n (ENext i)).
      rewrite !occurrences_app, occurrences_single, occurrences_replicate.
      destruct (decide _); [done|]. rewrite Hz; [done | simpl; lia].
    + intros j Hj Hne.
      change (ENext i :: new1 ++ replicate n (ENext i))
        with ([ENext i] ++ new1 ++ replicate n (ENext i)).
      rewrite !occurrences_app, occurrences_single, occurrences_replicate.
      destruct (decide (i <= j)) as [Hij|Hij].
      * destruct (Hj Hij) as [[Hfail Hok] Hrest].
        assert (Hpk : propagates (k o1)).
        { destruct o1 as [|e1]; [exact Hok | by rewrite Hfail]. }
        assert (Hn0 : n = 0%nat).
        { destruct (run_after_propagates rest i _ _ _ _ Hpk Hrun Hcur)
            as [Hsame | [_ ->]]; [|done].
          rewrite Hev in Hsame. rewrite <- (app_nil_r (events t1)) in Hsame at 2.
          apply app_inv_head in Hsame. by destruct n. }
        assert (Ho1 : o1 <> Failed MultipleNextInvocationError).
        { intros ->. rewrite Hfail in Hrun. simpl in Hrun. by injection Hrun as <- _. }
        subst n. destruct (decide (ENext i = ENext j)) as [[= <-]|Hneq].
        -- rewrite Hz; [lia | simpl; lia].
        -- assert (Hle : (occurrences (ENext j) new1 <= 1)%nat); [|lia].
           apply Hnx; [|done].
           replace (j + 1 - (i + 1)) with (j - i) by lia. done.
      * destruct (decide (ENext i = ENext j)) as [[= <-]|Hneq]; [lia|].
        rewrite Hz; [lia | simpl; lia].
Qed.

Lemma dispatch_orderly mws : forall i s o s',
  cursor s < i -> dispatch mws i s = (o, s') ->
  i <= cursor s' /\ exists new, events s' = events s ++ new /\ orderly i mws o new.
Proof.
  induction mws as [|b rest IH]; intros i s o s' Hlt Hd.
  - rewrite dispatch_exhausted in Hd by done. injection Hd as <- <-. simpl.
    split; [lia|]. exists []. rewrite app_nil_r.
    repeat split; auto; intros; simpl; lia.
  - rewrite dispatch_cons in Hd by done.
    apply (run_before rest i) in Hd; [|intros; by eapply IH | simpl; lia].
    simpl in Hd.
    destruct Hd as (Hmono & new & Hev & Hall & Hstart & Hzero & Hnx).
    unfold array_push in Hev. rewrite <- app_assoc in Hev.
    split.
    + lia.
    + exists (EStart i :: new). split; [exact Hev|]. split; [|split].
      * constructor; [simpl; lia | done].
      * intros j. change (EStart i :: new) with ([EStart i] ++ new).
        rewrite occurrences_app, occurrences_single.
        destruct (decide (EStart i = EStart j)) as [[= ->]|]; [|apply Hstart].
        rewrite Hzero. lia.
      * intros j Hp Hne. change (EStart i :: new) with ([EStart i] ++ new).
        rewrite occurrences_app, occurrences_single.
        destruct (decide _); [done|]. apply Hnx; [|done].
        intros Hij. replace (Z.to_nat (j + 1 - i)) with (S (Z.to_nat (j - i))) in Hp by lia.
        simpl in Hp. by apply Forall_cons in Hp.
Qed.

Lemma dispatch_prefix_fails (l : list ((C -> C) * (C -> C))) rest : forall i s e s',
  cursor s < i ->
  dispatch rest (i + Z.of_nat (length l)) (entered l i s) = (Failed e, s') ->
  dispatch (map (fun p => wrap p.1 p.2) l ++ rest) i s = (Failed e, s').
Proof.
  induction l as [|[pre post] l IH]; intros i s e s' Hlt Hd.
  - simpl in *. by rewrite Z.add_0_r in Hd.
  - cbn [map app]. rewrite dispatch_cons by done. rewrite run_wrap.
    unfold next_of. erewrite IH; [reflexivity | simpl; lia |].
    rewrite <- Hd. simpl. f_equal. lia.
Qed.

Lemma entered_ctx (l : list ((C -> C) * (C -> C))) : forall i s,
  ctx (entered l i s) = fold_left (fun c p => p.1 c) l (ctx s).
Proof. induction l as [|[pre post] l IH]; intros i s; simpl; [done|]. by rewrite IH. Qed.

Lemma entered_cursor (l : list ((C -> C) * (C -> C))) : forall i s,
  cursor s < i -> cursor (entered l i s) < i + Z.of_nat (length l).
Proof.
  induction l as [|[pre post] l IH]; intros i s Hlt; simpl length; simpl entered.
  - lia.
  - specialize (IH (i + 1) (log_event (ENext i)
      (set_ctx (pre (ctx (log_event (EStart i) (set_cursor i s))))
               (log_event (EStart i) (set_cursor i s))))).
    simpl in IH. simpl. lia.
Qed.

Lemma dispatch_twice pre mid post (l : list ((C -> C) * (C -> C))) i s :
  cursor s < i ->
  exists s', dispatch (twice pre mid post :: map (fun p => wrap p.1 p.2) l) i s
             = (Failed MultipleNextInvocationError, s')
             /\ ctx s' = mid (onion l (pre (ctx s))).
Proof.
  intros Hlt. rewrite dispatch_cons by done. unfold twice, Update. simpl.
  unfold next_of at 1. rewrite dispatch_onion by (simpl; lia). simpl.
  unfold next_of. rewrite dispatch_guard by (simpl; lia).
  eexists. split; reflexivity.
Qed.

Lemma wrap_propagates (pre post : C -> C) : propagates (wrap pre post).
Proof. unfold wrap, Update. simpl. done. Qed.

Lemma twice_propagates (pre mid post : C -> C) : propagates (twice pre mid post).
Proof. unfold twice, Update. simpl. done. Qed.

End DoubleNext.




(* ===================================================================== *)
(** * Theorems: the context pool                                          *)
(* ===================================================================== *)

Section PoolFacts.

Import Http Ctx.

Context `{Platform}.
Implicit Types (p : ContextPool) (σ : Store) (c : Context) (x : addr).

Lemma array_pop_nil {A} : array_pop (@nil A) = (None, []).
Proof. reflexivity. Qed.

Lemma array_pop_snoc {A} (l : list A) (x : A) : array_pop (l ++ [x]) = (Some x, l).
Proof. unfold array_pop. by rewrite last_snoc, removelast_last. Qed.

(** Everything [reset] does to the instance and to the store. *)
Lemma reset_spec this a rq rs σ c σ' :
  reset this a rq rs σ = (c, σ') ->
  app c = a /\ req c = rq /\ res c = rs
  /\ request c = Request.mkKoaXRequest rq None None None
  /\ response c = response_reset (response this) rs
  /\ state c = length (objs σ)
  /\ _inUse c = _inUse this
  /\ params c = params this
  /\ objs σ' = objs σ ++ [∅]
  /\ ctxs σ' = ctxs σ
  /\ (if logging a
      then requestId c = (generateRequestId (env σ)).1
           /\ startTime c = (Date_now (generateRequestId (env σ)).2).1
           /\ log c = (fun l => logger_child l (requestId c) (method rq) (url rq)) <$> logger a
           /\ env σ' = (Date_now (generateRequestId (env σ)).2).2
      else requestId c = "" /\ startTime c = 0 /\ log c = logger a /\ env σ' = env σ).
Proof.
  unfold reset, logging, alloc_obj. simpl.
  destruct (logger a) as [l|] eqn:Hl; [destruct (logger_enabled l) eqn:Hen|].
  - destruct (generateRequestId (env σ)) as [rid e1] eqn:Hg.
    destruct (Date_now e1) as [now e2] eqn:Hn.
    intros [= <- <-]. simpl. rewrite Hn. simpl. repeat split; done.
  - intros [= <- <-]. simpl. repeat split; done.
  - intros [= <- <-]. simpl. repeat split; done.
Qed.

Lemma reset_total this a rq rs σ : exists c σ', reset this a rq rs σ = (c, σ').
Proof. destruct (reset this a rq rs σ) as [c σ']. eauto. Qed.

(** [acquire] on an empty free-list constructs an instance at a new
    address. *)
Lemma acquire_empty a rq rs p σ :
  pool p = [] ->
  exists c σ1,
    new_Context a rq rs σ = (c, σ1)
    /\ acquire a rq rs p σ =
       (length (ctxs σ), mkPool [] (maxSize p) (S (created p)),
        mkStore (objs σ1) (ctxs σ ++ [set_inUse true c]) (env σ1)).
Proof.
  intros Hp. unfold acquire. rewrite Hp, array_pop_nil.
  destruct (new_Context a rq rs σ) as [c σ1] eqn:Hn. exists c, σ1.
  split; [reflexivity|].
  unfold new_Context, alloc_obj in Hn. simpl in Hn.
  apply reset_spec in Hn. simpl in Hn.
  destruct Hn as (_ & _ & _ & _ & _ & _ & _ & _ & _ & -> & _). reflexivity.
Qed.

(** [acquire] on a non-empty free-list hands out its last element. *)
Lemma acquire_pooled a rq rs p σ l x c :
  pool p = l ++ [x] -> ctxs σ !! x = Some c ->
  exists c' σ1,
    reset c a rq rs σ = (c', σ1)
    /\ acquire a rq rs p σ =
       (x, mkPool l (maxSize p) (created p),
        mkStore (objs σ1) (<[x := set_inUse true c']> (ctxs σ)) (env σ1)).
Proof.
  intros Hp Hx. unfold acquire. rewrite Hp, array_pop_snoc, Hx.
  destruct (reset c a rq rs σ) as [c' σ1] eqn:Hr. exists c', σ1.
  split; [reflexivity|].
  apply reset_spec in Hr.
  destruct Hr as (_ & _ & _ & _ & _ & _ & _ & _ & _ & -> & _). reflexivity.
Qed.

(** Whatever the store, a non-empty free-list is popped and nothing is
    constructed. *)
Lemma acquire_pops a rq rs p σ l x :
  pool p = l ++ [x] ->
  exists σ', acquire a rq rs p σ = (x, mkPool l (maxSize p) (created p), σ')
             /\ length (ctxs σ') = length (ctxs σ).
Proof.
  intros Hp. destruct (ctxs σ !! x) as [c|] eqn:Hx.
  - destruct (acquire_pooled a rq rs p σ l x c Hp Hx) as (c' & σ1 & _ & ->).
    eexists. split; [reflexivity|]. simpl. by rewrite length_insert.
  - unfold acquire. rewrite Hp, array_pop_snoc, Hx. eauto.
Qed.

Lemma release_not_in_use x p σ : ~ in_use σ x -> release x p σ = (p, σ).
Proof.
  intros Hn. unfold release. destruct (ctxs σ !! x) as [c|] eqn:Hx; [|done].
  unfold not_inUse. destruct (_inUse c) as [[|]|] eqn:Hu; try done.
  exfalso. apply Hn. by exists c.
Qed.

Lemma release_in_use x p σ c :
  ctxs σ !! x = Some c -> _inUse c = Some true ->
  release x p σ =
  if Z.of_nat (length (pool p)) <? maxSize p
  then (mkPool (pool p ++ [x]) (maxSize p) (created p),
        mkStore (objs σ ++ [∅])
                (<[x := set_state (length (objs σ)) (set_inUse false c)]> (ctxs σ))
                (env σ))
  else (p, mkStore (objs σ) (<[x := set_inUse false c]> (ctxs σ)) (env σ)).
Proof.
  intros Hx Hu. unfold release, not_inUse. rewrite Hx, Hu. reflexivity.
Qed.

Lemma release_frame x p σ :
  maxSize (release x p σ).1 = maxSize p
  /\ created (release x p σ).1 = created p
  /\ length (ctxs (release x p σ).2) = length (ctxs σ)
  /\ env (release x p σ).2 = env σ.
Proof.
  unfold release. destruct (ctxs σ !! x) as [c|]; [|done].
  destruct (not_inUse c); [done|].
  destruct (_ <? _); simpl; rewrite length_insert; done.
Qed.

Lemma release_bounded x p σ :
  Z.of_nat (length (pool p)) <= maxSize p ->
  Z.of_nat (length (pool (release x p σ).1)) <= maxSize p.
Proof.
  intros Hb. unfold release. destruct (ctxs σ !! x) as [c|]; [|done].
  destruct (not_inUse c); [done|].
  destruct (Z.ltb_spec (Z.of_nat (length (pool p))) (maxSize p)); simpl; [|done].
  unfold array_push. rewrite length_app. simpl. lia.
Qed.

Lemma acquire_bounded a rq rs p σ :
  Z.of_nat (length (pool p)) <= maxSize p ->
  maxSize (acquire a rq rs p σ).1.2 = maxSize p
  /\ Z.of_nat (length (pool (acquire a rq rs p σ).1.2)) <= maxSize p.
Proof.
  intros Hb. destruct (pool p) as [|y l] eqn:Hp using rev_ind.
  - destruct (acquire_empty a rq rs p σ Hp) as (c & σ1 & _ & ->). simpl.
    split; [done | lia].
  - clear IHl. destruct (acquire_pops a rq rs p σ l y Hp) as (σ' & -> & _). simpl.
    rewrite length_app in Hb. simpl in Hb. split; [done | lia].
Qed.

Lemma step_bounded op (w : ContextPool * Store) :
  Z.of_nat (length (pool w.1)) <= maxSize w.1 ->
  maxSize (step op w).1 = maxSize w.1
  /\ Z.of_nat (length (pool (step op w).1)) <= maxSize w.1.
Proof.
  intros Hb. destruct op as [a rq rs|x|x k v|o k v]; simpl; try done.
  - pose proof (acquire_bounded a rq rs w.1 w.2 Hb) as Ha.
    destruct (acquire a rq rs w.1 w.2) as [[y p'] σ']. exact Ha.
  - split; [apply release_frame | by apply release_bounded].
Qed.

Lemma steps_bounded ops : forall (w : ContextPool * Store),
  Z.of_nat (length (pool w.1)) <= maxSize w.1 ->
  maxSize (steps ops w).1 = maxSize w.1
  /\ Z.of_nat (length (pool (steps ops w).1)) <= maxSize w.1.
Proof.
  induction ops as [|op ops IH]; intros w Hb; [done|].
  unfold steps. simpl. fold (steps ops (step op w)).
  destruct (step_bounded op w Hb) as [Hm Hl].
  destruct (IH (step op w)) as [Hm' Hl']; [by rewrite Hm|].
  rewrite Hm', Hm. split; [done|]. by rewrite <- Hm.
Qed.

Lemma release_all_steps xs (w : ContextPool * Store) :
  release_all xs w = steps (map OpRelease xs) w.
Proof.
  revert w. induction xs as [|x xs IH]; intros w; [done|].
  unfold release_all, steps. simpl. apply IH.
Qed.

End PoolFacts.

Section PoolReuse.

Import Http Ctx.

Context `{Platform}.
Implicit Types (p : ContextPool) (σ : Store) (c : Context) (x : addr).

Lemma release_other_in_use x y p σ :
  x <> y -> in_use σ y -> in_use (release x p σ).2 y.
Proof.
  intros Hne (c & Hy & Hu). unfold release.
  destruct (ctxs σ !! x) as [cx|]; [|by exists c].
  destruct (not_inUse cx); [by exists c|].
  destruct (_ <? _); exists c; (split; [|done]); cbn [snd ctxs alloc_obj];
    by rewrite list_lookup_insert_ne.
Qed.

(** Releasing distinct in-use contexts: the free-list grows at its end by
    those that were retained, all of them while there is room. *)
Lemma release_all_spec xs : forall p σ,
  NoDup xs -> Forall (in_use σ) xs ->
  exists kept,
    pool (release_all xs (p, σ)).1 = pool p ++ kept
    /\ kept ⊆ xs
    /\ Z.min (Z.of_nat (length (pool p)) + Z.of_nat (length xs)) (maxSize p)
       <= Z.of_nat (length (pool p ++ kept))
    /\ (Z.of_nat (length (pool p)) + Z.of_nat (length xs) <= maxSize p -> kept = xs)
    /\ created (release_all xs (p, σ)).1 = created p
    /\ maxSize (release_all xs (p, σ)).1 = maxSize p
    /\ length (ctxs (release_all xs (p, σ)).2) = length (ctxs σ).
Proof.
  induction xs as [|x xs IH]; intros p σ Hnd Hin.
  - exists []. simpl. rewrite app_nil_r. repeat split; auto; lia.
  - apply NoDup_cons in Hnd as [Hx Hnd]. apply Forall_cons in Hin as [Hux Hin].
    unfold release_all. simpl. fold (release_all xs (release x p σ)).
    destruct (release x p σ) as [p1 σ1] eqn:Hr.
    assert (Hin1 : Forall (in_use σ1) xs).
    { rewrite Forall_forall in Hin |- *. intros y Hy.
      replace σ1 with (release x p σ).2 by (by rewrite Hr).
      apply release_other_in_use; [|by apply Hin]. intros ->. done. }
    destruct (IH p1 σ1 Hnd Hin1) as (kept & Hpool & Hsub & Hlen & Hall & Hcr & Hmax & Hctx).
    pose proof (release_frame x p σ) as (Fm & Fc & Fl & _). rewrite Hr in Fm, Fc, Fl.
    simpl in Fm, Fc, Fl.
    destruct Hux as (c & Hc & Hu).
    rewrite (release_in_use x p σ c Hc Hu) in Hr.
    destruct (Z.ltb_spec (Z.of_nat (length (pool p))) (maxSize p)) as [Hroom|Hfull].
    + injection Hr as <- <-. simpl in *.
      exists (x :: kept). rewrite Hpool, <- app_assoc. simpl.
      split; [reflexivity|]. split.
      { intros y Hy. apply elem_of_cons in Hy as [->|Hy]; apply elem_of_cons;
          [by left | right; by apply Hsub]. }
      rewrite !length_app in *. simpl in *.
      split; [lia|]. split; [|repeat split; congruence].
      intros Hfit. f_equal. apply Hall. lia.
    + injection Hr as <- <-. simpl in *.
      exists kept. split; [exact Hpool|]. split.
      { intros y Hy. apply elem_of_cons. right. by apply Hsub. }
      rewrite !length_app in *. simpl in *.
      split; [lia|]. split; [lia|]. repeat split; congruence.
Qed.

(** Acquiring as often as the free-list's tail [back] is long pops exactly
    that tail, last element first, and constructs nothing. *)
Lemma acquire_all_pops args : forall p σ front back,
  pool p = front ++ back -> length back = length args ->
  exists σ',
    acquire_all args (p, σ) =
    (reverse back, (mkPool front (maxSize p) (created p), σ'))
    /\ length (ctxs σ') = length (ctxs σ).
Proof.
  induction args as [|[[a rq] rs] args IH]; intros p σ front back Hp Hlen.
  - destruct back; [|done]. rewrite app_nil_r in Hp. exists σ. simpl.
    split; [|done]. destruct p; simpl in *; by subst.
  - destruct back as [|y back _] using rev_ind; [done|].
    rewrite length_app in Hlen. simpl in Hlen.
    rewrite app_assoc in Hp.
    destruct (acquire_pops a rq rs p σ (front ++ back) y Hp) as (σ1 & Hacq & Hl1).
    simpl. rewrite Hacq.
    destruct (IH (mkPool (front ++ back) (maxSize p) (created p)) σ1 front back)
      as (σ' & Hall & Hl'); [done | lia |].
    rewrite Hall. simpl. exists σ'. rewrite reverse_snoc. split; [done | lia].
Qed.

End PoolReuse.

(** C3 (as amended).  Pool reuse.  Release [N <= maxSize] distinct in-use
    contexts one after the other, then call [acquire] [N] times: [created]
    is unchanged, no instance is constructed, every context handed out is
    one that sat on the free-list after the releases (an earlier resident
    or one of the [N]), and when the free-list had room for all [N] (its
    length plus [N] is at most [maxSize]; it was empty, say) the contexts
    handed out are exactly the released ones, most recently released
    first.  [acquire] constructs an instance, at a new address and counted
    in [created], only on an empty free-list; otherwise it hands out the
    last element of the free-list and leaves [created] alone. *)
Theorem pool_reuse `{Platform} :
  (forall (p : Ctx.ContextPool) (σ : Ctx.Store) (xs : list addr)
          (args : list (Ctx.KoaXApplication * Http.IncomingMessage * ServerResponse)),
     NoDup xs -> Forall (Ctx.in_use σ) xs ->
     length args = length xs ->
     Z.of_nat (length xs) <= Ctx.maxSize p ->
     let w1 := Ctx.release_all xs (p, σ) in
     let r := Ctx.acquire_all args w1 in
     Ctx.created r.2.1 = Ctx.created p
     /\ length (Ctx.ctxs r.2.2) = length (Ctx.ctxs σ)
     /\ (forall x, x ∈ r.1 -> x ∈ Ctx.pool w1.1 /\ (x ∈ Ctx.pool p \/ x ∈ xs))
     /\ (Z.of_nat (length (Ctx.pool p)) + Z.of_nat (length xs) <= Ctx.maxSize p ->
         r.1 = reverse xs))
  /\ (forall a rq rs (p : Ctx.ContextPool) (σ : Ctx.Store),
        Ctx.pool p = [] ->
        (Ctx.acquire a rq rs p σ).1.1 = length (Ctx.ctxs σ)
        /\ length (Ctx.ctxs (Ctx.acquire a rq rs p σ).2) = S (length (Ctx.ctxs σ))
        /\ Ctx.created (Ctx.acquire a rq rs p σ).1.2 = S (Ctx.created p))
  /\ (forall a rq rs (p : Ctx.ContextPool) (σ : Ctx.Store) l x,
        Ctx.pool p = l ++ [x] ->
        (Ctx.acquire a rq rs p σ).1.1 = x
        /\ Ctx.pool (Ctx.acquire a rq rs p σ).1.2 = l
        /\ length (Ctx.ctxs (Ctx.acquire a rq rs p σ).2) = length (Ctx.ctxs σ)
        /\ Ctx.created (Ctx.acquire a rq rs p σ).1.2 = Ctx.created p).
Proof.
  split; [|split].
  - intros p σ xs args Hnd Hin Hlen Hn w1 r.
    destruct (release_all_spec xs p σ Hnd Hin)
      as (kept & Hpool & Hsub & Hmin & Hall & Hcr & Hmax & Hctx).
    fold w1 in Hpool, Hcr, Hmax, Hctx.
    assert (Hge : (length xs <= length (Ctx.pool w1.1))%nat).
    { rewrite Hpool. rewrite length_app in *. lia. }
    set (k := (length (Ctx.pool w1.1) - length xs)%nat).
    destruct (acquire_all_pops args w1.1 w1.2
                (take k (Ctx.pool w1.1)) (drop k (Ctx.pool w1.1)))
      as (σ' & Hacq & Hl').
    { by rewrite take_drop. }
    { rewrite length_drop. unfold k. lia. }
    assert (Hr : r = (reverse (drop k (Ctx.pool w1.1)),
                      (Ctx.mkPool (take k (Ctx.pool w1.1)) (Ctx.maxSize w1.1)
                                  (Ctx.created w1.1), σ'))).
    { unfold r. rewrite <- Hacq. by destruct w1. }
    rewrite Hr. simpl. split; [done|]. split; [congruence|]. split.
    + intros x Hx. rewrite elem_of_reverse in Hx.
      assert (Hx' : x ∈ Ctx.pool w1.1).
      { rewrite <- (take_drop k (Ctx.pool w1.1)). apply elem_of_app. by right. }
      split; [done|]. rewrite Hpool in Hx'. apply elem_of_app in Hx' as [?|?]; [by left|].
      right. by apply Hsub.
    + intros Hfit. specialize (Hall Hfit). subst kept.
      unfold k. rewrite Hpool, length_app.
      replace (length (Ctx.pool p) + length xs - length xs)%nat
        with (length (Ctx.pool p)) by lia.
      by rewrite drop_app_length.
  - intros a rq rs p σ Hp.
    destruct (acquire_empty a rq rs p σ Hp) as (c & σ1 & _ & ->). simpl.
    rewrite length_app. simpl. split; [done|]. split; [lia | done].
  - intros a rq rs p σ l x Hp.
    destruct (acquire_pops a rq rs p σ l x Hp) as (σ' & -> & Hl). simpl. done.
Qed.

Lemma pool_reuse_witness :
  (Ctx.acquire_all [(Demo.quiet_app, Demo.get_users, 2%nat);
                    (Demo.quiet_app, Demo.get_users, 3%nat)]
     (Ctx.release_all [0%nat; 1%nat]
        (Demo.two_in_flight.1.2, Demo.two_in_flight.2))).1 = [1%nat; 0%nat].
Proof.
  destruct (pool_reuse (H:=Demo.platform)) as (Hreuse & _ & _).
  refine (proj2 (proj2 (proj2 (Hreuse Demo.two_in_flight.1.2 Demo.two_in_flight.2
     [0%nat; 1%nat]
     [(Demo.quiet_app, Demo.get_users, 2%nat); (Demo.quiet_app, Demo.get_users, 3%nat)]
     _ _ _ _))) _).
  - apply (bool_decide_unpack _). reflexivity.
  - repeat constructor; eexists; split; vm_compute; reflexivity.
  - reflexivity.
  - vm_compute. discriminate.
  - vm_compute. discriminate.
Defined.

(** [N <= maxSize] alone is not enough.  On a pool of two whose free-list
    holds context [0], releasing the in-use contexts [1] and [2] keeps
    [1] and discards [2]; the next two [acquire] hand out [1] and [0], not
    [2] and [1]. *)
Lemma pool_reuse_needs_room :
  ~ (forall (p : Ctx.ContextPool) (σ : @Ctx.Store Demo.platform) (xs : list addr)
            (args : list (@Ctx.KoaXApplication Demo.platform * Http.IncomingMessage * nat)),
       NoDup xs -> Forall (Ctx.in_use σ) xs ->
       length args = length xs ->
       Z.of_nat (length xs) <= Ctx.maxSize p ->
       (Ctx.acquire_all args (Ctx.release_all xs (p, σ))).1 = reverse xs).
Proof.
  intros Hexact.
  specialize (Hexact Demo.crowded_world.1 Demo.crowded_world.2 [1%nat; 2%nat]
    [(Demo.quiet_app, Demo.get_users, 3%nat); (Demo.quiet_app, Demo.post_login, 4%nat)]).
  assert (Hout : (Ctx.acquire_all
            [(Demo.quiet_app, Demo.get_users, 3%nat);
             (Demo.quiet_app, Demo.post_login, 4%nat)]
            (Ctx.release_all [1%nat; 2%nat]
               (Demo.crowded_world.1, Demo.crowded_world.2))).1 = [1%nat; 0%nat])
    by (vm_compute; reflexivity).
  rewrite Hexact in Hout.
  - discriminate.
  - apply (bool_decide_unpack _). reflexivity.
  - repeat constructor; eexists; split; vm_compute; reflexivity.
  - reflexivity.
  - vm_compute. discriminate.
Qed.

Section PoolBehaviour.

Import Http Ctx.

Context `{Platform}.
Implicit Types (p : ContextPool) (σ : Store) (c : Context) (x : addr).

Lemma acquire_wf a rq rs p σ :
  pool_wf p σ -> pool_wf (acquire a rq rs p σ).1.2 (acquire a rq rs p σ).2.
Proof.
  unfold pool_wf. intros Hwf. destruct (pool p) as [|y l _] eqn:Hp using rev_ind.
  - destruct (acquire_empty a rq rs p σ Hp) as (c & σ1 & _ & ->). simpl. constructor.
  - destruct (acquire_pops a rq rs p σ l y Hp) as (σ' & -> & Hl). simpl.
    rewrite Hl. by apply Forall_app in Hwf as [? _].
Qed.

Lemma release_wf x p σ :
  pool_wf p σ -> pool_wf (release x p σ).1 (release x p σ).2.
Proof.
  unfold pool_wf. intros Hwf.
  pose proof (release_frame x p σ) as (_ & _ & Hl & _). rewrite Hl.
  unfold release. destruct (ctxs σ !! x) as [c|] eqn:Hx; [|done].
  destruct (not_inUse c); [done|].
  destruct (_ <? _); simpl; [|done].
  apply Forall_app. split; [done|]. constructor; [|constructor].
  by eapply lookup_lt_Some.
Qed.

Lemma state_write_ctxs x k v σ : ctxs (state_write x k v σ) = ctxs σ.
Proof. unfold state_write. by destruct (ctxs σ !! x). Qed.

Lemma steps_wf ops : forall (w : ContextPool * Store),
  pool_wf w.1 w.2 -> pool_wf (steps ops w).1 (steps ops w).2.
Proof.
  induction ops as [|op ops IH]; intros w Hwf; [done|].
  unfold steps. simpl. fold (steps ops (step op w)). apply IH.
  destruct op as [a rq rs|x|x k v|o k v]; simpl.
  - pose proof (acquire_wf a rq rs w.1 w.2 Hwf) as Ha.
    by destruct (acquire a rq rs w.1 w.2) as [[y p'] σ'].
  - by apply release_wf.
  - unfold pool_wf. by rewrite state_write_ctxs.
  - done.
Qed.

(** The instance [acquire] hands out is the result of [reset], marked
    in-use, on a store that held at most one more object than before. *)
Lemma acquire_spec a rq rs p σ :
  pool_wf p σ ->
  exists this σ0 c σ1,
    (objs σ0 = objs σ \/ objs σ0 = objs σ ++ [∅])
    /\ env σ0 = env σ
    /\ reset this a rq rs σ0 = (c, σ1)
    /\ ctxs (acquire a rq rs p σ).2 !! (acquire a rq rs p σ).1.1
       = Some (set_inUse true c)
    /\ objs (acquire a rq rs p σ).2 = objs σ1
    /\ env (acquire a rq rs p σ).2 = env σ1.
Proof.
  intros Hwf. destruct (pool p) as [|y l _] eqn:Hp using rev_ind.
  - destruct (acquire_empty a rq rs p σ Hp) as (c & σ1 & Hn & ->).
    unfold new_Context in Hn. simpl in Hn.
    unfold alloc_obj, array_push in Hn. simpl in Hn.
    eexists _, (mkStore (objs σ ++ [∅]) (ctxs σ) (env σ)), c, σ1.
    split; [by right|]. split; [reflexivity|].
    split; [exact Hn|]. simpl. split; [|done].
    by apply list_lookup_middle.
  - assert (Hy : (y < length (ctxs σ))%nat).
    { unfold pool_wf in Hwf. rewrite Hp in Hwf.
      apply Forall_app in Hwf as [_ Hy]. rewrite Forall_singleton in Hy. exact Hy. }
    destruct (lookup_lt_is_Some_2 _ _ Hy) as [c0 Hc0].
    destruct (acquire_pooled a rq rs p σ l y c0 Hp Hc0) as (c & σ1 & Hr & ->).
    exists c0, σ, c, σ1. split; [by left|]. split; [done|]. split; [done|].
    simpl. split; [|done]. by apply list_lookup_insert_eq.
Qed.

(** After [acquire] the context's [state] is an empty object allocated by
    this very call. *)
Lemma acquire_fresh_state a rq rs p σ :
  pool_wf p σ ->
  exists c,
    ctxs (acquire a rq rs p σ).2 !! (acquire a rq rs p σ).1.1 = Some c
    /\ (length (objs σ) <= state c)%nat
    /\ objs (acquire a rq rs p σ).2 !! state c = Some ∅
    /\ length (objs (acquire a rq rs p σ).2) = S (state c).
Proof.
  intros Hwf.
  destruct (acquire_spec a rq rs p σ Hwf) as (this & σ0 & c & σ1 & Hobjs & _ & Hr & Hc & Ho & _).
  apply reset_spec in Hr.
  destruct Hr as (_ & _ & _ & _ & _ & Hst & _ & _ & Ho1 & _).
  exists (set_inUse true c). split; [exact Hc|]. simpl. rewrite Ho, Ho1, Hst.
  split; [destruct Hobjs as [-> | ->]; rewrite ?length_app; simpl; lia|].
  split; [by apply list_lookup_middle|]. rewrite length_app. simpl. lia.
Qed.

End PoolBehaviour.

(** C4 (as amended).  [release] of a context that is not in use changes
    neither the pool nor the store.  [release] of an in-use context marks
    it not in use and leaves [maxSize] and [created] alone; exactly when
    the free-list is shorter than [maxSize] it gives the context a new
    empty state object and pushes it onto the free-list; otherwise the
    free-list is unchanged, the context is not retained and its state
    object is left as it was. *)
Theorem release_behaviour `{Platform} (x : addr) (p : Ctx.ContextPool) (σ : Ctx.Store) :
  (~ Ctx.in_use σ x -> Ctx.release x p σ = (p, σ))
  /\ (forall c, Ctx.ctxs σ !! x = Some c -> Ctx._inUse c = Some true ->
        let w := Ctx.release x p σ in
        Ctx.maxSize w.1 = Ctx.maxSize p
        /\ Ctx.created w.1 = Ctx.created p
        /\ ~ Ctx.in_use w.2 x
        /\ if Z.of_nat (length (Ctx.pool p)) <? Ctx.maxSize p
           then Ctx.pool w.1 = Ctx.pool p ++ [x]
                /\ Ctx.ctxs w.2 =
                   <[x := Ctx.set_state (length (Ctx.objs σ)) (Ctx.set_inUse false c)]>
                     (Ctx.ctxs σ)
                /\ Ctx.objs w.2 = Ctx.objs σ ++ [∅]
                /\ Ctx.state_of w.2 x = Some ∅
           else Ctx.pool w.1 = Ctx.pool p
                /\ Ctx.ctxs w.2 = <[x := Ctx.set_inUse false c]> (Ctx.ctxs σ)
                /\ Ctx.objs w.2 = Ctx.objs σ
                /\ Ctx.state_of w.2 x = Ctx.state_of σ x).
Proof.
  split; [apply release_not_in_use|].
  intros c Hc Hu w. unfold w. rewrite (release_in_use x p σ c Hc Hu).
  pose proof (lookup_lt_Some _ _ _ Hc) as Hlt.
  destruct (Z.of_nat (length (Ctx.pool p)) <? Ctx.maxSize p);
    cbn [fst snd Ctx.ctxs Ctx.objs Ctx.pool Ctx.maxSize Ctx.created].
  - split; [done|]. split; [done|]. split.
    + intros (c' & Hc' & Hu'). cbn [Ctx.ctxs] in Hc'.
      rewrite list_lookup_insert_eq in Hc' by done.
      injection Hc' as <-. done.
    + repeat split. unfold Ctx.state_of. cbn [Ctx.ctxs Ctx.objs].
      rewrite list_lookup_insert_eq by done. by apply list_lookup_middle.
  - split; [done|]. split; [done|]. split.
    + intros (c' & Hc' & Hu'). cbn [Ctx.ctxs] in Hc'.
      rewrite list_lookup_insert_eq in Hc' by done.
      injection Hc' as <-. done.
    + repeat split. unfold Ctx.state_of. cbn [Ctx.ctxs Ctx.objs].
      rewrite list_lookup_insert_eq by done. by rewrite Hc.
Qed.

Lemma release_behaviour_witness :
  Ctx.pool (Ctx.release 0%nat Demo.busy_world.1 Demo.busy_world.2).1 = [1%nat]
  /\ Ctx.state_of (Ctx.release 0%nat Demo.busy_world.1 Demo.busy_world.2).2 0%nat
     = Ctx.state_of Demo.busy_world.2 0%nat
  /\ Ctx.release 1%nat Demo.busy_world.1 Demo.busy_world.2 = Demo.busy_world.
Proof.
  destruct (release_behaviour (H:=Demo.platform) 0%nat Demo.busy_world.1 Demo.busy_world.2)
    as [_ Hin].
  destruct (release_behaviour (H:=Demo.platform) 1%nat Demo.busy_world.1 Demo.busy_world.2)
    as [Hnot _].
  split; [|split].
  - eapply (Hin _ ltac:(vm_compute; reflexivity) ltac:(reflexivity)).
  - eapply (Hin _ ltac:(vm_compute; reflexivity) ltac:(reflexivity)).
  - rewrite Hnot; [reflexivity|].
    intros (c & Hc & Hu). vm_compute in Hc. injection Hc as <-. discriminate.
Defined.

(** At capacity the state map of a released in-use context is not
    cleared: what request A wrote is still in it. *)
Lemma release_at_capacity_keeps_state :
  ~ (forall (p : Ctx.ContextPool) (σ : @Ctx.Store Demo.platform) (x : addr),
       Ctx.in_use σ x -> Ctx.state_of (Ctx.release x p σ).2 x = Some ∅).
Proof.
  intros Hclear.
  specialize (Hclear Demo.busy_world.1 Demo.busy_world.2 0%nat).
  assert (Hread : Ctx.state_read
            (Ctx.release 0%nat Demo.busy_world.1 Demo.busy_world.2).2 0%nat "user"
          = Some (VStr "alice")) by (vm_compute; reflexivity).
  unfold Ctx.state_read in Hread. rewrite Hclear in Hread.
  - simpl in Hread. rewrite lookup_empty in Hread. discriminate.
  - eexists. split; vm_compute; reflexivity.
Qed.

(** C5.  The free-list never outgrows [maxSize].  Every sequence of pool
    and context operations preserves [length pool <= maxSize] and leaves
    [maxSize] alone; the bound holds in every state reached from a new pool
    with a non-negative [maxSize], in particular after releasing any list
    of contexts, however long, from such a state. *)
Theorem pool_bounded `{Platform} :
  (forall (ops : list Ctx.Op) (w : Ctx.ContextPool * Ctx.Store),
     Z.of_nat (length (Ctx.pool w.1)) <= Ctx.maxSize w.1 ->
     Ctx.maxSize (Ctx.steps ops w).1 = Ctx.maxSize w.1
     /\ Z.of_nat (length (Ctx.pool (Ctx.steps ops w).1)) <= Ctx.maxSize w.1)
  /\ (forall (max : Z) (ops : list Ctx.Op) (σ : Ctx.Store),
        0 <= max ->
        Z.of_nat (length (Ctx.pool (Ctx.steps ops (Ctx.new_pool max, σ)).1)) <= max)
  /\ (forall (max : Z) (ops : list Ctx.Op) (xs : list addr) (σ : Ctx.Store),
        0 <= max ->
        Z.of_nat (length (Ctx.pool
          (Ctx.release_all xs (Ctx.steps ops (Ctx.new_pool max, σ))).1)) <= max).
Proof.
  split; [|split].
  - intros ops w Hb. by apply steps_bounded.
  - intros max ops σ Hmax.
    destruct (steps_bounded ops (Ctx.new_pool max, σ)) as [_ Hb]; simpl; [lia|done].
  - intros max ops xs σ Hmax. rewrite release_all_steps.
    destruct (steps_bounded ops (Ctx.new_pool max, σ)) as [Hm Hb]; simpl; [lia|].
    simpl in Hm, Hb.
    pose proof (steps_bounded (map Ctx.OpRelease xs)
                  (Ctx.steps ops (Ctx.new_pool max, σ))) as Hrel.
    rewrite Hm in Hrel. by destruct (Hrel Hb) as [_ Hb'].
Qed.

Lemma pool_bounded_witness :
  Z.of_nat (length (Ctx.pool
    (Ctx.release_all [0%nat; 1%nat; 0%nat]
       (Ctx.steps (H:=Demo.platform)
          [Ctx.OpAcquire Demo.quiet_app Demo.get_users 0%nat;
           Ctx.OpAcquire Demo.quiet_app Demo.post_login 1%nat]
          (Ctx.new_pool 1, Demo.empty_store))).1)) <= 1.
Proof.
  destruct (pool_bounded (H:=Demo.platform)) as (_ & _ & Hrel).
  apply Hrel. lia.
Defined.

(** C6.  State isolation.  Request A writes [state[k] = v] into context
    [x]; after any operations, the release of [x] and any further
    operations, an [acquire] that hands out [x] again leaves it with a
    state object that is empty, so that no key reads back, that was
    allocated by this [acquire], and that no write through an older object
    reference can reach. *)
Theorem state_isolation `{Platform} (p : Ctx.ContextPool) (σ : Ctx.Store)
    (x : addr) (k : string) (v : JsVal) (ops1 ops2 : list Ctx.Op)
    (a : Ctx.KoaXApplication) (rq : Http.IncomingMessage) (rs : ServerResponse) :
  Ctx.pool_wf p σ ->
  let w := Ctx.steps (Ctx.OpStateWrite x k v :: ops1 ++ Ctx.OpRelease x :: ops2) (p, σ) in
  let r := Ctx.acquire a rq rs w.1 w.2 in
  r.1.1 = x ->
  Ctx.state_of r.2 x = Some ∅
  /\ (forall k', Ctx.state_read r.2 x k' = None)
  /\ (exists c, Ctx.ctxs r.2 !! x = Some c
                /\ (length (Ctx.objs w.2) <= Ctx.state c)%nat)
  /\ (forall o k' v', (o < length (Ctx.objs w.2))%nat ->
        Ctx.state_of (Ctx.obj_write o k' v' r.2) x = Some ∅).
Proof.
  intros Hwf w r Hx.
  assert (Hwf' : Ctx.pool_wf w.1 w.2) by (by apply steps_wf).
  destruct (acquire_fresh_state a rq rs w.1 w.2 Hwf') as (c & Hc & Hfresh & Hobj & _).
  fold r in Hc, Hobj. rewrite Hx in Hc.
  assert (Hst : Ctx.state_of r.2 x = Some ∅).
  { unfold Ctx.state_of. rewrite Hc. simpl. exact Hobj. }
  split; [exact Hst|]. split; [|split].
  - intros k'. unfold Ctx.state_read. rewrite Hst. simpl. apply lookup_empty.
  - by exists c.
  - intros o k' v' Ho. unfold Ctx.state_of, Ctx.obj_write. simpl. rewrite Hc. simpl.
    rewrite list_lookup_alter_ne by lia. exact Hobj.
Qed.

Lemma state_isolation_witness :
  Ctx.state_read
    (Ctx.acquire Demo.quiet_app Demo.post_login 2%nat
       (Ctx.steps (H:=Demo.platform)
          [Ctx.OpStateWrite 0%nat "user" (VStr "alice"); Ctx.OpRelease 0%nat]
          (Demo.one_in_flight.1.2, Demo.one_in_flight.2)).1
       (Ctx.steps (H:=Demo.platform)
          [Ctx.OpStateWrite 0%nat "user" (VStr "alice"); Ctx.OpRelease 0%nat]
          (Demo.one_in_flight.1.2, Demo.one_in_flight.2)).2).2
    0%nat "user" = None.
Proof.
  refine (proj1 (proj2 (state_isolation (H:=Demo.platform)
     Demo.one_in_flight.1.2 Demo.one_in_flight.2
     0%nat "user" (VStr "alice") [] [] Demo.quiet_app Demo.post_login 2%nat _ _)) "user").
  - vm_compute. constructor.
  - vm_compute. reflexivity.
Defined.

(** C7 (as amended).  Every [acquire], whether it constructs the context
    or reuses a pooled one, hands out a context that is marked in use,
    bound to the new application, request and response (the request facade
    with its caches cleared, the response facade reset to the new
    response) and given an empty state object allocated by this call.
    When the application's logger is enabled the context carries the
    identifier that [generateRequestId()] produced for this call and the
    [Date.now()] read right after it; when the logger is absent or
    disabled its [requestId] is the empty string and its [startTime] is
    [0], and neither the clock nor the identifier source is consulted. *)
Theorem acquire_rebinds `{Platform} (a : Ctx.KoaXApplication)
    (rq : Http.IncomingMessage) (rs : ServerResponse)
    (p : Ctx.ContextPool) (σ : Ctx.Store) :
  Ctx.pool_wf p σ ->
  let r := Ctx.acquire a rq rs p σ in
  exists c,
    Ctx.ctxs r.2 !! r.1.1 = Some c
    /\ Ctx.app c = a /\ Ctx.req c = rq /\ Ctx.res c = rs
    /\ Ctx.request c = Request.mkKoaXRequest rq None None None
    /\ (exists old, Ctx.response c = response_reset old rs)
    /\ Ctx._inUse c = Some true
    /\ (length (Ctx.objs σ) <= Ctx.state c)%nat
    /\ Ctx.objs r.2 !! Ctx.state c = Some ∅
    /\ (if Ctx.logging a
        then Ctx.requestId c = (generateRequestId (Ctx.env σ)).1
             /\ Ctx.startTime c = (Date_now (generateRequestId (Ctx.env σ)).2).1
             /\ Ctx.env r.2 = (Date_now (generateRequestId (Ctx.env σ)).2).2
        else Ctx.requestId c = "" /\ Ctx.startTime c = 0 /\ Ctx.env r.2 = Ctx.env σ).
Proof.
  intros Hwf r.
  destruct (acquire_spec a rq rs p σ Hwf)
    as (this & σ0 & c & σ1 & Hobjs & Henv & Hr & Hc & Ho & He).
  fold r in Hc, Ho, He.
  apply reset_spec in Hr.
  destruct Hr as (Ha & Hrq & Hrs & Hreq & Hresp & Hst & _ & _ & Ho1 & _ & Hlog).
  exists (Ctx.set_inUse true c). split; [exact Hc|]. simpl.
  split; [done|]. split; [done|]. split; [done|]. split; [done|].
  split; [by eexists|]. split; [done|].
  split; [rewrite Hst; destruct Hobjs as [-> | ->]; rewrite ?length_app; simpl; lia|].
  split; [rewrite Ho, Ho1, Hst; by apply list_lookup_middle|].
  rewrite He. rewrite Henv in Hlog.
  destruct (Ctx.logging a); destruct Hlog as (? & ? & ? & ?); done.
Qed.

Lemma acquire_rebinds_witness :
  exists c,
    Ctx.ctxs (Ctx.acquire Demo.logging_app Demo.post_login 7%nat
                Demo.busy_world.1 Demo.busy_world.2).2 !! 1%nat = Some c
    /\ Ctx.req c = Demo.post_login /\ Ctx.res c = 7%nat
    /\ Ctx.requestId c = "req-1705318245123" /\ Ctx.startTime c = 1705318245124.
Proof.
  destruct (acquire_rebinds (H:=Demo.platform) Demo.logging_app Demo.post_login 7%nat
              Demo.busy_world.1 Demo.busy_world.2)
    as (c & Hc & _ & Hrq & Hrs & _ & _ & _ & _ & _ & Hid & Hts & _).
  - vm_compute. repeat constructor.
  - exists c. split; [exact Hc|]. split; [exact Hrq|]. split; [exact Hrs|].
    split; [rewrite Hid | rewrite Hts]; vm_compute; reflexivity.
Defined.

(** With the logger absent two contexts in flight at the same time carry
    the same request identifier, the empty string, and start time [0]. *)
Lemma acquire_ids_repeat :
  exists c1 c2,
    Demo.one_in_flight.1.1 <> Demo.two_in_flight.1.1
    /\ Ctx.ctxs Demo.two_in_flight.2 !! Demo.one_in_flight.1.1 = Some c1
    /\ Ctx.ctxs Demo.two_in_flight.2 !! Demo.two_in_flight.1.1 = Some c2
    /\ Ctx._inUse c1 = Some true /\ Ctx._inUse c2 = Some true
    /\ Ctx.requestId c1 = Ctx.requestId c2
    /\ Ctx.requestId c2 = ""
    /\ Ctx.startTime c2 = 0.
Proof.
  eexists _, _. split; [vm_compute; discriminate|].
  split; [vm_compute; reflexivity|]. split; [vm_compute; reflexivity|].
  repeat split.
Qed.

(* ===================================================================== *)
(** * Theorems: [Context.throw] and [KoaXRequest.fresh]                   *)
(* ===================================================================== *)

(** C8 (as amended).  [throw(status, message)] never completes: it fails
    with an error that is exposed and carries the given status; the error's
    message is the given one when that is a non-empty string and
    ["HTTP Error <status>"] when the message is omitted or empty. *)
Theorem throw_raises (status : Z) (message : option string) :
  Ctx.throw status message <> Completed
  /\ (forall m, message = Some m -> m <> "" ->
        Ctx.throw status message = Failed (ErrorObj m (Some status) true))
  /\ (message = None \/ message = Some "" ->
        Ctx.throw status message =
        Failed (ErrorObj ("HTTP Error " +:+ pretty status) (Some status) true)).
Proof.
  unfold Ctx.throw. split; [discriminate|]. split.
  - intros m -> Hm. simpl. destruct (decide (m = "")); [done | reflexivity].
  - intros [-> | ->]; reflexivity.
Qed.

Lemma throw_raises_witness :
  Ctx.throw 418 (Some "teapot") = Failed (ErrorObj "teapot" (Some 418) true)
  /\ Ctx.throw 404 None = Failed (ErrorObj "HTTP Error 404" (Some 404) true).
Proof.
  split.
  - apply (proj1 (proj2 (throw_raises 418 (Some "teapot"))) "teapot");
      [reflexivity | discriminate].
  - apply (proj2 (proj2 (throw_raises 404 None))). by left.
Defined.

(** An empty message is given, not omitted, yet the error does not carry
    it. *)
Lemma throw_empty_message :
  ~ (forall (status : Z) (m : string),
       Ctx.throw status (Some m) = Failed (ErrorObj m (Some status) true)).
Proof. intros Hc. specialize (Hc 400 ""). vm_compute in Hc. discriminate. Qed.

(** C9 (as amended).  [fresh] is true exactly when the request method (as
    the [method] getter reports it) is GET or HEAD and the status code
    peeked from the socket's outbound message, taken as 200 when it is
    absent or zero, lies in 200..299 or is 304.  It depends on nothing
    but the method and the socket, so on no header, and [stale] is its
    negation. *)
Theorem fresh_by_status (q : Request.KoaXRequest) :
  (Request.fresh q = true <->
   (Request.get_method q = "GET" \/ Request.get_method q = "HEAD")
   /\ (200 <= num_or (Request.peek_status q) 200 < 300
       \/ num_or (Request.peek_status q) 200 = 304))
  /\ (forall q' : Request.KoaXRequest,
        Http.method (Request.req q') = Http.method (Request.req q) ->
        Http.socket (Request.req q') = Http.socket (Request.req q) ->
        Request.fresh q' = Request.fresh q)
  /\ Request.stale q = negb (Request.fresh q).
Proof.
  split; [|split; [|reflexivity]].
  - unfold Request.fresh.
    destruct (decide (Request.get_method q = "GET")) as [Hg|Hg];
    destruct (decide (Request.get_method q = "HEAD")) as [Hh|Hh].
    1-3: rewrite bool_decide_eq_false_2 by tauto.
    4: rewrite bool_decide_eq_true_2 by tauto.
    4: { split; [discriminate | tauto]. }
    all: destruct (Z.leb_spec 200 (num_or (Request.peek_status q) 200));
         destruct (Z.ltb_spec (num_or (Request.peek_status q) 200) 300);
         destruct (Z.eqb_spec (num_or (Request.peek_status q) 200) 304);
         simpl; split; try discriminate; try lia; intros; try reflexivity; tauto || lia.
  - intros q' Hm Hs. unfold Request.fresh, Request.get_method, Request.peek_status.
    rewrite Hm, Hs. reflexivity.
Qed.

Lemma fresh_by_status_witness :
  Request.fresh (Request.new
    (Http.mkIncomingMessage (Some "GET") (Some "/") {["if-none-match" := Http.HStr "abc"]}
       (Some (Http.mkSocket false None (Some (Http.mkOutgoingMessage (Some 304)))))))
  = Request.fresh (Request.new
    (Http.mkIncomingMessage (Some "GET") (Some "/") ∅
       (Some (Http.mkSocket false None (Some (Http.mkOutgoingMessage (Some 304))))))).
Proof.
  apply (proj1 (proj2 (fresh_by_status _))); reflexivity.
Defined.

(** A status code of zero is present and outside 200..299 and 304, yet
    the request counts as fresh. *)
Lemma fresh_status_zero :
  ~ (forall q : Request.KoaXRequest,
       Request.fresh q = true <->
       (Request.get_method q = "GET" \/ Request.get_method q = "HEAD")
       /\ (200 <= default 200 (Request.peek_status q) < 300
           \/ default 200 (Request.peek_status q) = 304)).
Proof.
  intros Hc.
  specialize (Hc (Request.new
    (Http.mkIncomingMessage (Some "GET") (Some "/") ∅
       (Some (Http.mkSocket false None (Some (Http.mkOutgoingMessage (Some 0)))))))).
  destruct Hc as [Hc _]. specialize (Hc ltac:(reflexivity)).
  simpl in Hc. lia.
Qed.

(* ===================================================================== *)
(** * Theorems: the router                                                *)
(* ===================================================================== *)

Section RouterFacts.

Import Ctx Router.

Context `{Platform}.
Implicit Types (s t : RState) (r : Route) (m : list (option string)).

Lemma params_obj_dom m names : forall i (obj : PlainObj),
  dom (params_obj m i names obj)
  = dom obj ∪ (list_to_set names ∖ {["__proto__"]}).
Proof.
  induction names as [|name rest IH]; intros i obj; simpl.
  - apply set_eq. intros x. rewrite elem_of_union, elem_of_difference.
    rewrite elem_of_empty. tauto.
  - rewrite IH. apply set_eq. intros x.
    rewrite !elem_of_union, !elem_of_difference, elem_of_union, !elem_of_singleton.
    destruct (decide (name = "__proto__")) as [->|Hne].
    + tauto.
    + rewrite dom_insert_L, elem_of_union, elem_of_singleton.
      split; [|tauto]. intros [[->|?]|?]; tauto.
Qed.

Lemma params_obj_notin m names name : forall i (obj : PlainObj),
  name ∉ names -> params_obj m i names obj !! name = obj !! name.
Proof.
  induction names as [|n rest IH]; intros i obj Hn; simpl; [done|].
  apply not_elem_of_cons in Hn as [Hne Hn].
  rewrite IH by done. destruct (decide (n = "__proto__")); [done|].
  by rewrite lookup_insert_ne.
Qed.

Lemma params_obj_lookup m names : forall i (obj : PlainObj) k name,
  names !! k = Some name -> name <> "__proto__" -> name ∉ drop (S k) names ->
  params_obj m i names obj !! name = Some (group m (i + k + 1)).
Proof.
  induction names as [|n rest IH]; intros i obj k name Hk Hproto Hlast; [done|].
  destruct k as [|k]; simpl in *.
  - injection Hk as ->. rewrite drop_0 in Hlast.
    rewrite params_obj_notin by done. destruct (decide (name = "__proto__")); [done|].
    rewrite lookup_insert_eq. by rewrite Nat.add_0_r.
  - rewrite (IH (S i) _ k name Hk Hproto Hlast). do 2 f_equal. lia.
Qed.

Lemma assign_params_store o m names : forall i (σ : Store),
  assign_params o m i names σ =
  mkStore (alter (params_obj m i names) o (objs σ)) (ctxs σ) (env σ).
Proof.
  induction names as [|name rest IH]; intros i σ; simpl.
  - destruct σ as [ob cs e]; simpl. f_equal.
    symmetry. apply list_alter_id. done.
  - rewrite IH. unfold param_write, obj_write.
    destruct (decide (name = "__proto__")); [done|]. simpl. f_equal.
    rewrite list_alter_alter_eq. reflexivity.
Qed.

Lemma extract_params_spec names m s :
  extract_params names m s =
  (set_params (Some (length (objs s.2))) s.1,
   mkStore (objs s.2 ++ [params_obj m 0 names ∅]) (ctxs s.2) (env s.2)).
Proof.
  unfold extract_params, alloc_obj, array_push. rewrite assign_params_store. simpl.
  do 2 f_equal.
  rewrite <- (Nat.add_0_r (length (objs s.2))) at 1.
  by rewrite alter_app_r.
Qed.

Lemma ctx_path_cached s : ctx_path (ctx_path s).2 = ctx_path s.
Proof.
  destruct s as [c σ]. destruct c. unfold ctx_path, Request.get_path. simpl.
  destruct request0 as [rq u [p|] q]; reflexivity.
Qed.

Lemma ctx_path_frame s :
  ctx_method (ctx_path s).2 = ctx_method s
  /\ params (ctx_path s).2.1 = params s.1
  /\ (ctx_path s).2.2 = s.2.
Proof.
  destruct s as [c σ]. destruct c. unfold ctx_path, ctx_method, Request.get_path. simpl.
  destruct request0 as [rq u [p|] q]; done.
Qed.

Lemma prepared_bound r m s :
  params s.1 = None -> params_bound r m (objs s.2) (prepared r m s).
Proof.
  intros Hnone. unfold prepared, params_bound.
  destruct (decide (0 < length (paramNames r))%nat) as [Hpos|Hzero].
  - rewrite extract_params_spec. simpl. split.
    + intros Hnil. rewrite Hnil in Hpos. simpl in Hpos. lia.
    + intros _. exists (params_obj m 0 (paramNames r) ∅).
      split; [done|]. split; [done|]. split.
      * by rewrite params_obj_dom, dom_empty_L, union_empty_l_L.
      * intros k name Hk Hproto Hlast.
        rewrite (params_obj_lookup _ _ 0 _ k) by done.
        replace (0 + k + 1)%nat with (S k) by lia.
        unfold group. by destruct (m !! S k) as [[segment|]|].
  - split; [done|]. intros Hne. destruct (paramNames r); [done | simpl in Hzero; lia].
Qed.

Lemma routes_loop_none (rl : list Route) next : forall t,
  Forall (fun r => matching (ctx_method t) (ctx_path t).1 r = None) rl ->
  routes_loop rl next t = next t \/ routes_loop rl next t = next (ctx_path t).2.
Proof.
  induction rl as [|r rl IH]; intros t Hall; [by left|].
  apply Forall_cons in Hall as [Hr Hall]. simpl.
  destruct (decide (method r <> ctx_method t)) as [Hm|Hm]; [by apply IH|].
  unfold matching in Hr. destruct (decide (method r = ctx_method t)); [|done].
  destruct (ctx_path t) as [path t1] eqn:Hp. simpl in Hr. rewrite Hr.
  pose proof (ctx_path_cached t) as Hc. pose proof (ctx_path_frame t) as (Hf & _).
  rewrite Hp in Hc, Hf. simpl in Hc, Hf, Hall.
  destruct (IH t1) as [-> | ->]; [by rewrite Hf, Hc | by right |].
  right. by rewrite Hc.
Qed.

Lemma routes_loop_match (before after : list Route) r m next : forall t,
  Forall (fun r' => matching (ctx_method t) (ctx_path t).1 r' = None) before ->
  matching (ctx_method t) (ctx_path t).1 r = Some m ->
  routes_loop (before ++ r :: after) next t =
  handler r next (prepared r m (ctx_path t).2).
Proof.
  induction before as [|r0 before IH]; intros t Hall Hr.
  - simpl. unfold matching in Hr.
    destruct (decide (method r = ctx_method t)) as [Hm|]; [|done].
    destruct (decide (method r <> ctx_method t)); [done|].
    destruct (ctx_path t) as [path t1]. simpl in Hr. rewrite Hr. reflexivity.
  - apply Forall_cons in Hall as [Hr0 Hall]. simpl.
    destruct (decide (method r0 <> ctx_method t)) as [Hm|Hm]; [by apply IH|].
    unfold matching in Hr0. destruct (decide (method r0 = ctx_method t)); [|done].
    pose proof (ctx_path_cached t) as Hc. pose proof (ctx_path_frame t) as (Hf & _).
    destruct (ctx_path t) as [path t1] eqn:Hp. simpl in Hr0. rewrite Hr0.
    simpl in Hc, Hf, Hall, Hr.
    rewrite (IH t1); [by rewrite Hc | by rewrite Hf, Hc | by rewrite Hf, Hc].
Qed.

Lemma nested_loop_none (rl : list Route) next : forall t,
  Forall (fun r => matching (ctx_method t) (ctx_path t).1 r = None) rl ->
  nested_loop rl next t = next t \/ nested_loop rl next t = next (ctx_path t).2.
Proof.
  induction rl as [|r rl IH]; intros t Hall; [by left|].
  apply Forall_cons in Hall as [Hr Hall]. simpl.
  destruct (decide (method r <> ctx_method t)) as [Hm|Hm]; [by apply IH|].
  unfold matching in Hr. destruct (decide (method r = ctx_method t)); [|done].
  destruct (ctx_path t) as [path t1] eqn:Hp. simpl in Hr. rewrite Hr.
  pose proof (ctx_path_cached t) as Hc. pose proof (ctx_path_frame t) as (Hf & _).
  rewrite Hp in Hc, Hf. simpl in Hc, Hf, Hall.
  destruct (IH t1) as [-> | ->]; [by rewrite Hf, Hc | by right |].
  right. by rewrite Hc.
Qed.

Lemma nested_loop_match (before after : list Route) r m next : forall t,
  Forall (fun r' => matching (ctx_method t) (ctx_path t).1 r' = None) before ->
  matching (ctx_method t) (ctx_path t).1 r = Some m ->
  nested_loop (before ++ r :: after) next t =
  handler r next (nested_prepared r m (ctx_path t).2).
Proof.
  induction before as [|r0 before IH]; intros t Hall Hr.
  - simpl. unfold matching in Hr.
    destruct (decide (method r = ctx_method t)) as [Hm|]; [|done].
    destruct (decide (method r <> ctx_method t)); [done|].
    destruct (ctx_path t) as [path t1]. simpl in Hr. rewrite Hr. reflexivity.
  - apply Forall_cons in Hall as [Hr0 Hall]. simpl.
    destruct (decide (method r0 <> ctx_method t)) as [Hm|Hm]; [by apply IH|].
    unfold matching in Hr0. destruct (decide (method r0 = ctx_method t)); [|done].
    pose proof (ctx_path_cached t) as Hc. pose proof (ctx_path_frame t) as (Hf & _).
    destruct (ctx_path t) as [path t1] eqn:Hp. simpl in Hr0. rewrite Hr0.
    simpl in Hc, Hf, Hall, Hr.
    rewrite (IH t1); [by rewrite Hc | by rewrite Hf, Hc | by rewrite Hf, Hc].
Qed.

Lemma nested_prepared_bound r m s :
  params s.1 = None ->
  params_bound r m (objs s.2) (nested_prepared r m s)
  /\ request_params (nested_prepared r m s).1 = params (nested_prepared r m s).1.
Proof.
  intros Hnone. unfold nested_prepared.
  pose proof (prepared_bound r m (set_matchedRoute (Some (pattern r)) s.1, s.2) Hnone)
    as Hb.
  split; [exact Hb | reflexivity].
Qed.

End RouterFacts.

Section RouterParams.

Import Ctx Router.

Context `{Platform}.
Implicit Types (s t : RState) (r : Route) (m : list (option string)).

Lemma ctx_path_request (c1 c2 : Context) (σ1 σ2 : Store) :
  request c1 = request c2 ->
  ctx_method (c1, σ1) = ctx_method (c2, σ2)
  /\ (ctx_path (c1, σ1)).1 = (ctx_path (c2, σ2)).1.
Proof.
  intros Hq. unfold ctx_method, ctx_path. simpl. rewrite Hq.
  by destruct (Request.get_path (request c2)).
Qed.

End RouterParams.




(* ===================================================================== *)
(** * Theorems: strings and the request facade                            *)
(* ===================================================================== *)

Section StringFacts.

Import JsString.

Lemma split_nonempty sep s : split sep s <> [].
Proof.
  destruct s as [|c s]; simpl; [done|].
  destruct (decide (c = sep)); [done|]. by destruct (split sep s).
Qed.

(** Joining the pieces with the separator gives the string back. *)
Lemma join_split sep s : join (String sep EmptyString) (split sep s) = s.
Proof.
  unfold join. induction s as [|c s IH]; simpl; [done|].
  destruct (decide (c = sep)) as [->|Hne].
  - pose proof (split_nonempty sep s) as Hne.
    destruct (split sep s) as [|p ps]; [done|]. simpl in *. by rewrite IH.
  - destruct (split sep s) as [|p ps] eqn:Hs; [by destruct (split_nonempty sep s)|].
    destruct ps; simpl in *; by rewrite <- IH.
Qed.

(** No piece holds the separator. *)
Lemma split_pieces sep s : Forall (fun p => has_char sep p = false) (split sep s).
Proof.
  induction s as [|c s IH]; simpl; [by repeat constructor|].
  destruct (decide (c = sep)) as [->|Hne]; [by constructor|].
  destruct (split sep s) as [|p ps]; [by repeat constructor; simpl; destruct (decide _)|].
  apply Forall_cons in IH as [Hp Hps]. constructor; [|done].
  simpl. by destruct (decide (c = sep)).
Qed.

(** There is one piece more than there are separators. *)
Lemma split_length sep s : length (split sep s) = S (count_char sep s).
Proof.
  induction s as [|c s IH]; simpl; [done|].
  destruct (decide (c = sep)); simpl; [by rewrite IH|].
  destruct (split sep s); simpl in *; done.
Qed.

(** The first piece is what precedes the first separator. *)
Lemma split_head sep s :
  exists rest,
    s = default EmptyString (head (split sep s)) +:+ rest
    /\ (rest = EmptyString \/ exists r, rest = String sep r).
Proof.
  induction s as [|c s (rest & Hs & Hrest)]; simpl.
  - exists EmptyString. auto.
  - destruct (decide (c = sep)) as [->|Hne]; simpl.
    + exists (String sep s). eauto.
    + destruct (split sep s) as [|p ps]; simpl in *.
      * exists s. split; [done|]. subst s. exact Hrest.
      * exists rest. split; [by rewrite Hs at 1|done].
Qed.

Lemma prefix_spec sub s : String.prefix sub s = true <-> exists post, s = sub +:+ post.
Proof.
  revert s. induction sub as [|c sub IH]; intros s; simpl.
  - split; [intros _; by exists s | by destruct s].
  - destruct s as [|d s]; simpl;
      [split; [done | intros [? Hp]; simpl in Hp; discriminate]|].
    destruct (Ascii.ascii_dec c d) as [->|Hne].
    + rewrite IH. split; intros [post Hp]; exists post;
        [by rewrite Hp | by injection Hp].
    + split; [done|]. intros [post Hp]. simpl in Hp. injection Hp as Hcd _. done.
Qed.

Lemma includes_unfold s sub :
  includes s sub =
  if String.prefix sub s then true
  else match s with
       | EmptyString => false
       | String _ s' => includes s' sub
       end.
Proof. by destruct s. Qed.

(** [includes] is the substring test. *)
Lemma includes_spec s sub :
  includes s sub = true <-> exists pre post, s = pre +:+ sub +:+ post.
Proof.
  induction s as [|c s IH]; rewrite includes_unfold.
  - destruct (String.prefix sub EmptyString) eqn:Hp.
    + apply prefix_spec in Hp as [post Hp]. split; [|done].
      intros _. by exists EmptyString, post.
    + split; [done|]. intros (pre & post & He).
      destruct pre; simpl in He; [|done].
      assert (String.prefix sub EmptyString = true) by (apply prefix_spec; eauto).
      congruence.
  - destruct (String.prefix sub (String c s)) eqn:Hp.
    + apply prefix_spec in Hp as [post Hp]. split; [|done].
      intros _. by exists EmptyString, post.
    + rewrite IH. split.
      * intros (pre & post & ->). by exists (String c pre), post.
      * intros (pre & post & He). destruct pre as [|d pre]; simpl in He.
        -- assert (String.prefix sub (String c s) = true) by (apply prefix_spec; eauto).
           congruence.
        -- injection He as -> ->. by exists pre, post.
Qed.

End StringFacts.

Section RequestFacts.

Import Http Request RequestApi JsString.
Import Stdlib.Strings.Ascii.

Context `{Platform} `{WebLib}.
Implicit Types (q : KoaXRequest) (r : IncomingMessage).

Lemma step_coherent op q : coherent q -> coherent (step op q).
Proof.
  intros [Hp Hq].
  destruct op as [v|v|v|obj| | |r]; simpl.
  - split; intros ? [=].
  - split; [exact Hp | exact Hq].
  - split; intros ? [=].
  - split; intros ? [=].
  - unfold get_path. destruct (_path q) as [p|] eqn:Ep; simpl.
    + split; [intros p0 Hp0; rewrite Ep in Hp0; by apply Hp | exact Hq].
    + split; simpl; [by intros ? [= <-] | exact Hq].
  - unfold get_query. destruct (_query q) as [m|] eqn:Eq; simpl.
    + split; [exact Hp | intros m0 Hm0; rewrite Eq in Hm0; by apply Hq].
    + split; simpl; [exact Hp | by intros ? [= <-]].
  - split; intros ? [=].
Qed.

Lemma steps_coherent ops : forall q, coherent q -> coherent (steps ops q).
Proof.
  induction ops as [|op ops IH]; intros q Hq; [done|].
  unfold steps. simpl. apply IH. by apply step_coherent.
Qed.



(** X3.  [hostname] is what precedes the first colon of [host]: it holds no
    colon, and [host] is [hostname] alone or [hostname] followed by a
    colon and more. *)
Theorem hostname_before_colon (q : KoaXRequest) :
  has_char ":"%char (hostname q) = false
  /\ exists rest,
       host q = hostname q +:+ rest
       /\ (rest = "" \/ exists more, rest = String ":"%char more).
Proof.
  unfold hostname. split.
  - pose proof (split_pieces ":"%char (host q)) as Hall.
    pose proof (split_nonempty ":"%char (host q)) as Hne.
    destruct (split ":"%char (host q)) as [|p ps]; [done|].
    by apply Forall_cons in Hall as [Hp _].
  - apply split_head.
Qed.

(** X4.  [ips] is the empty array exactly when the [x-forwarded-for] header is
    missing or the empty string; a non-empty string gives one address per
    comma-separated piece; an array header gives the pieces of its first
    element, and an empty array makes the getter throw. *)
Theorem ips_pieces (q : KoaXRequest) :
  (ips q = Returns [] <->
   get "x-forwarded-for" q = None \/ get "x-forwarded-for" q = Some (HStr ""))
  /\ (forall s, get "x-forwarded-for" q = Some (HStr s) -> s <> "" ->
        exists l, ips q = Returns l /\ length l = S (count_char ","%char s))
  /\ (forall s rest, get "x-forwarded-for" q = Some (HArr (s :: rest)) ->
        exists l, ips q = Returns l /\ length l = S (count_char ","%char s))
  /\ (get "x-forwarded-for" q = Some (HArr []) -> ips q = Throws TypeError).
Proof.
  unfold ips. split; [|split; [|split]].
  - destruct (get "x-forwarded-for" q) as [[s|l]|]; [| |split; auto].
    + destruct (decide (s = "")) as [->|Hs]; [split; auto|].
      split; [|intros [[=]|[= ->]]; done].
      intros [= Hm]. apply map_eq_nil in Hm. by destruct (split_nonempty ","%char s).
    + split; [|intros [[=]|[=]]]. destruct l as [|s l]; simpl; [done|].
      intros [= Hm]. apply map_eq_nil in Hm. by destruct (split_nonempty ","%char s).
  - intros s -> Hs. destruct (decide (s = "")); [done|].
    eexists. split; [reflexivity|]. by rewrite length_map, split_length.
  - intros s rest ->. simpl. eexists. split; [reflexivity|].
    by rewrite length_map, split_length.
  - by intros ->.
Qed.

End RequestFacts.

Lemma ips_pieces_witness :
  RequestApi.ips (H0:=DemoWeb.weblib) (Request.new DemoWeb.proxied)
  = JsString.Returns ["10.0.0.1"; "10.0.0.2"].
Proof.
  destruct (ips_pieces (H0:=DemoWeb.weblib) (Request.new DemoWeb.proxied))
    as (_ & Hstr & _ & _).
  destruct (Hstr "10.0.0.1, 10.0.0.2") as (l & Hl & _);
    [vm_compute; reflexivity | discriminate |].
  rewrite Hl. vm_compute in Hl. injection Hl as <-. reflexivity.
Defined.

(* ===================================================================== *)
(** * Theorems: more on the context pool                                  *)
(* ===================================================================== *)

Section PoolInvariants.

Import Http Ctx PoolInv.

Context `{Platform}.
Implicit Types (p : ContextPool) (σ : Store) (c : Context) (x y : addr).

(** X5.  Releasing a context twice is releasing it once. *)
Theorem release_idempotent x p σ :
  release x (release x p σ).1 (release x p σ).2 = release x p σ.
Proof.
  destruct (ctxs σ !! x) as [c|] eqn:Hc.
  - destruct (_inUse c) as [[|]|] eqn:Hu.
    + rewrite (release_in_use x p σ c Hc Hu).
      pose proof (lookup_lt_Some _ _ _ Hc) as Hlt.
      destruct (Z.of_nat (length (pool p)) <? maxSize p);
        cbn [fst snd]; apply release_not_in_use;
        intros (c' & Hc' & Hu'); cbn [ctxs] in Hc';
        rewrite list_lookup_insert_eq in Hc' by done;
        injection Hc' as <-; done.
    + assert (Hn : ~ in_use σ x) by (intros (c' & Hc' & Hu'); congruence).
      rewrite (release_not_in_use x p σ Hn). by apply release_not_in_use.
    + assert (Hn : ~ in_use σ x) by (intros (c' & Hc' & Hu'); congruence).
      rewrite (release_not_in_use x p σ Hn). by apply release_not_in_use.
  - assert (Hn : ~ in_use σ x) by (intros (c' & Hc' & Hu'); congruence).
    rewrite (release_not_in_use x p σ Hn). by apply release_not_in_use.
Qed.

Lemma reset_objs this a rq rs σ :
  objs (reset this a rq rs σ).2 = objs σ ++ [∅]
  /\ ctxs (reset this a rq rs σ).2 = ctxs σ.
Proof.
  destruct (reset this a rq rs σ) as [c σ'] eqn:Hr. apply reset_spec in Hr.
  destruct Hr as (_ & _ & _ & _ & _ & _ & _ & _ & Ho & Hc & _). done.
Qed.

(** X6.  [acquire] touches the context it hands out and nothing else: every
    other context and every plain object that existed is as it was.
    [release] touches the released context only. *)
Theorem pool_ops_frame a rq rs x p σ :
  (forall y, y <> (acquire a rq rs p σ).1.1 ->
     ctxs (acquire a rq rs p σ).2 !! y = ctxs σ !! y)
  /\ (forall o, (o < length (objs σ))%nat ->
        objs (acquire a rq rs p σ).2 !! o = objs σ !! o)
  /\ (forall y, y <> x -> ctxs (release x p σ).2 !! y = ctxs σ !! y)
  /\ (forall o, (o < length (objs σ))%nat ->
        objs (release x p σ).2 !! o = objs σ !! o).
Proof.
  split; [|split; [|split]].
  - destruct (pool p) as [|z l _] eqn:Hp using rev_ind.
    + destruct (acquire_empty a rq rs p σ Hp) as (c & σ1 & _ & ->). simpl.
      intros y Hy. destruct (decide (y < length (ctxs σ))%nat).
      * by rewrite lookup_app_l.
      * rewrite !lookup_ge_None_2; [done| lia |]. rewrite length_app. simpl. lia.
    + destruct (ctxs σ !! z) as [c|] eqn:Hz.
      * destruct (acquire_pooled a rq rs p σ l z c Hp Hz) as (c' & σ1 & _ & ->).
        simpl. intros y Hy. by rewrite list_lookup_insert_ne.
      * unfold acquire. rewrite Hp, array_pop_snoc, Hz. done.
  - intros o Ho. destruct (pool p) as [|z l _] eqn:Hp using rev_ind.
    + destruct (acquire_empty a rq rs p σ Hp) as (c & σ1 & Hn & ->). simpl.
      unfold new_Context in Hn. simpl in Hn.
      pose proof (reset_objs
        (mkContext a rq rs (Request.new rq) (response_new rs) (length (objs σ))
           None None "" 0 None None None None None) a rq rs
        (mkStore (array_push (objs σ) ∅) (ctxs σ) (env σ))) as [Ho1 _].
      rewrite Hn in Ho1. simpl in Ho1. rewrite Ho1. unfold array_push.
      rewrite !lookup_app_l; [done | lia |]. rewrite length_app. simpl. lia.
    + destruct (ctxs σ !! z) as [c|] eqn:Hz.
      * destruct (acquire_pooled a rq rs p σ l z c Hp Hz) as (c' & σ1 & Hr & ->).
        simpl. pose proof (reset_objs c a rq rs σ) as [Ho1 _].
        rewrite Hr in Ho1. simpl in Ho1. rewrite Ho1. by rewrite lookup_app_l.
      * unfold acquire. rewrite Hp, array_pop_snoc, Hz. done.
  - intros y Hy. unfold release. destruct (ctxs σ !! x) as [c|]; [|done].
    destruct (not_inUse c); [done|].
    destruct (_ <? _); cbn [snd ctxs alloc_obj]; by rewrite list_lookup_insert_ne.
  - intros o Ho. unfold release. destruct (ctxs σ !! x) as [c|]; [|done].
    destruct (not_inUse c); [done|].
    destruct (_ <? _); cbn [snd objs alloc_obj fst]; [|done].
    unfold array_push. by rewrite lookup_app_l.
Qed.

Lemma acquire_safe a rq rs p σ :
  pool_safe p σ -> pool_safe (acquire a rq rs p σ).1.2 (acquire a rq rs p σ).2.
Proof.
  intros (Hwf & Hnd & Hfree). split; [by apply acquire_wf|].
  destruct (pool p) as [|z l _] eqn:Hp using rev_ind.
  - destruct (acquire_empty a rq rs p σ Hp) as (c & σ1 & _ & ->). simpl.
    split; constructor.
  - apply NoDup_app in Hnd as (Hl & Hzl & _).
    apply Forall_app in Hfree as [Hfl _].
    destruct (pool_ops_frame a rq rs 0%nat p σ) as (Hframe & _).
    destruct (acquire_pops a rq rs p σ l z Hp) as (σ' & Ha & _).
    rewrite Ha in Hframe |- *. simpl in *. split; [done|].
    rewrite Forall_forall in Hfl |- *. intros y Hy (c & Hc & Hu).
    apply (Hfl y Hy). exists c. split; [|done].
    rewrite <- Hframe; [done|]. intros ->. apply (Hzl z); [done | by apply list_elem_of_singleton].
Qed.

Lemma release_safe x p σ :
  pool_safe p σ -> pool_safe (release x p σ).1 (release x p σ).2.
Proof.
  intros (Hwf & Hnd & Hfree). split; [by apply release_wf|].
  destruct (ctxs σ !! x) as [c|] eqn:Hc;
    [destruct (_inUse c) as [[|]|] eqn:Hu|];
    try (rewrite release_not_in_use; [done|]; intros (c' & Hc' & Hu'); congruence).
  assert (Hx : x ∉ pool p).
  { intros Hin. rewrite Forall_forall in Hfree. apply (Hfree x Hin). by exists c. }
  pose proof (lookup_lt_Some _ _ _ Hc) as Hlt.
  assert (Hkeep : forall σ', (forall y, y <> x -> ctxs σ' !! y = ctxs σ !! y) ->
            Forall (fun y => ~ in_use σ' y) (pool p)).
  { intros σ' Hsame. rewrite Forall_forall in Hfree |- *.
    intros y Hy (c' & Hc' & Hu'). apply (Hfree y Hy). exists c'. split; [|done].
    rewrite <- Hsame; [done|]. by intros ->. }
  rewrite (release_in_use x p σ c Hc Hu).
  destruct (Z.of_nat (length (pool p)) <? maxSize p); cbn [fst snd pool].
  - split.
    + apply NoDup_app. split; [done|]. split; [|apply NoDup_singleton].
      intros y Hy Hy'. apply list_elem_of_singleton in Hy'. by subst y.
    + apply Forall_app. split.
      * apply Hkeep. intros y Hy. cbn [ctxs]. by rewrite list_lookup_insert_ne.
      * constructor; [|constructor]. intros (c' & Hc' & Hu'). cbn [ctxs] in Hc'.
        rewrite list_lookup_insert_eq in Hc' by done. injection Hc' as <-. done.
  - split; [done|]. apply Hkeep. intros y Hy. cbn [ctxs].
    by rewrite list_lookup_insert_ne.
Qed.

Lemma steps_safe ops : forall (w : ContextPool * Store),
  pool_safe w.1 w.2 -> pool_safe (steps ops w).1 (steps ops w).2.
Proof.
  induction ops as [|op ops IH]; intros w Hs; [done|].
  unfold steps. simpl. fold (steps ops (step op w)). apply IH.
  destruct op as [a rq rs|x|x k v|o k v]; simpl.
  - pose proof (acquire_safe a rq rs w.1 w.2 Hs) as Ha.
    by destruct (acquire a rq rs w.1 w.2) as [[y p'] σ'].
  - by apply release_safe.
  - destruct Hs as (Hwf & Hnd & Hfree). unfold pool_safe, pool_wf, in_use.
    by rewrite state_write_ctxs.
  - done.
Qed.

(** X7.  No context is handed out twice.  In every state reached from a new
    pool by pool and context operations, the context that [acquire] hands
    out was not in use before the call, is in use after it and is no longer
    on the free-list. *)
Theorem acquire_exclusive (max : Z) (σ0 : Store) (ops : list Op)
    a rq rs :
  let w := steps ops (new_pool max, σ0) in
  let r := acquire a rq rs w.1 w.2 in
  ~ in_use w.2 r.1.1
  /\ in_use r.2 r.1.1
  /\ r.1.1 ∉ pool r.1.2.
Proof.
  intros w r.
  assert (Hs : pool_safe w.1 w.2).
  { apply steps_safe. split; [constructor|]. split; constructor. }
  destruct Hs as (Hwf & Hnd & Hfree).
  destruct (acquire_spec a rq rs w.1 w.2 Hwf) as (this & σa & c & σb & _ & _ & _ & Hc & _).
  fold r in Hc.
  split; [|split].
  - unfold r. destruct (pool w.1) as [|z l _] eqn:Hp using rev_ind.
    + destruct (acquire_empty a rq rs w.1 w.2 Hp) as (c1 & σ1 & _ & ->). simpl.
      intros (c' & Hc' & _). apply lookup_lt_Some in Hc'. lia.
    + destruct (acquire_pops a rq rs w.1 w.2 l z Hp) as (σ' & -> & _). simpl.
      apply Forall_app in Hfree as [_ Hz]. rewrite Forall_singleton in Hz. exact Hz.
  - by exists (set_inUse true c).
  - unfold r. destruct (pool w.1) as [|z l _] eqn:Hp using rev_ind.
    + destruct (acquire_empty a rq rs w.1 w.2 Hp) as (c1 & σ1 & _ & ->). simpl.
      apply not_elem_of_nil.
    + destruct (acquire_pops a rq rs w.1 w.2 l z Hp) as (σ' & -> & _). simpl.
      apply NoDup_app in Hnd as (_ & Hzl & _). intros Hin.
      apply (Hzl z Hin). by apply list_elem_of_singleton.
Qed.

Lemma step_created op (w : ContextPool * Store) :
  created w.1 = length (ctxs w.2) ->
  created (step op w).1 = length (ctxs (step op w).2)
  /\ (created w.1 <= created (step op w).1)%nat.
Proof.
  intros Hc. destruct op as [a rq rs|x|x k v|o k v]; simpl.
  - destruct (pool w.1) as [|z l _] eqn:Hp using rev_ind.
    + destruct (acquire_empty a rq rs w.1 w.2 Hp) as (c & σ1 & _ & ->). simpl.
      rewrite length_app. simpl. lia.
    + destruct (acquire_pops a rq rs w.1 w.2 l z Hp) as (σ' & -> & Hl). simpl. lia.
  - pose proof (release_frame x w.1 w.2) as (_ & Hcr & Hl & _). lia.
  - rewrite state_write_ctxs. lia.
  - lia.
Qed.

Lemma steps_created ops : forall (w : ContextPool * Store),
  created w.1 = length (ctxs w.2) ->
  created (steps ops w).1 = length (ctxs (steps ops w).2)
  /\ (created w.1 <= created (steps ops w).1)%nat.
Proof.
  induction ops as [|op ops IH]; intros w Hc; [done|].
  unfold steps. simpl. fold (steps ops (step op w)).
  destruct (step_created op w Hc) as [Hc1 Hle].
  destruct (IH (step op w) Hc1) as [Hc2 Hle2]. split; [done | lia].
Qed.

(** X8.  The statistics are consistent.  In every state reached from a new
    pool with a non-negative [maxSize] over a store without contexts,
    [getStats] reports the configured [maxSize], a [created] that is the
    number of contexts constructed so far, and a [poolSize] that exceeds
    neither; [created] never goes down. *)
Theorem getStats_consistent (max : Z) (e : Env) (ops more : list Op) :
  0 <= max ->
  let w := steps ops (new_pool max, empty_store e) in
  (getStats w.1).2 = max
  /\ (getStats w.1).1.2 = length (ctxs w.2)
  /\ ((getStats w.1).1.1 <= (getStats w.1).1.2)%nat
  /\ Z.of_nat (getStats w.1).1.1 <= max
  /\ ((getStats w.1).1.2 <= (getStats (steps more w).1).1.2)%nat.
Proof.
  intros Hmax w. unfold getStats. simpl.
  destruct (steps_bounded ops (new_pool max, empty_store e)) as [Hm Hb]; [simpl; lia|].
  destruct (steps_created ops (new_pool max, empty_store e)) as [Hc _]; [done|].
  destruct (steps_created more w) as [_ Hmono]; [done|].
  assert (Hs : pool_safe w.1 w.2).
  { apply steps_safe. split; [constructor|]. split; constructor. }
  destruct Hs as (Hwf & Hnd & _).
  fold w in Hm, Hb, Hc. simpl in Hm, Hb.
  split; [done|]. split; [done|]. split; [|split; [done | done]].
  rewrite Hc.
  replace (length (ctxs w.2)) with (length (seq 0 (length (ctxs w.2))))
    by apply length_seq.
  apply submseteq_length, NoDup_submseteq; [done|].
  intros x Hx. apply elem_of_seq. unfold pool_wf in Hwf.
  rewrite Forall_forall in Hwf. specialize (Hwf x Hx). lia.
Qed.

End PoolInvariants.

Lemma getStats_consistent_witness :
  ((Ctx.getStats
      (Ctx.steps (H:=Demo.platform)
         [Ctx.OpAcquire Demo.quiet_app Demo.get_users 0%nat;
          Ctx.OpAcquire Demo.quiet_app Demo.post_login 1%nat;
          Ctx.OpRelease 0%nat; Ctx.OpRelease 1%nat]
         (Ctx.new_pool 1, PoolInv.empty_store (H:=Demo.platform) 0%Z)).1).1.1
   <= (Ctx.getStats
      (Ctx.steps (H:=Demo.platform)
         [Ctx.OpAcquire Demo.quiet_app Demo.get_users 0%nat;
          Ctx.OpAcquire Demo.quiet_app Demo.post_login 1%nat;
          Ctx.OpRelease 0%nat; Ctx.OpRelease 1%nat]
         (Ctx.new_pool 1, PoolInv.empty_store (H:=Demo.platform) 0%Z)).1).1.2)%nat.
Proof.
  apply (getStats_consistent (H:=Demo.platform) 1 0%Z
    [Ctx.OpAcquire Demo.quiet_app Demo.get_users 0%nat;
     Ctx.OpAcquire Demo.quiet_app Demo.post_login 1%nat;
     Ctx.OpRelease 0%nat; Ctx.OpRelease 1%nat] []). lia.
Defined.

(* ===================================================================== *)
(** * Theorems: content negotiation                                       *)
(* ===================================================================== *)

Section Negotiation.

Import Ctx JsString ContextApi.

Context `{ResponseLib}.
Implicit Types (c : Context) (types : list string) (s t : string).

Lemma includes_false s t : includes s t = false <-> ~ substring_of t s.
Proof.
  unfold substring_of. rewrite <- includes_spec. by destruct (includes s t).
Qed.

Lemma first_included_Some s types t :
  first_included s types = Some t <-> first_occurring t types s.
Proof.
  unfold first_occurring. induction types as [|u types IH]; simpl.
  - split; [done|]. intros (before & after & He & _). by destruct before.
  - destruct (includes s u) eqn:Hu.
    + split.
      * intros [= ->]. exists [], types. split; [done|].
        split; [by apply includes_spec | constructor].
      * intros (before & after & He & Ht & Hall).
        destruct before as [|b before]; simpl in He.
        -- by injection He as ->.
        -- injection He as -> ->. apply Forall_cons in Hall as [Hb _].
           apply includes_false in Hb. congruence.
    + rewrite IH. split.
      * intros (before & after & -> & Ht & Hall). exists (u :: before), after.
        split; [done|]. split; [done|]. constructor; [by apply includes_false | done].
      * intros (before & after & He & Ht & Hall).
        destruct before as [|b before]; simpl in He.
        -- injection He as -> ->. apply includes_spec in Ht. congruence.
        -- injection He as -> ->. apply Forall_cons in Hall as [_ Hall].
           by exists before, after.
Qed.

Lemma first_included_None s types :
  first_included s types = None <-> Forall (fun u => ~ substring_of u s) types.
Proof.
  induction types as [|u types IH]; simpl; [split; [constructor | done]|].
  destruct (includes s u) eqn:Hu.
  - split; [done|]. intros Hall. apply Forall_cons in Hall as [Hn _].
    apply includes_false in Hn. congruence.
  - rewrite IH. split.
    + intros Hall. constructor; [by apply includes_false | done].
    + intros Hall. by apply Forall_cons in Hall as [_ ?].
Qed.

Lemma first_included_member s types t :
  first_included s types = Some t -> t ∈ types.
Proof.
  intros (before & after & -> & _)%first_included_Some.
  apply elem_of_app. right. by apply elem_of_cons; left.
Qed.

Lemma first_accepted_member s types t :
  first_accepted s types = Some t -> t ∈ types.
Proof.
  induction types as [|u types IH]; simpl; [done|].
  destruct (_ || _); [intros [= ->]; by apply elem_of_cons; left|].
  intros Ht. apply elem_of_cons. right. by apply IH.
Qed.

Lemma first_accepted_wildcard s types :
  includes s "*/*" = true -> first_accepted s types = head types.
Proof. intros Hw. destruct types as [|u types]; simpl; [done|]. by rewrite Hw, orb_true_r. Qed.

Lemma first_accepted_plain s types :
  includes s "*/*" = false -> first_accepted s types = first_included s types.
Proof.
  intros Hw. induction types as [|u types IH]; simpl; [done|].
  rewrite Hw, orb_false_r. by rewrite IH.
Qed.

(** X9.  [is]: a missing, empty or zero content type gives [null]; otherwise
    the answer is the first of the given types that occurs in the content
    type (of the response, which is where [ctx.get] reads), [false] when
    none occurs; an empty array header makes the call throw as soon as
    there is a type to test. *)
Theorem is_first_type types c :
  (falsy (get "content-type" c) = true -> is_ types c = Returns IsNull)
  /\ (forall s, falsy (get "content-type" c) = false ->
        get "content-type" c ≫= first_or_string = Some s ->
        (forall t, is_ types c = Returns (IsType t) <-> first_occurring t types s)
        /\ (is_ types c = Returns IsFalse <->
            Forall (fun u => ~ substring_of u s) types)
        /\ is_ types c <> Returns IsNull)
  /\ (get "content-type" c = Some (FArr []) -> types <> [] ->
      is_ types c = Throws TypeError).
Proof.
  unfold is_. split; [|split].
  - by intros ->.
  - intros s -> ->. split; [|split].
    + intros t. rewrite <- first_included_Some.
      destruct (first_included s types); split; intros [=]; congruence.
    + rewrite <- first_included_None.
      destruct (first_included s types); split; intros [=]; congruence.
    + by destruct (first_included s types).
  - intros -> Hne. simpl. by destruct types.
Qed.

(** X10.  [accepts]: without an [accept] header the first type is accepted
    (nothing when there is none or it is empty); with a header that holds
    ["*/*"] the first type is accepted whatever it is; otherwise the first
    type that occurs in the header; and whatever is accepted is one of the
    given types. *)
Theorem accepts_first_type types c :
  (falsy (get "accept" c) = true -> accepts types c = Returns (first_or_false types))
  /\ (forall s, falsy (get "accept" c) = false ->
        get "accept" c ≫= first_or_string = Some s ->
        (substring_of "*/*" s ->
           accepts types c = Returns (accept_result (head types)))
        /\ (~ substring_of "*/*" s ->
            forall t, accepts types c = Returns (Accepted t) <->
                      first_occurring t types s))
  /\ (forall t, accepts types c = Returns (Accepted t) -> t ∈ types).
Proof.
  unfold accepts. split; [|split].
  - by intros ->.
  - intros s -> ->. split.
    + intros Hw%includes_spec. by rewrite first_accepted_wildcard.
    + intros Hw%includes_false t. rewrite first_accepted_plain by done.
      rewrite <- first_included_Some.
      destruct (first_included s types); simpl; split; intros [=]; congruence.
  - intros t. destruct (falsy (get "accept" c)).
    + unfold first_or_false. destruct types as [|u types]; simpl; [done|].
      destruct (decide (u = "")); [done|]. intros [= ->]. by apply elem_of_cons; left.
    + destruct (get "accept" c ≫= first_or_string) as [s|].
      * destruct (first_accepted s types) as [u|] eqn:Hf; simpl; [|done].
        intros [= ->]. by eapply first_accepted_member.
      * by destruct types.
Qed.

Lemma accepts_by_negotiated field types c :
  negotiated field types c (accepts_by field types c).
Proof.
  unfold negotiated, accepts_by. split; [|split].
  - by intros ->.
  - intros s -> ->. split.
    + intros t. rewrite <- first_included_Some.
      destruct (first_included s types); simpl; split; intros [=]; congruence.
    + rewrite <- first_included_None.
      destruct (first_included s types); simpl; split; intros [=]; congruence.
  - intros -> Hne. simpl. by destruct types.
Qed.

(** X11.  [acceptsEncodings], [acceptsCharsets] and [acceptsLanguages] answer
    from the [accept-encoding], [accept-charset] and [accept-language]
    header: without the header the first candidate, otherwise the first
    candidate that occurs in it (a wildcard in the header accepts
    nothing), nothing when none occurs; an empty array header makes the
    call throw. *)
Theorem accepts_family types c :
  negotiated "accept-encoding" types c (acceptsEncodings types c)
  /\ negotiated "accept-charset" types c (acceptsCharsets types c)
  /\ negotiated "accept-language" types c (acceptsLanguages types c).
Proof. split; [|split]; apply accepts_by_negotiated. Qed.

End Negotiation.

Lemma is_first_type_witness :
  ContextApi.is_ (H0:=DemoResponse.lib) ["json"; "html"]
    (DemoResponse.with_headers
       [("content-type", ContextApi.FStr "text/html; charset=utf-8")])
  = JsString.Returns (ContextApi.IsType "html")
  /\ ContextApi.is_ (H0:=DemoResponse.lib) ["json"] (DemoResponse.with_headers [])
     = JsString.Returns ContextApi.IsNull
  /\ ContextApi.is_ (H0:=DemoResponse.lib) ["json"]
       (DemoResponse.with_headers [("content-type", ContextApi.FArr [])])
     = JsString.Throws JsString.TypeError.
Proof.
  split; [|split].
  - destruct (is_first_type (H0:=DemoResponse.lib) ["json"; "html"]
      (DemoResponse.with_headers
         [("content-type", ContextApi.FStr "text/html; charset=utf-8")]))
      as (_ & Hm & _).
    destruct (Hm "text/html; charset=utf-8") as (Ht & _);
      [vm_compute; reflexivity | vm_compute; reflexivity |].
    apply Ht. apply first_included_Some. vm_compute. reflexivity.
  - apply (is_first_type (H0:=DemoResponse.lib)). vm_compute. reflexivity.
  - apply (is_first_type (H0:=DemoResponse.lib)); [vm_compute; reflexivity | discriminate].
Defined.

Lemma accepts_first_type_witness :
  ContextApi.accepts (H0:=DemoResponse.lib) ["application/json"; "text/html"]
    (DemoResponse.with_headers [("accept", ContextApi.FStr "image/png, */*;q=0.8")])
  = JsString.Returns (ContextApi.Accepted "application/json")
  /\ ContextApi.accepts (H0:=DemoResponse.lib) ["text/html"] (DemoResponse.with_headers [])
     = JsString.Returns (ContextApi.Accepted "text/html").
Proof.
  destruct (accepts_first_type (H0:=DemoResponse.lib) ["application/json"; "text/html"]
    (DemoResponse.with_headers [("accept", ContextApi.FStr "image/png, */*;q=0.8")]))
    as (_ & Hs & _).
  destruct (accepts_first_type (H0:=DemoResponse.lib) ["text/html"]
    (DemoResponse.with_headers [])) as (Hnone & _ & _).
  split.
  - destruct (Hs "image/png, */*;q=0.8") as (Hw & _);
      [vm_compute; reflexivity | vm_compute; reflexivity |].
    apply Hw. apply includes_spec. vm_compute. reflexivity.
  - apply Hnone. vm_compute. reflexivity.
Defined.

Lemma accepts_family_witness :
  ContextApi.acceptsEncodings (H0:=DemoResponse.lib) ["gzip"]
    (DemoResponse.with_headers [("accept-encoding", ContextApi.FStr "*")])
  = JsString.Returns ContextApi.NotAccepted.
Proof.
  destruct (accepts_family (H0:=DemoResponse.lib) ["gzip"]
    (DemoResponse.with_headers [("accept-encoding", ContextApi.FStr "*")]))
    as ((_ & Hs & _) & _ & _).
  destruct (Hs "*") as (_ & Hn); [vm_compute; reflexivity | vm_compute; reflexivity |].
  apply Hn. apply first_included_None. vm_compute. reflexivity.
Defined.

(* ===================================================================== *)
(** * Theorems: building a router                                         *)
(* ===================================================================== *)

Section PathPatterns.

Import JsString RouterApi.
Import Stdlib.Strings.Ascii.

Lemma name_start_char c : is_name_start c = true -> is_name_char c = true.
Proof. unfold is_name_char. by intros ->. Qed.

Lemma colon_not_name : is_name_char ":"%char = false.
Proof. reflexivity. Qed.

Lemma append_cons x (a b : string) : String x a +:+ b = String x (a +:+ b).
Proof. reflexivity. Qed.

Lemma append_nil_l (b : string) : "" +:+ b = b.
Proof. reflexivity. Qed.

Lemma append_assoc (a b c : string) : (a +:+ b) +:+ c = a +:+ (b +:+ c).
Proof.
  induction a as [|x a IH]; [done|]. rewrite !append_cons. by rewrite IH.
Qed.

Lemma append_nil_r (a : string) : a +:+ "" = a.
Proof.
  induction a as [|x a IH]; [done|]. rewrite append_cons. by rewrite IH.
Qed.

(** Text before the first colon is copied. *)
Lemma replace_prefix lit path :
  has_char ":"%char lit = false ->
  replace_params (lit +:+ path) None =
  (lit +:+ (replace_params path None).1, (replace_params path None).2).
Proof.
  induction lit as [|c lit IH]; intros Hc.
  - rewrite !append_nil_l. by destruct (replace_params path None).
  - simpl in Hc. destruct (decide (c = ":"%char)) as [|Hne]; [done|].
    rewrite ?append_cons, ?append_nil_l; cbn [replace_params].
    rewrite bool_decide_eq_false_2 by done. cbn [andb].
    rewrite (IH Hc). reflexivity.
Qed.

(** While a name is being read, name characters extend it; the first
    other character, or the end, closes it. *)
Lemma replace_in_name more : forall n rest,
  all_chars is_name_char more = true ->
  starts_name rest = false ->
  (forall c rest', rest = String c rest' -> is_name_char c = false) ->
  replace_params (more +:+ rest) (Some n) =
  (group_source +:+ (replace_params rest None).1,
   (n +:+ more) :: (replace_params rest None).2).
Proof.
  induction more as [|c more IH]; intros n rest Hall Hstart Hnext.
  - rewrite append_nil_r, ?append_nil_l.
    destruct rest as [|d rest]; [reflexivity|].
    cbn [replace_params]. rewrite (Hnext d rest eq_refl).
    destruct (bool_decide (d = ":"%char) && starts_name rest) eqn:Hcolon.
    + by destruct (replace_params rest (Some EmptyString)).
    + by destruct (replace_params rest None).
  - cbn [all_chars] in Hall. apply andb_prop in Hall as [Hc Hall].
    rewrite ?append_cons, ?append_nil_l; cbn [replace_params]. rewrite Hc.
    rewrite (IH _ rest Hall Hstart Hnext).
    rewrite append_assoc. reflexivity.
Qed.

Lemma identifier_snoc n c :
  (n = "" -> is_name_start c = true) ->
  (n <> "" -> identifier n) ->
  is_name_char c = true ->
  identifier (n +:+ String c "").
Proof.
  intros Hempty Hid Hc. destruct n as [|d n]; simpl.
  - split; simpl; [by apply Hempty | by rewrite Hc].
  - destruct (Hid ltac:(done)) as [Hs Ha]. split; [exact Hs|].
    simpl in Ha |- *. apply andb_prop in Ha as [Hd Ha]. rewrite Hd. simpl.
    clear -Ha Hc. induction n as [|e n IH]; simpl in *; [by rewrite Hc|].
    apply andb_prop in Ha as [He Ha]. rewrite He. simpl. by apply IH.
Qed.

Lemma replace_names path : forall name,
  match name with
  | None => True
  | Some n => (n = "" -> starts_name path = true) /\ (n <> "" -> identifier n)
  end ->
  Forall identifier (replace_params path name).2.
Proof.
  induction path as [|c path IH]; intros name Hname.
  - destruct name as [n|]; simpl; [|constructor].
    destruct Hname as [Hempty Hid]. constructor; [|constructor].
    destruct n; [by specialize (Hempty eq_refl) | by apply Hid].
  - cbn [replace_params].
    assert (Hout : Forall identifier
      (if bool_decide (c = ":"%char) && starts_name path
       then replace_params path (Some EmptyString)
       else let '(out, names) := replace_params path None in (String c out, names)).2).
    { destruct (bool_decide (c = ":"%char) && starts_name path) eqn:Hcolon.
      - apply IH. apply andb_prop in Hcolon as [_ Hs]. split; [done|]. done.
      - specialize (IH None I). by destruct (replace_params path None). }
    destruct name as [n|]; [|exact Hout].
    destruct Hname as [Hempty Hid].
    destruct (is_name_char c) eqn:Hc.
    + apply IH. split.
      * intros He. by destruct n.
      * intros _. apply identifier_snoc; [|done|done].
        intros ->. by apply Hempty.
    + destruct (if bool_decide (c = ":"%char) && starts_name path
                then replace_params path (Some EmptyString)
                else let '(out, names) := replace_params path None in (String c out, names))
        as [out names].
      simpl in *. constructor; [|done].
      destruct n; [|by apply Hid].
      specialize (Hempty eq_refl). simpl in Hempty.
      apply name_start_char in Hempty. congruence.
Qed.

(** X12.  The rule of [pathToRegex].  A path without a colon is its own
    pattern and has no parameters.  In [lit :name rest], where [lit] has
    no colon, [name] is an identifier and [rest] does not go on with a
    name character, the parameter is replaced by one group, its name
    comes first among the names, and [rest] is treated on its own.  Every
    name found is an identifier. *)
Theorem replace_params_rule :
  (forall path, has_char ":"%char path = false ->
     replace_params path None = (path, []))
  /\ (forall lit name rest,
        has_char ":"%char lit = false ->
        identifier name ->
        (forall c rest', rest = String c rest' -> is_name_char c = false) ->
        replace_params (lit +:+ ":" +:+ name +:+ rest) None =
        (lit +:+ group_source +:+ (replace_params rest None).1,
         name :: (replace_params rest None).2))
  /\ (forall path, Forall identifier (replace_params path None).2).
Proof.
  split; [|split].
  - intros path Hc. pose proof (replace_prefix path "" Hc) as Hp.
    rewrite append_nil_r in Hp. rewrite Hp. simpl. by rewrite append_nil_r.
  - intros lit name rest Hlit [Hs Ha] Hnext.
    rewrite (replace_prefix lit _ Hlit). f_equal.
    + f_equal. rewrite ?append_cons, ?append_nil_l; cbn [replace_params].
      rewrite bool_decide_eq_true_2 by done.
      assert (starts_name (name +:+ rest) = true) as -> by (by destruct name).
      cbn [andb]. rewrite replace_in_name; [done | done | | done].
      destruct rest as [|c rest]; [done|]. simpl.
      specialize (Hnext c rest eq_refl). unfold is_name_char in Hnext.
      by apply orb_false_elim in Hnext as [? _].
    + rewrite ?append_cons, ?append_nil_l; cbn [replace_params].
      rewrite bool_decide_eq_true_2 by done.
      assert (starts_name (name +:+ rest) = true) as -> by (by destruct name).
      cbn [andb]. rewrite replace_in_name; [done | done | | done].
      destruct rest as [|c rest]; [done|]. simpl.
      specialize (Hnext c rest eq_refl). unfold is_name_char in Hnext.
      by apply orb_false_elim in Hnext as [? _].
  - intros path. by apply replace_names.
Qed.

Lemma replace_params_rule_witness :
  replace_params "/users/:id/posts" None = ("/users/([^/]+)/posts", ["id"])
  /\ replace_params "/health" None = ("/health", []).
Proof.
  destruct replace_params_rule as (Hplain & Hrule & _). split.
  - apply (Hrule "/users/" "id" "/posts"); [reflexivity | by split |].
    intros c rest' [= <- <-]. reflexivity.
  - apply Hplain. reflexivity.
Defined.

End PathPatterns.

Section RouterBuilding.

Import Ctx Router JsString RouterApi.
Import Stdlib.Strings.Ascii.

Context `{RegExpLib}.
Implicit Types (rl target : list Route) (h : Middleware) (r : Route).

Lemma upper_char_idem c : upper_char (upper_char c) = upper_char c.
Proof. destruct c as [[] [] [] [] [] [] [] []]; reflexivity. Qed.

Lemma toUpperCase_idem s : toUpperCase (toUpperCase s) = toUpperCase s.
Proof.
  unfold toUpperCase. induction s as [|c s IH]; simpl; [done|].
  by rewrite upper_char_idem, IH.
Qed.

Lemma register_spec m path h rl :
  register m path h rl =
  match RegExp_new (regex_source path) with
  | Some re =>
      (rl ++ [mkRoute (toUpperCase m) path re (replace_params path None).2 h], None)
  | None => (rl, Some SyntaxError)
  end.
Proof.
  unfold register, pathToRegex, regex_source.
  destruct (replace_params path None) as [out names]. simpl.
  by destruct (RegExp_new _).
Qed.

Lemma made_well_formed m path h re :
  RegExp_new (regex_source path) = Some re ->
  well_formed (mkRoute (toUpperCase m) path re (replace_params path None).2 h).
Proof.
  intros Hre. split; [simpl; by rewrite toUpperCase_idem|]. split; [done | exact Hre].
Qed.

Lemma register_each_spec ms path h : forall rl,
  register_each ms path h rl =
  match RegExp_new (regex_source path) with
  | Some re =>
      (rl ++ map (fun m => mkRoute (toUpperCase m) path re
                             (replace_params path None).2 h) ms, None)
  | None => (rl, match ms with [] => None | _ :: _ => Some SyntaxError end)
  end.
Proof.
  induction ms as [|m ms IH]; intros rl; simpl.
  - destruct (RegExp_new _); by rewrite ?app_nil_r.
  - rewrite register_spec. destruct (RegExp_new (regex_source path)) as [re|] eqn:Hre.
    + cbn beta iota. rewrite IH. by rewrite <- app_assoc.
    + done.
Qed.

Lemma register_each_appends ms path h rl :
  exists added,
    (register_each ms path h rl).1 = rl ++ added /\ Forall well_formed added.
Proof.
  rewrite register_each_spec.
  destruct (RegExp_new (regex_source path)) as [re|] eqn:Hre; simpl.
  - eexists. split; [reflexivity|]. apply Forall_map, Forall_forall. intros m _.
    by apply made_well_formed.
  - exists []. by rewrite app_nil_r.
Qed.

Lemma prefixed_append p s : prefixed p s = p +:+ s.
Proof. unfold prefixed. by destruct (decide (p = "")) as [->|]. Qed.

Lemma register_nested_prefixed p routes : forall target,
  register_nested p routes target = register_prefixed p routes target.
Proof.
  induction routes as [|r routes IH]; intros target; simpl; [done|].
  rewrite prefixed_append. destruct (register _ _ _ target) as [t [e|]]; [done|].
  apply IH.
Qed.

(** What a loop of registrations under a prefix leaves: the target with
    routes appended, one per source route for as long as the patterns
    compile. *)
Lemma register_prefixed_spec p routes : forall target,
  exists added,
    (register_prefixed p routes target).1 = target ++ added
    /\ Forall well_formed added
    /\ ((register_prefixed p routes target).2 = None ->
        getRoutes added = map (fun r => (toUpperCase (method r), p +:+ pattern r)) routes
        /\ map handler added = map handler routes
        /\ map paramNames added
           = map (fun r => (replace_params (p +:+ pattern r) None).2) routes).
Proof.
  induction routes as [|r routes IH]; intros target; simpl.
  - exists []. by rewrite app_nil_r.
  - rewrite register_spec.
    destruct (RegExp_new (regex_source (p +:+ pattern r))) as [re|] eqn:Hre.
    + destruct (IH (target ++ [mkRoute (toUpperCase (method r)) (p +:+ pattern r) re
                                 (replace_params (p +:+ pattern r) None).2 (handler r)]))
        as (added & Hadd & Hwf & Hok).
      eexists (_ :: added). rewrite Hadd, <- app_assoc. split; [reflexivity|].
      split; [constructor; [by apply made_well_formed | done]|].
      intros Hnone. destruct (Hok Hnone) as (Hr & Hh & Hn). simpl.
      by rewrite Hr, Hh, Hn.
    + exists []. rewrite app_nil_r. simpl. split; [done|]. split; [constructor | done].
Qed.

Lemma use_appends args rl :
  exists added, (use args rl).1 = rl ++ added /\ Forall well_formed added.
Proof.
  unfold use. destruct args as [m|path [m|]]; [| |exists []; by rewrite app_nil_r];
    destruct m as [h0|h0 child|h0|h0]; try apply register_each_appends;
    try (exists []; by rewrite app_nil_r).
  - rewrite register_nested_prefixed.
    destruct (register_prefixed_spec "" child rl) as (added & ? & ? & _). eauto.
  - rewrite register_nested_prefixed.
    destruct (register_prefixed_spec path child rl) as (added & ? & ? & _). eauto.
Qed.

End RouterBuilding.

Section RouterTheorems.

Import Ctx Router JsString RouterApi.
Import Stdlib.Strings.Ascii.

Context `{RegExpLib}.
Implicit Types (rl : list Route) (h : Middleware) (r : Route) (s t : RState).

(** X13.  [all] registers seven routes or none: when the pattern compiles, one
    route per method, in the order GET, POST, PUT, DELETE, PATCH, HEAD,
    OPTIONS, after the routes that were there; when it does not, the call
    throws and the router is as before. *)
Theorem all_seven_or_none (path : string) h rl :
  (forall re, RegExp_new (regex_source path) = Some re ->
     all path h rl =
     (rl ++ map (fun m => mkRoute m path re (replace_params path None).2 h) all_methods,
      None))
  /\ (RegExp_new (regex_source path) = None ->
      all path h rl = (rl, Some SyntaxError)).
Proof.
  unfold all. rewrite register_each_spec. split.
  - intros re ->. reflexivity.
  - intros ->. reflexivity.
Qed.

Lemma register_appends m path h rl :
  exists added, (register m path h rl).1 = rl ++ added /\ Forall well_formed added.
Proof.
  rewrite register_spec.
  destruct (RegExp_new (regex_source path)) as [re|] eqn:Hre; simpl.
  - eexists. split; [reflexivity|]. constructor; [by apply made_well_formed | constructor].
  - exists []. by rewrite app_nil_r.
Qed.

Lemma build_appends (b : Build) rl :
  (forall p, b <> BPrefix p) ->
  exists added, build b rl = rl ++ added /\ Forall well_formed added.
Proof.
  intros Hb. destruct b as [m p h|p h|p h|p h|p h|p h|p h|args|p]; simpl;
    try apply register_appends.
  - apply register_each_appends.
  - apply use_appends.
  - by destruct (Hb p).
Qed.

Lemma build_well_formed (b : Build) rl :
  Forall well_formed rl -> Forall well_formed (build b rl).
Proof.
  intros Hwf.
  assert (Hcase : (exists p, b = BPrefix p) \/ (forall p, b <> BPrefix p))
    by (destruct b; eauto).
  destruct Hcase as [[p ->]|Hb].
  - simpl. unfold prefix.
    destruct (register_prefixed_spec (strip_trailing_slash p) rl []) as (added & Ha & Hw & _).
    destruct (register_prefixed _ rl []) as [newList [e|]]; [done|].
    simpl in Ha. by subst newList.
  - destruct (build_appends b rl Hb) as (added & -> & Hw). by apply Forall_app.
Qed.

(** X14.  Every route of a router that was built through its methods is as
    [register] makes routes: its method is in upper case, and its
    parameter names and its expression are those of its pattern. *)
Theorem built_routes_well_formed (bs : list Build) :
  Forall well_formed (builds bs []).
Proof.
  unfold builds. generalize (@nil Route) (Forall_nil_2 well_formed).
  induction bs as [|b bs IH]; intros rl Hwf; simpl; [done|].
  apply IH. by apply build_well_formed.
Qed.

Lemma strip_snoc_slash p : strip_trailing_slash (p +:+ "/") = p.
Proof.
  induction p as [|c p IH]; [done|].
  rewrite append_cons. cbn [strip_trailing_slash].
  destruct (p +:+ "/") eqn:Hp; [by destruct p|]. by rewrite IH.
Qed.

(** X15.  [prefix] drops one trailing slash of the prefix.  The router it
    returns has, per route of the original and in the same order, a route
    with the same handler, the method in upper case and the prefix put
    before the pattern; when the prefix holds no colon and the original
    routes were made by [register], methods and parameter names are those
    of the original. *)
Theorem prefix_routes (p : string) rl :
  strip_trailing_slash (p +:+ "/") = p
  /\ forall newList, prefix p rl = Returns newList ->
       getRoutes newList
       = map (fun r => (toUpperCase (method r), strip_trailing_slash p +:+ pattern r)) rl
       /\ map handler newList = map handler rl
       /\ Forall well_formed newList
       /\ (has_char ":"%char (strip_trailing_slash p) = false ->
           Forall well_formed rl ->
           map method newList = map method rl
           /\ map paramNames newList = map paramNames rl).
Proof.
  split; [apply strip_snoc_slash|]. intros newList Hp. unfold prefix in Hp.
  destruct (register_prefixed_spec (strip_trailing_slash p) rl [])
    as (added & Ha & Hw & Hok).
  destruct (register_prefixed _ rl []) as [nl [e|]]; [done|].
  injection Hp as ->. simpl in Ha. subst added.
  destruct (Hok eq_refl) as (Hr & Hh & Hn).
  split; [done|]. split; [done|]. split; [done|].
  intros Hcolon Hwf. split.
  - assert (Hm : map method newList = map fst (getRoutes newList))
      by (unfold getRoutes; by rewrite map_map).
    rewrite Hm, Hr, map_map. simpl. apply Forall_fmap_ext_1.
    eapply Forall_impl; [exact Hwf|]. by intros r (<- & _).
  - rewrite Hn. apply Forall_fmap_ext_1.
    eapply Forall_impl; [exact Hwf|]. intros r (_ & -> & _).
    by rewrite replace_prefix.
Qed.

(** X16.  [use] only ever appends.  Without middleware it throws and changes
    nothing.  Mounting the [routes()] of a router under a prefix appends,
    when it does not throw, one route per route of that router, in order,
    with its handler, its method in upper case and the prefix before its
    pattern.  Mounting a plain middleware appends the seven routes of the
    wildcard pattern, or throws and appends none.  A middleware whose
    [router] has neither a [routeList] nor a [stack] is dropped without a
    word. *)
Theorem use_mounts rl :
  (forall args, exists added, (use args rl).1 = rl ++ added)
  /\ (forall p, use (UsePath p None) rl
                = (rl, Some (PlainError "Middleware is required when path is provided")))
  /\ (forall p h child rl',
        use (UsePath p (Some (Nested h child))) rl = (rl', None) ->
        getRoutes rl'
        = getRoutes rl ++ map (fun r => (toUpperCase (method r), p +:+ pattern r)) child
        /\ map handler rl' = map handler rl ++ map handler child)
  /\ (forall p h,
        use (UsePath p (Some (Plain h))) rl
        = match RegExp_new (regex_source (p +:+ "(.*)")) with
          | Some re =>
              (rl ++ map (fun m => mkRoute m (p +:+ "(.*)") re
                                     (replace_params (p +:+ "(.*)") None).2 h)
                         all_methods, None)
          | None => (rl, Some SyntaxError)
          end)
  /\ (forall p h, use (UsePath p (Some (Unknown h))) rl = (rl, None)).
Proof.
  split; [|split; [|split; [|split]]]; [| | | |reflexivity].
  - intros args. destruct (use_appends args rl) as (added & ? & _). eauto.
  - reflexivity.
  - intros p h child rl' Hu. unfold use in Hu. rewrite register_nested_prefixed in Hu.
    destruct (register_prefixed_spec p child rl) as (added & Ha & _ & Hok).
    rewrite Hu in Ha, Hok. simpl in Ha, Hok. subst rl'.
    destruct (Hok eq_refl) as (Hr & Hh & _).
    unfold getRoutes in *. by rewrite !map_app, Hr, Hh.
  - intros p h. unfold use. rewrite register_each_spec, prefixed_append.
    by destruct (RegExp_new _).
Qed.

Lemma matching_cached t r :
  matching (ctx_method (ctx_path t).2) (ctx_path (ctx_path t).2).1 r
  = matching (ctx_method t) (ctx_path t).1 r.
Proof.
  rewrite ctx_path_cached. by destruct (ctx_path_frame t) as (-> & _).
Qed.

Lemma routes_loop_stable rl (added : list Route) next : forall t,
  Exists (fun r => is_Some (matching (ctx_method t) (ctx_path t).1 r)) rl ->
  routes_loop (rl ++ added) next t = routes_loop rl next t.
Proof.
  induction rl as [|r rl IH]; intros t Hex; [by apply Exists_nil in Hex|].
  simpl. apply Exists_cons in Hex.
  destruct (decide (method r <> ctx_method t)) as [Hm|Hm].
  - apply IH. destruct Hex as [Hr|Hex]; [|done].
    unfold matching in Hr. destruct (decide (method r = ctx_method t)); [done|].
    by destruct Hr.
  - destruct (ctx_path t) as [path t1] eqn:Hp.
    destruct (regex_match path (regex r)) as [m|] eqn:Hre; [done|].
    apply IH. destruct Hex as [Hr|Hex].
    + unfold matching in Hr. destruct (decide (method r = ctx_method t)); [|by destruct Hr].
      simpl in Hr. rewrite Hre in Hr. by destruct Hr.
    + eapply Exists_impl; [exact Hex|]. intros r' Hr'. simpl in Hr'.
      pose proof (matching_cached t r') as Hc. rewrite Hp in Hc. simpl in Hc.
      by rewrite Hc.
Qed.

Lemma nested_loop_stable rl (added : list Route) next : forall t,
  Exists (fun r => is_Some (matching (ctx_method t) (ctx_path t).1 r)) rl ->
  nested_loop (rl ++ added) next t = nested_loop rl next t.
Proof.
  induction rl as [|r rl IH]; intros t Hex; [by apply Exists_nil in Hex|].
  simpl. apply Exists_cons in Hex.
  destruct (decide (method r <> ctx_method t)) as [Hm|Hm].
  - apply IH. destruct Hex as [Hr|Hex]; [|done].
    unfold matching in Hr. destruct (decide (method r = ctx_method t)); [done|].
    by destruct Hr.
  - destruct (ctx_path t) as [path t1] eqn:Hp.
    destruct (regex_match path (regex r)) as [m|] eqn:Hre; [done|].
    apply IH. destruct Hex as [Hr|Hex].
    + unfold matching in Hr. destruct (decide (method r = ctx_method t)); [|by destruct Hr].
      simpl in Hr. rewrite Hre in Hr. by destruct Hr.
    + eapply Exists_impl; [exact Hex|]. intros r' Hr'. simpl in Hr'.
      pose proof (matching_cached t r') as Hc. rewrite Hp in Hc. simpl in Hc.
      by rewrite Hc.
Qed.

(** X17.  Registration order is priority.  A request that some route of the
    router takes is routed exactly as before after any further [register],
    [get], [post], [put], [delete], [patch], [all] or [use]: what is
    registered later never gets in front. *)
Theorem routing_stable (b : Build) rl (next : Awaitable) s (self : addr) :
  (forall p, b <> BPrefix p) ->
  Exists (fun r => is_Some (matching (ctx_method s) (ctx_path s).1 r)) rl ->
  routes (build b rl) next s = routes rl next s
  /\ nested_routes self (build b rl) next s = nested_routes self rl next s.
Proof.
  intros Hb Hex. destruct (build_appends b rl Hb) as (added & -> & _).
  unfold routes, nested_routes. split.
  - apply routes_loop_stable. eapply Exists_impl; [exact Hex|]. intros r Hr.
    destruct s as [c σ]. simpl.
    destruct (ctx_path_request (set_params None c) c σ σ eq_refl) as [-> ->]. exact Hr.
  - apply nested_loop_stable. eapply Exists_impl; [exact Hex|]. intros r Hr.
    destruct s as [c σ]. cbn [fst snd].
    destruct (matched (set_router (Some self) (set_params None c)));
      [destruct (ctx_path_request (set_router (Some self) (set_params None c)) c σ σ eq_refl)
         as [-> ->]
      |destruct (ctx_path_request
                   (set_matched (Some []) (set_router (Some self) (set_params None c)))
                   c σ σ eq_refl) as [-> ->]];
      exact Hr.
Qed.

End RouterTheorems.

Lemma all_seven_or_none_witness :
  (RouterApi.all (H0:=DemoRegExp.lib) "/health" DemoRouter.done_handler []).2 = None
  /\ RouterApi.getRoutes
       (RouterApi.all (H0:=DemoRegExp.lib) "/health" DemoRouter.done_handler []).1
     = [("GET", "/health"); ("POST", "/health"); ("PUT", "/health");
        ("DELETE", "/health"); ("PATCH", "/health"); ("HEAD", "/health");
        ("OPTIONS", "/health")]
  /\ RouterApi.all (H0:=DemoRegExp.lib) "/(?" DemoRouter.done_handler
       [DemoRouter.login_route]
     = ([DemoRouter.login_route], Some JsString.SyntaxError).
Proof.
  destruct (all_seven_or_none (H0:=DemoRegExp.lib) "/health" DemoRouter.done_handler [])
    as [Hok _].
  destruct (all_seven_or_none (H0:=DemoRegExp.lib) "/(?" DemoRouter.done_handler
              [DemoRouter.login_route]) as [_ Hbad].
  rewrite (Hok "^/health$" eq_refl). split; [done|]. split; [reflexivity|].
  apply Hbad. reflexivity.
Defined.

Lemma prefix_routes_witness :
  exists newList,
    RouterApi.prefix (H0:=DemoRegExp.lib) "/api/"
      [DemoRouter.login_route; DemoRouter.user_route] = JsString.Returns newList
    /\ RouterApi.getRoutes newList
       = [("POST", "/api/login"); ("GET", "/api/users/:id")].
Proof.
  destruct (RouterApi.prefix (H0:=DemoRegExp.lib) "/api/"
              [DemoRouter.login_route; DemoRouter.user_route]) as [newList|e] eqn:Hp;
    [|vm_compute in Hp; discriminate].
  exists newList. split; [reflexivity|].
  destruct (prefix_routes (H0:=DemoRegExp.lib) "/api/"
              [DemoRouter.login_route; DemoRouter.user_route]) as [_ Hr].
  destruct (Hr newList Hp) as (-> & _). reflexivity.
Defined.

Lemma use_mounts_witness :
  exists rl',
    RouterApi.use (H0:=DemoRegExp.lib)
      (RouterApi.UsePath "/v1"
         (Some (RouterApi.Nested DemoRouter.done_handler [DemoRouter.user_route])))
      [DemoRouter.login_route] = (rl', None)
    /\ RouterApi.getRoutes rl' = [("POST", "/login"); ("GET", "/v1/users/:id")].
Proof.
  destruct (RouterApi.use (H0:=DemoRegExp.lib)
      (RouterApi.UsePath "/v1"
         (Some (RouterApi.Nested DemoRouter.done_handler [DemoRouter.user_route])))
      [DemoRouter.login_route]) as [rl' e] eqn:Hu.
  assert (e = None) as -> by (vm_compute in Hu; by injection Hu as _ <-).
  exists rl'. split; [reflexivity|].
  destruct (use_mounts (H0:=DemoRegExp.lib) [DemoRouter.login_route]) as (_ & _ & Hn & _).
  destruct (Hn _ _ _ _ Hu) as [-> _]. reflexivity.
Defined.

Lemma routing_stable_witness :
  Router.routes
    (RouterApi.build (H0:=DemoRegExp.lib)
       (RouterApi.BGet "/users/:id" (fun _ s => (Failed MultipleNextInvocationError, s)))
       [DemoRouter.login_route; DemoRouter.user_route])
    (fun s => (Completed, s)) DemoRouter.stale_state
  = Router.routes [DemoRouter.login_route; DemoRouter.user_route]
      (fun s => (Completed, s)) DemoRouter.stale_state.
Proof.
  apply (routing_stable (H0:=DemoRegExp.lib) _ _ _ _ 0%nat).
  - discriminate.
  - apply Exists_cons. right. apply Exists_cons. left. vm_compute. eauto.
Defined.

(* ===================================================================== *)
(** * Theorems: [allowedMethods]                                          *)
(* ===================================================================== *)

Section AllowedMethodsFacts.

Import Ctx Router JsString RouterApi AllowedMethods.

Context `{ResponseWriter}.
Implicit Types (rl : list Route) (r : Route) (s t : RState) (set : list string).

Lemma set_add_elem m x set : x ∈ set_add m set <-> x ∈ set \/ x = m.
Proof.
  unfold set_add, array_push. destruct (bool_decide (m ∈ set)) eqn:Hm.
  - apply bool_decide_eq_true in Hm. split; [by left | intros [?| ->]; done].
  - rewrite elem_of_app, list_elem_of_singleton. done.
Qed.

Lemma set_add_NoDup m set : NoDup set -> NoDup (set_add m set).
Proof.
  intros Hnd. unfold set_add, array_push. destruct (bool_decide (m ∈ set)) eqn:Hm; [done|].
  apply bool_decide_eq_false in Hm. apply NoDup_app. split; [done|].
  split; [|apply NoDup_singleton]. intros x Hx ->%list_elem_of_singleton. done.
Qed.

Lemma set_add_length m set : (length set <= length (set_add m set))%nat.
Proof.
  unfold set_add, array_push. destruct (bool_decide _); [done|].
  rewrite length_app. lia.
Qed.

(** The methods collected are, each once, those of the routes whose
    expression matches the path; collecting touches nothing but the path
    cache. *)
Lemma collect_allowed_spec rl : forall set t,
  (forall x, x ∈ (collect_allowed rl set t).1 <->
     x ∈ set \/ exists r, r ∈ rl /\ method r = x /\ path_matches (ctx_path t).1 r)
  /\ (NoDup set -> NoDup (collect_allowed rl set t).1)
  /\ ((collect_allowed rl set t).2 = t \/ (collect_allowed rl set t).2 = (ctx_path t).2).
Proof.
  induction rl as [|r rl IH]; intros set t; simpl.
  - split; [|by split; [|left]]. intros x. split; [by left|].
    intros [?|(r & Hr & _)]; [done|]. by apply not_elem_of_nil in Hr.
  - pose proof (ctx_path_cached t) as Hc.
    destruct (ctx_path t) as [path t1] eqn:Hp. simpl in Hc.
    assert (Hpath : (ctx_path t1).1 = path) by (by rewrite Hc).
    assert (Ht1 : forall set',
      (collect_allowed rl set' t1).2 = (path, t1).2).
    { intros set'. destruct (IH set' t1) as (_ & _ & [-> | ->]); [done|]. by rewrite Hc. }
    unfold path_matches.
    destruct (regex_match path (regex r)) as [m|] eqn:Hre.
    + destruct (IH (set_add (method r) set) t1) as (Hmem & Hnd & _). rewrite Hpath in Hmem.
      split; [|split; [|right; apply Ht1]].
      * intros x. rewrite Hmem, set_add_elem. simpl. split.
        -- intros [[?| ->]|(r' & Hr' & Hx & Hm')]; [by left | |].
           ++ right. exists r. split; [by apply elem_of_cons; left|]. by rewrite Hre.
           ++ right. exists r'. split; [by apply elem_of_cons; right | done].
        -- intros [?|(r' & Hr' & Hx & Hm')]; [by left; left|].
           apply elem_of_cons in Hr' as [-> | Hr']; [by left; right|]. right. eauto.
      * intros Hs. by apply Hnd, set_add_NoDup.
    + destruct (IH set t1) as (Hmem & Hnd & _). rewrite Hpath in Hmem.
      split; [|split; [done | right; apply Ht1]].
      intros x. rewrite Hmem. simpl. split.
      * intros [?|(r' & Hr' & Hx & Hm')]; [by left|].
        right. exists r'. split; [by apply elem_of_cons; right | done].
      * intros [?|(r' & Hr' & Hx & Hm')]; [by left|].
        apply elem_of_cons in Hr' as [-> | Hr']; [|right; eauto].
        rewrite Hre in Hm'. by destruct Hm'.
Qed.

Lemma collect_allowed_frame rl set t :
  response (collect_allowed rl set t).2.1 = response t.1
  /\ (collect_allowed rl set t).2.2 = t.2
  /\ ctx_method (collect_allowed rl set t).2 = ctx_method t
  /\ ctx_status (collect_allowed rl set t).2 = ctx_status t.
Proof.
  destruct (collect_allowed_spec rl set t) as (_ & _ & [-> | ->]); [done|].
  destruct (ctx_path_frame t) as (Hm & _ & Hs).
  split; [|split; [done | split; [done|]]].
  - destruct t as [c σ]. unfold ctx_path. simpl. by destruct (Request.get_path (request c)).
  - unfold ctx_status. destruct t as [c σ]. unfold ctx_path. simpl.
    by destruct (Request.get_path (request c)).
Qed.

Lemma collect_allowed_empty rl t :
  (collect_allowed rl [] t).1 = [] <-> Forall (fun r => ~ path_matches (ctx_path t).1 r) rl.
Proof.
  destruct (collect_allowed_spec rl [] t) as (Hmem & _ & _). split.
  - intros He. apply Forall_forall. intros r Hr Hm.
    assert (Hin : method r ∈ (collect_allowed rl [] t).1) by (apply Hmem; right; eauto).
    rewrite He in Hin. by apply not_elem_of_nil in Hin.
  - intros Hall. destruct (collect_allowed rl [] t).1 as [|x l] eqn:Hl; [done|].
    destruct (proj1 (Hmem x)) as [Hx|(r & Hr & _ & Hm)]; [by apply elem_of_cons; left| |].
    + by apply not_elem_of_nil in Hx.
    + rewrite Forall_forall in Hall. by destruct (Hall r Hr).
Qed.

(** X18.  [allowedMethods] stays out of the way: a failure of [next] is passed
    on; a response whose status is set and is not 404 is left exactly as
    [next] left it; and when no route's expression matches the path, or
    one does whose method is the request's (one of the seven, not
    OPTIONS), the response is not touched either. *)
Theorem allowedMethods_passes (throw : bool) rl (next : Awaitable) s :
  (forall e s1, next s = (Failed e, s1) ->
     allowedMethods throw rl next s = (Failed e, s1))
  /\ (forall s1, next s = (Completed, s1) ->
        ctx_status s1 <> 0 -> ctx_status s1 <> 404 ->
        allowedMethods throw rl next s = (Completed, s1))
  /\ (forall s1, next s = (Completed, s1) ->
        Forall (fun r => ~ path_matches (ctx_path s1).1 r) rl
        \/ (ctx_method s1 ∈ all_methods /\ ctx_method s1 <> "OPTIONS"
            /\ Exists (fun r => path_matches (ctx_path s1).1 r
                                /\ method r = ctx_method s1) rl) ->
        exists s2,
          allowedMethods throw rl next s = (Completed, s2)
          /\ response s2.1 = response s1.1 /\ s2.2 = s1.2).
Proof.
  unfold allowedMethods. split; [|split].
  - by intros e s1 ->.
  - intros s1 -> Hset Hfound. by rewrite bool_decide_eq_true_2.
  - intros s1 -> Hcase.
    destruct (bool_decide (ctx_status s1 <> 0 /\ ctx_status s1 <> 404)); [by exists s1|].
    pose proof (collect_allowed_frame rl [] s1) as (Hresp & Hst & Hmeth & _).
    pose proof (collect_allowed_empty rl s1) as Hempty.
    destruct (collect_allowed_spec rl [] s1) as (Hmem & _ & _).
    destruct (collect_allowed rl [] s1) as [allowed s2]. simpl in *.
    destruct Hcase as [Hnone|(Hseven & Hopt & Hex)].
    + apply Hempty in Hnone as ->. exists s2. by rewrite bool_decide_eq_true_2.
    + apply Exists_exists in Hex as (r & Hr & Hm & Hmr).
      assert (Hin : ctx_method s1 ∈ allowed) by (apply Hmem; right; eauto).
      rewrite bool_decide_eq_false_2
        by (intros Hl; destruct allowed; [by apply not_elem_of_nil in Hin | done]).
      rewrite Hmeth. rewrite (bool_decide_eq_false_2 (_ = "OPTIONS")) by done.
      rewrite (bool_decide_eq_true_2 (_ ∈ all_methods)) by done.
      rewrite (bool_decide_eq_true_2 (_ ∈ allowed)) by done.
      by exists s2.
Qed.

Lemma throw_method m (code : Z) (what : string) :
  Ctx.throw code (Some ("Method " +:+ m +:+ what))
  = Failed (ErrorObj ("Method " +:+ m +:+ what) (Some code) true).
Proof. unfold Ctx.throw, str_or. by destruct (decide _). Qed.

(** X19.  With [throw] set, [allowedMethods] turns a request that was left
    without an answer (status unset or 404) on a path that some route's
    expression matches into an error: 501 "not implemented" for a method
    outside the seven, 405 "not allowed" for one of the seven (other than
    OPTIONS) that no route matching the path has.  Without [throw] the
    status is set instead and, in both cases, [Allow] lists, each once and
    joined by [", "], the methods of the routes whose expression matches
    the path. *)
Theorem allowedMethods_rejects rl (next : Awaitable) s s1 :
  next s = (Completed, s1) ->
  ctx_status s1 = 0 \/ ctx_status s1 = 404 ->
  Exists (fun r => path_matches (ctx_path s1).1 r) rl ->
  ctx_method s1 <> "OPTIONS" ->
  (ctx_method s1 ∉ all_methods ->
     (allowedMethods true rl next s).1
     = Failed (ErrorObj ("Method " +:+ ctx_method s1 +:+ " not implemented")
                        (Some 501) true)
     /\ exists allowed s2,
          allowedMethods false rl next s
          = (Completed, ctx_set "Allow" (join ", " allowed) (ctx_set_status 501 s2))
          /\ response s2.1 = response s1.1
          /\ NoDup allowed
          /\ forall x, x ∈ allowed <->
               exists r, r ∈ rl /\ method r = x /\ path_matches (ctx_path s1).1 r)
  /\ (ctx_method s1 ∈ all_methods ->
      Forall (fun r => path_matches (ctx_path s1).1 r -> method r <> ctx_method s1) rl ->
      (allowedMethods true rl next s).1
      = Failed (ErrorObj ("Method " +:+ ctx_method s1 +:+ " not allowed")
                         (Some 405) true)
      /\ exists allowed s2,
           allowedMethods false rl next s
           = (Completed, ctx_set "Allow" (join ", " allowed) (ctx_set_status 405 s2))
           /\ response s2.1 = response s1.1
           /\ NoDup allowed
           /\ forall x, x ∈ allowed <->
                exists r, r ∈ rl /\ method r = x /\ path_matches (ctx_path s1).1 r).
Proof.
  intros Hnext Hstatus Hex Hopt. unfold allowedMethods. rewrite Hnext.
  rewrite bool_decide_eq_false_2 by lia.
  pose proof (collect_allowed_frame rl [] s1) as (Hresp & _ & Hmeth & _).
  pose proof (collect_allowed_empty rl s1) as Hempty.
  destruct (collect_allowed_spec rl [] s1) as (Hmem & Hnd & _).
  destruct (collect_allowed rl [] s1) as [allowed s2]. simpl in *.
  assert (Hne : allowed <> []).
  { intros He. apply Hempty in He. apply Exists_exists in Hex as (r & Hr & Hm).
    rewrite Forall_forall in He. by destruct (He r Hr). }
  rewrite bool_decide_eq_false_2 by (by destruct allowed).
  rewrite Hmeth. rewrite (bool_decide_eq_false_2 (_ = "OPTIONS")) by done.
  split.
  - intros Hout. rewrite (bool_decide_eq_false_2 (_ ∈ all_methods)) by done. simpl.
    split; [apply throw_method|]. exists allowed, s2. split; [done|]. split; [done|].
    split; [apply Hnd; constructor|]. intros x. rewrite Hmem. split.
    + intros [Hx|?]; [by apply not_elem_of_nil in Hx | done].
    + by right.
  - intros Hin Hall. rewrite (bool_decide_eq_true_2 (_ ∈ all_methods)) by done.
    assert (Hnot : ctx_method s1 ∉ allowed).
    { intros Ha. apply Hmem in Ha as [Ha|(r & Hr & Hx & Hm)];
        [by apply not_elem_of_nil in Ha|].
      rewrite Forall_forall in Hall. by destruct (Hall r Hr Hm). }
    rewrite (bool_decide_eq_false_2 (_ ∈ allowed)) by done. simpl.
    split; [apply throw_method|]. exists allowed, s2. split; [done|]. split; [done|].
    split; [apply Hnd; constructor|]. intros x. rewrite Hmem. split.
    + intros [Hx|?]; [by apply not_elem_of_nil in Hx | done].
    + by right.
Qed.

(** X20.  An OPTIONS request left without an answer on a path that some
    route's expression matches is answered with status 200, an empty body
    and an [Allow] header that lists, each once and joined by [", "], the
    methods of the routes whose expression matches the path. *)
Theorem allowedMethods_options (throw : bool) rl (next : Awaitable) s s1 :
  next s = (Completed, s1) ->
  ctx_status s1 = 0 \/ ctx_status s1 = 404 ->
  Exists (fun r => path_matches (ctx_path s1).1 r) rl ->
  ctx_method s1 = "OPTIONS" ->
  exists allowed s2,
    allowedMethods throw rl next s
    = (Completed,
       ctx_set_body "" (ctx_set "Allow" (join ", " allowed) (ctx_set_status 200 s2)))
    /\ response s2.1 = response s1.1
    /\ NoDup allowed
    /\ forall x, x ∈ allowed <->
         exists r, r ∈ rl /\ method r = x /\ path_matches (ctx_path s1).1 r.
Proof.
  intros Hnext Hstatus Hex Hopt. unfold allowedMethods. rewrite Hnext.
  rewrite bool_decide_eq_false_2 by lia.
  pose proof (collect_allowed_frame rl [] s1) as (Hresp & _ & Hmeth & _).
  pose proof (collect_allowed_empty rl s1) as Hempty.
  destruct (collect_allowed_spec rl [] s1) as (Hmem & Hnd & _).
  destruct (collect_allowed rl [] s1) as [allowed s2]. simpl in *.
  assert (Hne : allowed <> []).
  { intros He. apply Hempty in He. apply Exists_exists in Hex as (r & Hr & Hm).
    rewrite Forall_forall in He. by destruct (He r Hr). }
  rewrite bool_decide_eq_false_2 by (by destruct allowed).
  rewrite Hmeth, Hopt. rewrite bool_decide_eq_true_2 by done.
  exists allowed, s2. split; [done|]. split; [done|].
  split; [apply Hnd; constructor|]. intros x. rewrite Hmem. split.
  - intros [Hx|?]; [by apply not_elem_of_nil in Hx | done].
  - by right.
Qed.

End AllowedMethodsFacts.

Lemma allowedMethods_passes_witness :
  AllowedMethods.allowedMethods (H0:=DemoStatus.writer) true
    [DemoRouter.login_route; DemoRouter.user_route]
    (fun s => (Completed, s)) DemoStatus.served_user
  = (Completed, DemoStatus.served_user).
Proof.
  apply (allowedMethods_passes (H0:=DemoStatus.writer)); [reflexivity | |];
    vm_compute; discriminate.
Defined.

Lemma allowedMethods_rejects_witness :
  (AllowedMethods.allowedMethods (H0:=DemoStatus.writer) true
     [DemoRouter.login_route; DemoRouter.user_route]
     (fun s => (Completed, s)) DemoStatus.delete_user).1
  = Failed (ErrorObj "Method DELETE not allowed" (Some 405) true)
  /\ (AllowedMethods.allowedMethods (H0:=DemoStatus.writer) true
       [DemoRouter.login_route; DemoRouter.user_route]
       (fun s => (Completed, s)) DemoStatus.purge_user).1
     = Failed (ErrorObj "Method PURGE not implemented" (Some 501) true).
Proof.
  split.
  - refine (proj1 (proj2 (allowedMethods_rejects (H0:=DemoStatus.writer)
      [DemoRouter.login_route; DemoRouter.user_route]
      (fun s => (Completed, s)) DemoStatus.delete_user DemoStatus.delete_user
      eq_refl _ _ _) _ _)).
    + right. reflexivity.
    + apply Exists_cons. right. apply Exists_cons. left. vm_compute. eauto.
    + vm_compute. discriminate.
    + change (Router.ctx_method DemoStatus.delete_user) with "DELETE".
      do 3 (apply elem_of_cons; right). apply elem_of_cons. by left.
    + repeat constructor; vm_compute; intros ? [=].
  - refine (proj1 (proj1 (allowedMethods_rejects (H0:=DemoStatus.writer)
      [DemoRouter.login_route; DemoRouter.user_route]
      (fun s => (Completed, s)) DemoStatus.purge_user DemoStatus.purge_user
      eq_refl _ _ _) _)).
    + right. reflexivity.
    + apply Exists_cons. right. apply Exists_cons. left. vm_compute. eauto.
    + vm_compute. discriminate.
    + change (Router.ctx_method DemoStatus.purge_user) with "PURGE".
      intros Hin. repeat (apply elem_of_cons in Hin as [[=]|Hin]).
      by apply not_elem_of_nil in Hin.
Defined.

Lemma allowedMethods_options_witness :
  exists allowed s2,
    AllowedMethods.allowedMethods (H0:=DemoStatus.writer) false
      [DemoRouter.login_route; DemoRouter.user_route]
      (fun s => (Completed, s)) DemoStatus.options_user
    = (Completed,
       AllowedMethods.ctx_set_body (H0:=DemoStatus.writer) ""
         (AllowedMethods.ctx_set (H0:=DemoStatus.writer) "Allow"
            (JsString.join ", " allowed)
            (AllowedMethods.ctx_set_status (H0:=DemoStatus.writer) 200 s2)))
    /\ "GET" ∈ allowed /\ "POST" ∉ allowed.
Proof.
  destruct (allowedMethods_options (H0:=DemoStatus.writer) false
    [DemoRouter.login_route; DemoRouter.user_route]
    (fun s => (Completed, s)) DemoStatus.options_user DemoStatus.options_user)
    as (allowed & s2 & Ha & _ & _ & Hmem).
  - reflexivity.
  - right. reflexivity.
  - apply Exists_cons. right. apply Exists_cons. left. vm_compute. eauto.
  - reflexivity.
  - exists allowed, s2. split; [exact Ha|]. split.
    + apply Hmem. exists DemoRouter.user_route.
      split; [apply elem_of_cons; right; apply elem_of_cons; by left|].
      split; [reflexivity | vm_compute; eauto].
    + intros Hpost. apply Hmem in Hpost as (r & Hr & Hm & Hp).
      apply elem_of_cons in Hr as [-> | Hr].
      * vm_compute in Hp. destruct Hp as [? [=]].
      * apply elem_of_cons in Hr as [-> | Hr]; [discriminate Hm|].
        by apply not_elem_of_nil in Hr.
Defined.
